(** * Password generator: sampler, generators, entropy model, crack time

    A shallow embedding of [script.js].  Conventions:

    - JS integers (lengths, counts, indices, raw 32-bit samples) are [Z];
      the 32-bit range of [Uint32Array] is written out with [mod 2^32].
    - JS strings are [string]: sequences of 8-bit characters, the code
      units below U+0100.  The engine's own alphabet -- word list, digits,
      [SYMBOLS], leet alternatives -- is 7-bit ASCII; the personal hint is
      user text, and [\s] and [toLowerCase] are modelled on all 256
      characters for it.  JS arrays are [list].
    - [crypto.getRandomValues] is an oracle: an infinite sequence of raw
      values indexed by the number of raw draws made so far.  The generators
      are written in a state-and-error monad over that oracle.
    - [Math.log2], [Math.log10] and [Math.pow] are the real functions; the
      rounding of IEEE doubles is not modelled.  [-Infinity] is kept where the
      source returns it explicitly. *)

From Stdlib Require Import ZArith List String Ascii Bool Arith Lia.
From Stdlib Require Import Reals Lra.
From Stdlib Require Import Permutation.
Import ListNotations.

Local Open Scope Z_scope.

(** ** The random source and the monad of the generators *)

Module Rng.

(** [stream] is what [crypto.getRandomValues] will deliver, [pos] the number
    of raw values already consumed.  [patience] bounds the number of raw
    values one call of the rejection loop inspects: the source loops
    [while (true)], and a run that would reject more than [patience] values
    in a row is reported as [Diverge].  [choices] is instrumentation: the
    argument [maxExclusive] of every completed call of [secureRandomInt],
    oldest first. *)
Record rng : Type := mkRng {
  stream : nat -> Z;
  pos : nat;
  patience : nat;
  choices : list Z
}.

Inductive outcome (A : Type) : Type :=
| Ok (a : A) (s : rng)
| Throw (msg : string)
| Diverge.
Arguments Ok {A} a s.
Arguments Throw {A} msg.
Arguments Diverge {A}.

Definition M (A : Type) : Type := rng -> outcome A.

Definition ret {A} (a : A) : M A := fun s => Ok a s.

Definition bind {A B} (m : M A) (f : A -> M B) : M B :=
  fun s => match m s with
           | Ok a s' => f a s'
           | Throw msg => Throw msg
           | Diverge => Diverge
           end.

Definition throw {A} (msg : string) : M A := fun _ => Throw msg.

End Rng.
Export Rng.

Declare Scope rng_scope.
Delimit Scope rng_scope with rng.
Notation "x <- m ;; k" := (bind m (fun x => k))
  (at level 61, m at next level, right associativity) : rng_scope.
Notation "' pat <- m ;; k" := (bind m (fun x => match x with pat => k end))
  (at level 61, pat pattern, m at next level, right associativity) : rng_scope.
Local Open Scope rng_scope.

(** ** Utilities: secure RNG *)

Definition uint32_range : Z := 2 ^ 32.

(** [secureRandomUint32]: one element of a fresh [Uint32Array(1)] filled by
    the source. *)
Definition secureRandomUint32 : M Z :=
  fun s => Ok (stream s (pos s) mod uint32_range)
              (mkRng (stream s) (S (pos s)) (patience s) (choices s)).

Definition record_choice (n : Z) : M unit :=
  fun s => Ok tt (mkRng (stream s) (pos s) (patience s) (choices s ++ [n])).

Definition maxUint : Z := 0xFFFFFFFF.

(** JS [%] is the truncated remainder. *)
Definition js_rem (a b : Z) : Z := Z.rem a b.

Definition threshold_of (maxExclusive : Z) : Z :=
  maxUint - js_rem maxUint maxExclusive.

(** The [while (true)] loop of [secureRandomInt]. *)
Fixpoint rejection_loop (fuel : nat) (threshold maxExclusive : Z) : M Z :=
  match fuel with
  | O => fun _ => Diverge
  | S fuel' =>
      r <- secureRandomUint32 ;;
      if r <? threshold
      then _ <- record_choice maxExclusive ;; ret (js_rem r maxExclusive)
      else rejection_loop fuel' threshold maxExclusive
  end.

Definition secureRandomInt (maxExclusive : Z) : M Z :=
  if maxExclusive <=? 0 then throw "maxExclusive must be > 0"
  else
    let threshold := threshold_of maxExclusive in
    fun s => rejection_loop (patience s) threshold maxExclusive s.

(** [arr[i]]; [undefined] stands for the value of an out-of-range read. *)
Definition js_index {A} (undefined : A) (arr : list A) (i : Z) : A :=
  if i <? 0 then undefined else nth (Z.to_nat i) arr undefined.

Definition js_length {A} (arr : list A) : Z := Z.of_nat (List.length arr).

Definition secureChoice {A} (undefined : A) (arr : list A) : M A :=
  i <- secureRandomInt (js_length arr) ;;
  ret (js_index undefined arr i).

(** ** Word list loader *)

(** What [fetch('assets/wordlist.json')] followed by [resp.json()] can
    produce: a rejected promise, a response that is not [ok], a body that
    does not parse, or a parsed value.  A parsed array is modelled with its
    entries as strings; every other JSON value is [JsonOther]. *)
Inductive json_value : Type :=
| JsonArray (items : list string)
| JsonOther.

Inductive fetch_result : Type :=
| FetchRejected
| ResponseNotOk
| BodyUnparsable
| Body (v : json_value).

(** The array literal of the [catch] branch. *)
Definition fallback_wordlist : list string :=
  ["apple"; "anchor"; "amber"; "atlas"; "axiom"; "beacon"; "breeze"; "brisk";
   "cobalt"; "copper"; "crimson"; "crest"; "dawn"; "delta"; "ember"; "echo";
   "forge"; "fable"; "garnet"; "glade"; "hollow"; "harbor"; "iris"; "ivory";
   "jolt"; "jade"; "keystone"; "kismet"; "lumen"; "lunar"; "mosaic";
   "matrix"; "nebula"; "native"; "opal"; "oracle"; "pinnacle"; "pioneer";
   "quartz"; "quiet"; "rift"; "ranger"; "sable"; "solar"; "spruce"; "titan";
   "tracer"; "umbra"; "union"; "vapor"; "valiant"; "woven"; "whistle";
   "xenon"; "yearn"; "yonder"; "zephyr"; "zenith"; "azure"; "crest";
   "marble"; "canyon"; "willow"; "orchid"; "violet"; "sage"; "cinder";
   "flint"; "cobalt"; "saffron"; "harvest"; "meadow"; "glimmer"; "fusion";
   "harbor"; "legend"; "mongoose"; "poppy"; "copper"; "thrive"; "riddle";
   "cobalt"; "raven"; "dune"; "copper"; "stride"; "haven"; "ember"; "basil";
   "cascade"; "dapper"; "evolve"; "frank"; "grove"; "haven"; "ignite";
   "juno"; "latch"; "mirth"; "nimbus"; "opal"; "prism"; "quest"; "ripple";
   "sable"; "terra"; "uplift"; "verve"; "wisp"; "yarrow"; "zeal"; "arcade";
   "bravo"; "caper"; "drift"; "elixir"; "flute"; "gale"; "halt"; "ion";
   "jewel"; "knack"; "lodge"; "muse"; "noir"; "opal"; "paragon"; "quietus";
   "resin"; "sprout"; "tango"; "undertow"; "vivid"; "wax"; "yacht"; "zest";
   "bloom"; "citrine"; "dock"; "ember"; "flare"; "grotto"; "harbor"; "isle";
   "jolt"; "kale"; "lagoon"; "mantle"; "niche"; "oath"; "pixel"; "quill";
   "rover"; "solace"; "thimble"; "umbel"; "vigil"; "waltz"; "xerox"; "yodel";
   "zeppelin"; "apex"; "brook"; "crest"; "delta"; "eon"; "forge"; "glisten";
   "hush"; "iris"; "jade"; "koi"; "lore"; "maze"; "nest"; "olive"; "peak";
   "quip"; "rush"; "sprig"; "thaw"; "ultra"; "vortex"; "wane"; "yearn"; "zen"]%string.

(** [loadWordlist]: the value left in [WORDLIST]. *)
Definition loadWordlist (r : fetch_result) : list string :=
  match r with
  | Body (JsonArray arr) =>
      if 10 <=? js_length arr then arr else fallback_wordlist
  | Body JsonOther => fallback_wordlist
  | FetchRejected | ResponseNotOk | BodyUnparsable => fallback_wordlist
  end.

(** ** Leet map and symbol set *)

Definition LEET_MAP : list (ascii * list ascii) :=
  [ ("a", ["4"; "@"]);
    ("b", ["8"]);
    ("e", ["3"]);
    ("g", ["9"]);
    ("i", ["1"; "!"]);
    ("l", ["1"; "|"]);
    ("o", ["0"]);
    ("s", ["5"; "$"]);
    ("t", ["7"]);
    ("z", ["2"]) ]%char.

(** [LEET_MAP[low]]: [None] is [undefined]. *)
Definition leet_lookup (low : ascii) : option (list ascii) :=
  option_map snd (find (fun p => Ascii.eqb (fst p) low) LEET_MAP).

Definition SYMBOLS : list ascii :=
  [ "!"; "@"; "#"; "$"; "%"; "^"; "&"; "*"; "("; ")"; "-"; "_"; "="; "+";
    "["; "]"; "{"; "}"; ";"; ":"; ","; "."; "/"; "?"; "<"; ">"; "~" ]%char.

(** ** Characters and strings *)

Definition charCode (ch : ascii) : Z := Z.of_N (N_of_ascii ch).

(** Characters are 8-bit here; every code the engine passes is below 128. *)
Definition fromCharCode (c : Z) : ascii := ascii_of_N (Z.to_N (c mod 256)).

(** [/[a-zA-Z]/.test(ch)] *)
Definition is_letter (ch : ascii) : bool :=
  let c := charCode ch in
  ((65 <=? c) && (c <=? 90)) || ((97 <=? c) && (c <=? 122)).

(** [ch.toUpperCase()] and [ch.toLowerCase()] as the stages use them:
    [randomizeCapitalization] applies them to characters matching
    [/[a-zA-Z]/] only, and [applyLeet] reads the lower-cased character only
    as a key of [LEET_MAP], whose keys are ASCII letters. *)
Definition toUpperCase (ch : ascii) : ascii :=
  let c := charCode ch in
  if (97 <=? c) && (c <=? 122) then fromCharCode (c - 32) else ch.

Definition toLowerCase (ch : ascii) : ascii :=
  let c := charCode ch in
  if (65 <=? c) && (c <=? 90) then fromCharCode (c + 32) else ch.

(** [String.prototype.toLowerCase] on an arbitrary 8-bit character, as the
    personal hint needs it: besides [A-Z], the Latin-1 capitals U+00C0 to
    U+00DE have a lower-case form 32 above, except the multiplication sign
    U+00D7; no other character below U+0100 changes. *)
Definition toLowerCase_latin1 (ch : ascii) : ascii :=
  let c := charCode ch in
  if ((65 <=? c) && (c <=? 90))
     || ((192 <=? c) && (c <=? 222) && negb (c =? 215))
  then fromCharCode (c + 32) else ch.

Fixpoint string_map (f : ascii -> ascii) (s : string) : string :=
  match s with
  | EmptyString => EmptyString
  | String ch rest => String (f ch) (string_map f rest)
  end.

(** A character matched by [\s]: among the characters below U+0100 these
    are TAB, LF, VT, FF, CR, SPACE and NO-BREAK SPACE (U+00A0). *)
Definition is_space (ch : ascii) : bool :=
  let c := charCode ch in
  ((9 <=? c) && (c <=? 13)) || (c =? 32) || (c =? 160).

(** [s.replace(/\s+/g, '')] *)
Fixpoint strip_spaces (s : string) : string :=
  match s with
  | EmptyString => EmptyString
  | String ch rest =>
      if is_space ch then strip_spaces rest else String ch (strip_spaces rest)
  end.

Definition str_length (s : string) : Z := Z.of_nat (String.length s).

(** [out += ch] *)
Definition push_char (out : string) (ch : ascii) : string :=
  (out ++ String ch EmptyString)%string.

(** ** Math helpers for combinatorics in log2 space *)

(** [Math.log2], [Math.log10] and [Math.pow] on finite numbers.  For
    [x <= 0] the JS logarithms are [-Infinity] or [NaN] (the real [ln] is
    [0] there); every statement below applies them to positive arguments
    only. *)
Definition Math_log2 (x : R) : R := (ln x / ln 2)%R.
Definition Math_log10 (x : R) : R := (ln x / ln 10)%R.
Definition Math_pow (b e : R) : R := Rpower b e.

(** A JS number that is either finite or the [-Infinity] which [log2_nCr]
    returns. *)
Inductive number : Type :=
| Finite (x : R)
| NegInfinity.

Definition number_add (a b : number) : number :=
  match a, b with
  | Finite x, Finite y => Finite (x + y)%R
  | _, _ => NegInfinity
  end.

(** The values [1, 2, ..., k] taken by the loop variable of
    [for (let i = 1; i <= k; i++)]. *)
Definition loop_1_to (k : Z) : list Z :=
  map (fun j => 1 + Z.of_nat j) (seq 0 (Z.to_nat k)).

Definition log2_nCr (n k : Z) : number :=
  if (k <? 0) || (n <? k) then NegInfinity
  else
    let k := Z.min k (n - k) in
    Finite (fold_left
              (fun sum i => (sum + Math_log2 (IZR (n - k + i) / IZR i))%R)
              (loop_1_to k) 0%R).

(** ** Entropy *)

Record PoolCfg : Type := mkPool {
  lower : bool;
  upper : bool;
  digits : bool;
  symbols : bool
}.

Definition charPoolSize (opts : PoolCfg) : Z :=
  let size := 0 in
  let size := if lower opts then size + 26 else size in
  let size := if upper opts then size + 26 else size in
  let size := if digits opts then size + 10 else size in
  let size := if symbols opts then size + js_length SYMBOLS else size in
  size.

Definition bitsForCharacterMode (length poolSize : Z) : R :=
  if poolSize <=? 0 then 0%R
  else (IZR length * Math_log2 (IZR poolSize))%R.

(** [transforms.insertions]: [None] is [null]. *)
Record Insertions : Type := mkInsertions {
  count : Z;
  choiceSize : Z
}.

Record Transforms : Type := mkTransforms {
  capitalisation : bool;
  lettersCount : Z;
  leet : bool;
  leetChoices : list Z;
  insertions : option Insertions;
  baseLen : Z
}.

(** Truthiness of a JS number. *)
Definition truthy (n : Z) : bool := negb (n =? 0).

Definition bitsForPassphraseModel
  (numWords wordlistSize : Z) (transforms : Transforms) : number :=
  let bits := (IZR numWords * Math_log2 (IZR wordlistSize))%R in
  let bits :=
    if capitalisation transforms && truthy (lettersCount transforms)
    then (bits + IZR (lettersCount transforms) * 1)%R
    else bits in
  let bits :=
    if leet transforms && truthy (js_length (leetChoices transforms))
    then fold_left (fun bits c => (bits + Math_log2 (IZR c))%R)
           (leetChoices transforms) bits
    else bits in
  match insertions transforms with
  | Some ins =>
      if truthy (count ins) then
        let k := count ins in
        let bits := (bits + IZR k * Math_log2 (IZR (choiceSize ins)))%R in
        let positionsLog2 := log2_nCr (baseLen transforms + k) k in
        number_add (Finite bits) positionsLog2
      else Finite bits
  | None => Finite bits
  end.

(** ** Time to crack *)

Inductive time_unit : Type := Minutes | Hours | Days | Years.

(** The label strings, kept structured.  [Numeric h u] is
    [`${x.toFixed(2)} u`] with [h] the hundredths [toFixed(2)] prints;
    [Scientific h e] is [`${mantissa.toFixed(2)}e${e} years`] behind an
    approximately-equal sign. *)
Inductive crack_label : Type :=
| LessThanOneSecond
| Numeric (hundredths : Z) (u : time_unit)
| Scientific (hundredths : Z) (exponent : Z).

(** [seconds]: [None] is [null]. *)
Record CrackTime : Type := mkCrackTime {
  label : crack_label;
  seconds : option R
}.

Definition Math_floor (x : R) : Z := Int_part x.

(** [x.toFixed(2)] for [x >= 0]: the integer [n] with [n / 100] closest to
    [x], the larger one on a tie. *)
Definition toFixed2 (x : R) : Z := Int_part (x * 100 + / 2)%R.

Definition SECS_PER_YEAR : R := 31557600%R.

Definition formatCrackTimeFromBits (bits guessesPerSec : R) : CrackTime :=
  if Rle_dec bits 0 then mkCrackTime LessThanOneSecond (Some 0%R)
  else
    let log10Guesses := (bits * Math_log10 2)%R in
    let log10Seconds := (log10Guesses - Math_log10 guessesPerSec)%R in
    if Rlt_dec log10Seconds 0
    then mkCrackTime LessThanOneSecond (Some (Math_pow 10 log10Seconds))
    else
      let log10Years := (log10Seconds - Math_log10 SECS_PER_YEAR)%R in
      if Rlt_dec log10Years 6 then
        let years := Math_pow 10 log10Years in
        if Rlt_dec years 60 then
          let days := (Math_pow 10 log10Seconds / 86400)%R in
          if Rlt_dec days 1 then
            let hours := (Math_pow 10 log10Seconds / 3600)%R in
            if Rlt_dec hours 1 then
              let minutes := (Math_pow 10 log10Seconds / 60)%R in
              mkCrackTime (Numeric (toFixed2 minutes) Minutes)
                          (Some (Math_pow 10 log10Seconds))
            else mkCrackTime (Numeric (toFixed2 hours) Hours)
                             (Some (Math_pow 10 log10Seconds))
          else mkCrackTime (Numeric (toFixed2 days) Days)
                           (Some (Math_pow 10 log10Seconds))
        else mkCrackTime (Numeric (toFixed2 years) Years)
                         (Some (Math_pow 10 log10Seconds))
      else
        let exponentYears := Math_floor log10Years in
        let mantissa := Math_pow 10 (log10Years - IZR exponentYears)%R in
        mkCrackTime (Scientific (toFixed2 mantissa) exponentYears) None.

(** ** Password generators *)

(** Stand-in for the [undefined] of an out-of-range array read. *)
Definition undefined_char : ascii := "000"%char.

(** [for (let i=0;i<n;i++) pool.push(String.fromCharCode(first+i))] *)
Definition char_run (first : Z) (n : nat) : list ascii :=
  map (fun i => fromCharCode (first + Z.of_nat i)) (seq 0 n).

Definition build_pool (poolCfg : PoolCfg) : list ascii :=
  (if lower poolCfg then char_run 97 26 else []) ++
  (if upper poolCfg then char_run 65 26 else []) ++
  (if digits poolCfg then char_run 48 10 else []) ++
  (if symbols poolCfg then SYMBOLS else []).

Module CharacterResult.
(** The object returned in character mode.  [bits] and [transforms] are
    [None] where the returned object has no such property. *)
Record t : Type := mk {
  password : string;
  bits : option R;
  transforms : option (Z * Z)
}.
End CharacterResult.

Fixpoint character_loop (n : nat) (pool : list ascii) (pwd : string)
  : M string :=
  match n with
  | O => ret pwd
  | S n' =>
      ch <- secureChoice undefined_char pool ;;
      character_loop n' pool (push_char pwd ch)
  end.

Definition generateCharacterPassword (length : Z) (poolCfg : PoolCfg)
  : M CharacterResult.t :=
  let pool := build_pool poolCfg in
  if js_length pool =? 0 then ret (CharacterResult.mk "" None None)
  else
    pwd <- character_loop (Z.to_nat length) pool "" ;;
    let bits := bitsForCharacterMode length (js_length pool) in
    let transforms := (js_length pool, length) in
    ret (CharacterResult.mk pwd (Some bits) (Some transforms)).

(** The loop of [randomizeCapitalization] over the remaining characters. *)
Fixpoint capitalization_loop (text : string) (out : string) (lettersCount : Z)
  : M (string * Z) :=
  match text with
  | EmptyString => ret (out, lettersCount)
  | String ch rest =>
      if is_letter ch then
        r <- secureRandomInt 2 ;;
        capitalization_loop rest
          (push_char out (if r =? 1 then toUpperCase ch else toLowerCase ch))
          (lettersCount + 1)
      else capitalization_loop rest (push_char out ch) lettersCount
  end.

Definition randomizeCapitalization (text : string) : M (string * Z) :=
  capitalization_loop text "" 0.

(** The loop of [applyLeet]. *)
Fixpoint leet_loop (text : string) (out : string) (choices : list Z)
  : M (string * list Z) :=
  match text with
  | EmptyString => ret (out, choices)
  | String ch rest =>
      let low := toLowerCase ch in
      match leet_lookup low with
      | Some alternatives =>
          let opts := ch :: alternatives in
          pick <- secureChoice undefined_char opts ;;
          leet_loop rest (push_char out pick) (choices ++ [js_length opts])
      | None => leet_loop rest (push_char out ch) choices
      end
  end.

Definition applyLeet (text : string) : M (string * list Z) :=
  leet_loop text "" [].

Module ExtrasResult.
Record t : Type := mk {
  text : string;
  count : Z;
  choiceSize : Z;
  baseLen : Z
}.
End ExtrasResult.

(** [Math.ceil(a / b)] for integers [a] and [b > 0]. *)
Definition ceil_div (a b : Z) : Z := - ((- a) / b).

(** First loop of [insertExtras]: the values to insert. *)
Fixpoint pick_inserts (n : nat) (opts : PoolCfg) (inserts : list ascii)
  : M (list ascii) :=
  match n with
  | O => ret inserts
  | S n' =>
      pickType <- (if symbols opts && digits opts then secureRandomInt 2
                   else ret (if symbols opts then 1 else 0)) ;;
      v <- (if pickType =? 1 then secureChoice undefined_char SYMBOLS
            else d <- secureRandomInt 10 ;; ret (fromCharCode (48 + d))) ;;
      pick_inserts n' opts (inserts ++ [v])
  end.

(** [arr.splice(pos, 0, x)] *)
Definition splice {A} (arr : list A) (pos : Z) (x : A) : list A :=
  firstn (Z.to_nat pos) arr ++ x :: skipn (Z.to_nat pos) arr.

(** Second loop of [insertExtras]: a fresh position for each value. *)
Fixpoint place_inserts (inserts : list ascii) (arr : list ascii)
  : M (list ascii) :=
  match inserts with
  | [] => ret arr
  | x :: rest =>
      pos <- secureRandomInt (js_length arr + 1) ;;
      place_inserts rest (splice arr pos x)
  end.

Definition maxInsert_of (baseLen : Z) : Z :=
  Z.min 4 (Z.max 1 (ceil_div baseLen 6)).

(** [insertExtras(text, opts)]; of [opts] only [digits] and [symbols] are
    read. *)
Definition insertExtras (text : string) (opts : PoolCfg)
  : M ExtrasResult.t :=
  let baseLen := str_length text in
  let maxInsert := maxInsert_of baseLen in
  r <- secureRandomInt maxInsert ;;
  let count := 1 + r in
  inserts <- pick_inserts (Z.to_nat count) opts [] ;;
  arr <- place_inserts inserts (list_ascii_of_string text) ;;
  let final := string_of_list_ascii arr in
  let choiceSize :=
    if symbols opts && digits opts then js_length SYMBOLS + 10
    else if symbols opts then js_length SYMBOLS else 10 in
  ret (ExtrasResult.mk final (js_length inserts) choiceSize baseLen).

Record PassphraseOpts : Type := mkOpts {
  numWords : Z;
  separator : string;
  personal : string;
  enableCap : bool;
  enableLeet : bool;
  enableInsertExtras : bool
}.

Module PassphraseResult.
Record t : Type := mk {
  password : string;
  bits : number;
  transforms : Transforms;
  words : list string
}.
End PassphraseResult.

(** [opts.personal && opts.personal.length > 1] *)
Definition hint_usable (personal : string) : bool :=
  negb (String.eqb personal "") && (1 <? str_length personal).

(** [opts.personal.replace(/\s+/g, '').slice(0, 12)], then
    [p.toLowerCase()]. *)
Definition hint_word (personal : string) : string :=
  string_map toLowerCase_latin1 (substring 0 12 (strip_spaces personal)).

(** Stand-in for the [undefined] of an out-of-range read of the word list. *)
Definition undefined_word : string := "undefined".

(** The word-selection loop of [generatePassphrase]. *)
Fixpoint choose_words (n : nat) (personal : string) (wl : list string)
  (wordChoices : list string) : M (list string) :=
  match n with
  | O => ret wordChoices
  | S n' =>
      useHint <- (if hint_usable personal
                  then r <- secureRandomInt 5 ;; ret (r =? 0)
                  else ret false) ;;
      w <- (if useHint : bool then ret (hint_word personal)
            else secureChoice undefined_word wl) ;;
      choose_words n' personal wl (wordChoices ++ [w])
  end.

(** [generatePassphrase(opts)], with the global [WORDLIST] as [wl]. *)
Definition generatePassphrase (wl : list string) (opts : PassphraseOpts)
  : M PassphraseResult.t :=
  let W := js_length wl in
  wordChoices <- choose_words (Z.to_nat (numWords opts)) (personal opts) wl [] ;;
  let password := String.concat (separator opts) wordChoices in
  let transforms :=
    mkTransforms false 0 false [] None (str_length password) in
  '(password, transforms) <-
    (if enableCap opts then
       '(text, lettersCount) <- randomizeCapitalization password ;;
       ret (text, mkTransforms true lettersCount (leet transforms)
                    (leetChoices transforms) (insertions transforms)
                    (baseLen transforms))
     else ret (password, transforms)) ;;
  '(password, transforms) <-
    (if enableLeet opts then
       '(text, choices) <- applyLeet password ;;
       ret (text, mkTransforms (capitalisation transforms)
                    (lettersCount transforms) true choices
                    (insertions transforms) (baseLen transforms))
     else ret (password, transforms)) ;;
  '(password, transforms) <-
    (if enableInsertExtras opts then
       res <- insertExtras password (mkPool false false true true) ;;
       ret (ExtrasResult.text res,
            mkTransforms (capitalisation transforms)
              (lettersCount transforms) (leet transforms)
              (leetChoices transforms)
              (Some (mkInsertions (ExtrasResult.count res)
                                  (ExtrasResult.choiceSize res)))
              (ExtrasResult.baseLen res))
     else ret (password, transforms)) ;;
  let bits := bitsForPassphraseModel (numWords opts) W transforms in
  ret (PassphraseResult.mk password bits transforms wordChoices).

(** What [postGenerationDisplay] does with [result.bits]: [bits.toFixed(2)]
    for the text of [postBitsEl]; reading [toFixed] of [undefined] is a
    [TypeError]. *)
Definition postGenerationDisplay_bits (result : CharacterResult.t)
  : M Z :=
  match CharacterResult.bits result with
  | Some bits => ret (toFixed2 bits)
  | None => throw "TypeError: Cannot read properties of undefined"
  end.

(** ** UI: estimate and history *)

(** What [getOptionsFromUI] returns, by mode.  [numWords] and [length] are
    taken to be integers. *)
Inductive UIOptions : Type :=
| CharacterOptions (length : Z) (pool : PoolCfg) (guessRate : R)
| PassphraseOptions (opts : PassphraseOpts) (guessRate : R).

(** [formatCrackTimeFromBits] on a bit count that may be [-Infinity]
    ([-Infinity <= 0] holds, so the first [return] is taken). *)
Definition formatCrackTimeFromNumber (bits : number) (guessesPerSec : R)
  : CrackTime :=
  match bits with
  | Finite b => formatCrackTimeFromBits b guessesPerSec
  | NegInfinity => mkCrackTime LessThanOneSecond (Some 0%R)
  end.

(** What [preGenerationEstimate] shows: the bit count of [preBitsEl] and the
    label of [preCrackEl]. *)
Record Estimate : Type := mkEstimate {
  preBits : number;
  preCrack : crack_label
}.

(** [preGenerationEstimate()], with [WORDLIST.length] as [W] and the result
    of [getOptionsFromUI()] as [opts]. *)
Definition preGenerationEstimate (W : Z) (opts : UIOptions) : Estimate :=
  match opts with
  | CharacterOptions length pool guessRate =>
      let poolSize := charPoolSize pool in
      let bits := bitsForCharacterMode length poolSize in
      let time := formatCrackTimeFromBits bits guessRate in
      mkEstimate (Finite bits) (label time)
  | PassphraseOptions opts guessRate =>
      let baseBits := (IZR (numWords opts) * Math_log2 (IZR W))%R in
      let extraBits := Finite 0%R in
      let extraBits :=
        if enableCap opts then
          let avgLetters := 5%R in
          number_add extraBits
            (Finite (avgLetters * IZR (numWords opts) * 1)%R)
        else extraBits in
      let extraBits :=
        if enableLeet opts then
          let approxAlternatives := 1.5%R in
          number_add extraBits
            (Finite (IZR (numWords opts) * 3
                     * Math_log2 approxAlternatives)%R)
        else extraBits in
      let extraBits :=
        if enableInsertExtras opts then
          let k := Z.min 3 (Z.max 1 (ceil_div (numWords opts) 2)) in
          let choiceSize := 10 + js_length SYMBOLS in
          number_add extraBits
            (number_add (Finite (IZR k * Math_log2 (IZR choiceSize))%R)
                        (log2_nCr (numWords opts * 5 + k) k))
        else extraBits in
      let bits := number_add (Finite baseBits) extraBits in
      let time := formatCrackTimeFromNumber bits guessRate in
      mkEstimate bits (label time)
  end.

(** The history update of [postGenerationDisplay]: when the list holds 6
    or more entries its last child is removed, then the new entry is
    inserted before the first child. *)
Definition history_add {A} (li : A) (historyList : list A) : list A :=
  let historyList :=
    if 6 <=? js_length historyList then removelast historyList
    else historyList in
  li :: historyList.

(** * Vocabulary of the statements *)

(** The [i]-th raw value the source delivers from state [s] on. *)
Definition raw (s : rng) (i : nat) : Z :=
  stream s (pos s + i) mod uint32_range.

(** The state [s] after [k] more raw values were consumed and the completed
    draws [tr] were logged. *)
Definition advance (s : rng) (k : nat) (tr : list Z) : rng :=
  mkRng (stream s) (pos s + k) (patience s) (choices s ++ tr).

(** State after a completed [secureRandomInt n] that consumed [k] raw
    values. *)
Definition after_draw (s : rng) (k : nat) (n : Z) : rng := advance s k [n].

(** A source on which no draw with [maxExclusive <= 2^31] ever rejects:
    every raw value still to come is below [2^31] (and the loop is allowed
    at least one iteration). *)
Definition accepting (s : rng) : Prop :=
  (0 < patience s)%nat /\ forall i, raw s i < 2 ^ 31.

(** Weakest-precondition reading of a computation run from [s]: it does not
    throw; when it returns [a], the final state is [advance s k tr] and
    [Q a k tr] holds; with [total = true] it returns. *)
Definition wp (total : bool) {A} (m : M A) (s : rng)
  (Q : A -> nat -> list Z -> Prop) : Prop :=
  match m s with
  | Ok a s' => exists k tr, s' = advance s k tr /\ Q a k tr
  | Throw _ => False
  | Diverge => total = false
  end.

(** [sum of log2(alternatives)] over a list of draw cardinalities. *)
Definition sum_log2 (tr : list Z) : R :=
  fold_right (fun n acc => (Math_log2 (IZR n) + acc)%R) 0%R tr.

Definition chars (s : string) : list ascii := list_ascii_of_string s.
Arguments chars : simpl never.

(** A source that delivers the values of [l] and then zeros. *)
Definition source_of (l : list Z) : nat -> Z := fun i => nth i l 0.

(** A fresh generator state over [source_of l]. *)
Definition fresh (l : list Z) (patience : nat) : rng :=
  mkRng (source_of l) 0 patience [].

(** A word of lowercase ASCII letters only. *)
Definition lowercase_word (w : string) : bool :=
  forallb (fun ch => (97 <=? charCode ch) && (charCode ch <=? 122)) (chars w).


(** Side condition of a run: a run that has to return ([total = true])
    starts from an accepting source. *)
Definition ready (total : bool) (s : rng) : Prop :=
  total = true -> accepting s.

(** What the capitalization stage may make of one character. *)
Definition cap_rel (ch ch' : ascii) : Prop :=
  if is_letter ch then ch' = toUpperCase ch \/ ch' = toLowerCase ch
  else ch' = ch.

Definition count_letters (text : string) : Z :=
  js_length (filter is_letter (chars text)).

(** What the leet stage may make of one character. *)
Definition leet_rel (ch ch' : ascii) : Prop :=
  match leet_lookup (toLowerCase ch) with
  | Some alternatives => In ch' (ch :: alternatives)
  | None => ch' = ch
  end.

(** Sizes of the candidate sets of the substitutable characters of a text,
    in order. *)
Definition leet_sizes (text : list ascii) : list Z :=
  flat_map (fun ch => match leet_lookup (toLowerCase ch) with
                      | Some alternatives => [js_length (ch :: alternatives)]
                      | None => []
                      end) text.

Definition is_digit_char (v : ascii) : Prop :=
  exists d, 0 <= d < 10 /\ v = fromCharCode (48 + d).

(** The cardinalities [g] of the draws behind one inserted value [v]. *)
Definition value_rel (opts : PoolCfg) (g : list Z) (v : ascii) : Prop :=
  if symbols opts && digits opts then
    (g = [2; js_length SYMBOLS] /\ In v SYMBOLS) \/
    (g = [2; 10] /\ is_digit_char v)
  else if symbols opts then g = [js_length SYMBOLS] /\ In v SYMBOLS
  else g = [10] /\ is_digit_char v.

(** The values [vals] spliced in, one after the other, at the positions
    [ps]. *)
Definition insert_all (arr : list ascii) (ps : list Z) (vals : list ascii)
  : list ascii :=
  fold_left (fun a pv => splice a (fst pv) (snd pv)) (combine ps vals) arr.

(** Cardinalities of the [k] position draws on a text of length [baseLen]:
    [baseLen + i + 1] for [i = 0 .. k-1]. *)
Definition position_domains (baseLen : Z) (k : nat) : list Z :=
  map (fun i => baseLen + Z.of_nat i + 1) (seq 0 k).

Definition choiceSize_of (opts : PoolCfg) : Z :=
  if symbols opts && digits opts then 37
  else if symbols opts then 27 else 10.

(** The integer binomial coefficient, by Pascal's rule. *)
Fixpoint binomial (n k : nat) : nat :=
  match n, k with
  | _, O => 1
  | O, S _ => 0
  | S n', S k' => binomial n' k' + binomial n' k
  end.

(** The sum [log2((m+1)/1) + ... + log2((m+k)/k)] of the multiplicative
    identity. *)
Definition log2_ratio_sum (m k : Z) : R :=
  fold_right (fun i acc => (Math_log2 (IZR (m + i) / IZR i) + acc)%R) 0%R
             (loop_1_to k).

(** The cardinalities [g] of the draws behind one chosen word [w]. *)
Definition word_rel (personal : string) (wl : list string)
  (g : list Z) (w : string) : Prop :=
  if hint_usable personal then
    (g = [5] /\ w = hint_word personal) \/
    (g = [5; js_length wl] /\ In w wl)
  else g = [js_length wl] /\ In w wl.

(** The options [generatePassphrase] passes to [insertExtras]. *)
Definition extras_opts : PoolCfg := mkPool false false true true.

(** What one run of the insertion stage on [text] did: the recorded
    sub-record, the resulting text and the cardinalities [ti] of its
    draws. *)
Definition insertion_run (opts : PoolCfg) (text : string)
  (c : Z) (final : string) (ti : list Z) : Prop :=
  let baseLen := str_length text in
  exists (groups : list (list Z)) (vals : list ascii) (ps : list Z),
    1 <= c <= maxInsert_of baseLen /\
    js_length vals = c /\ js_length ps = c /\
    Forall2 (value_rel opts) groups vals /\
    (forall i p, nth_error ps i = Some p ->
                 0 <= p < baseLen + Z.of_nat i + 1) /\
    chars final = insert_all (chars text) ps vals /\
    str_length final = baseLen + c /\
    ti = [maxInsert_of baseLen] ++ List.concat groups
         ++ position_domains baseLen (Z.to_nat c).

(** What one run of [generatePassphrase] did: [tr] lists the cardinalities
    of all its draws, in order. *)
Definition passphrase_run (wl : list string) (opts : PassphraseOpts)
  (res : PassphraseResult.t) (tr : list Z) : Prop :=
  let ws := PassphraseResult.words res in
  let joined := String.concat (separator opts) ws in
  let t := PassphraseResult.transforms res in
  exists (groups : list (list Z)) (text1 text2 : string) (ti : list Z),
    List.length ws = Z.to_nat (numWords opts) /\
    Forall2 (word_rel (personal opts) wl) groups ws /\
    (if enableCap opts
     then Forall2 cap_rel (chars joined) (chars text1)
     else text1 = joined) /\
    capitalisation t = enableCap opts /\
    lettersCount t = (if enableCap opts then count_letters joined else 0) /\
    (if enableLeet opts
     then Forall2 leet_rel (chars text1) (chars text2)
     else text2 = text1) /\
    leet t = enableLeet opts /\
    leetChoices t
    = (if enableLeet opts then leet_sizes (chars text1) else []) /\
    (if enableInsertExtras opts
     then exists c,
            insertions t = Some (mkInsertions c 37) /\
            baseLen t = str_length text2 /\
            insertion_run extras_opts text2 c
              (PassphraseResult.password res) ti
     else PassphraseResult.password res = text2 /\
          insertions t = None /\
          baseLen t = str_length joined /\ ti = []) /\
    PassphraseResult.bits res
    = bitsForPassphraseModel (numWords opts) (js_length wl) t /\
    tr = List.concat groups
         ++ (if enableCap opts
             then repeat 2 (Z.to_nat (count_letters joined)) else [])
         ++ (if enableLeet opts then leet_sizes (chars text1) else [])
         ++ ti.

(** Every word the selection loop can produce. *)
Definition candidate_word (wl : list string) (personal : string)
  (w : string) : Prop :=
  In w wl \/ w = hint_word personal.

(** What the model credits for the insertion stage:
    [k * log2(choiceSize) + log2 C(baseLen + k, k)]. *)
Definition insertion_credit (t : Transforms) : R :=
  match insertions t with
  | Some ins =>
      (IZR (count ins) * Math_log2 (IZR (choiceSize ins))
       + Math_log2 (INR (binomial (Z.to_nat (baseLen t + count ins))
                                  (Z.to_nat (count ins)))))%R
  | None => 0%R
  end.

Definition max_word_length (l : list string) : Z :=
  fold_right (fun w m => Z.max (str_length w) m) 0 l.

(** An upper bound on the length of the joined words. *)
Definition joined_bound (wl : list string) (opts : PassphraseOpts) : Z :=
  Z.max 0 (numWords opts)
  * (max_word_length (hint_word (personal opts) :: wl)
     + str_length (separator opts)).

(** The largest finite double and the smallest positive one. *)
Definition MAX_VALUE : R := IZR (2 ^ 1024 - 2 ^ 971).
Definition MIN_VALUE : R := (/ IZR (2 ^ 1074))%R.

(** A real number within the range of finite doubles. *)
Definition in_double_range (x : R) : Prop := (Rabs x <= MAX_VALUE)%R.


(** Coarseness of a label: the units in the order the source escalates
    them. *)
Definition label_rank (l : crack_label) : nat :=
  match l with
  | LessThanOneSecond => 0
  | Numeric _ Minutes => 1
  | Numeric _ Hours => 2
  | Numeric _ Days => 3
  | Numeric _ Years => 4
  | Scientific _ _ => 5
  end.

(** The text with the [i]-th letter (counted from [i0]) upper-cased when
    [coin i] holds and lower-cased otherwise. *)
Fixpoint capitalize_with (coin : nat -> bool) (i0 : nat) (text : string)
  : string :=
  match text with
  | EmptyString => EmptyString
  | String ch rest =>
      if is_letter ch
      then String (if coin i0 then toUpperCase ch else toLowerCase ch)
                  (capitalize_with coin (S i0) rest)
      else String ch (capitalize_with coin i0 rest)
  end.

(** [l1] is [l2] with some elements left out, order kept. *)
Inductive subsequence {A} : list A -> list A -> Prop :=
| subsequence_nil : subsequence [] []
| subsequence_skip x l1 l2 : subsequence l1 l2 -> subsequence l1 (x :: l2)
| subsequence_keep x l1 l2 :
    subsequence l1 l2 -> subsequence (x :: l1) (x :: l2).

(** The history after the entries [lis] were displayed in that order. *)
Definition history_after {A} (lis : list A) : list A :=
  fold_left (fun h li => history_add li h) lis [].

(** The coin the [i]-th coming raw value stands for: heads when it is
    odd. *)
Definition parity_coin (s : rng) (i : nat) : bool := raw s i mod 2 =? 1.

(** The draws [ds], each the cardinality passed to [secureRandomInt] paired
    with the value the call returned, made one after the other, take the
    source from [s] to [s']. *)
Fixpoint draws (ds : list (Z * Z)) (s s' : rng) : Prop :=
  match ds with
  | [] => s' = s
  | (n, d) :: rest =>
      exists s1, secureRandomInt n s = Ok d s1 /\ draws rest s1 s'
  end.

(** The draws [g] behind one inserted value [v]: with both classes enabled
    a coin, then a draw within the class the coin selected ([1] is symbols);
    otherwise one draw within the fixed class.  The value is the symbol or
    the digit the draw indexes. *)
Definition value_drawn (opts : PoolCfg) (g : list (Z * Z)) (v : ascii)
  : Prop :=
  if symbols opts && digits opts then
    (exists d, g = [(2, 1); (27, d)] /\
               v = js_index undefined_char SYMBOLS d) \/
    (exists d, g = [(2, 0); (10, d)] /\ v = fromCharCode (48 + d))
  else if symbols opts then
    exists d, g = [(27, d)] /\ v = js_index undefined_char SYMBOLS d
  else exists d, g = [(10, d)] /\ v = fromCharCode (48 + d).

(** The text the leet stage makes of [text] when [picks] are the values of
    its draws, in order: a substitutable character [ch] with alternatives
    [a1, ...] becomes the entry of [[ch, a1, ...]] its pick indexes. *)
Fixpoint leet_with (picks : list Z) (text : list ascii) : list ascii :=
  match text with
  | [] => []
  | ch :: rest =>
      match leet_lookup (toLowerCase ch), picks with
      | Some alternatives, pick :: picks' =>
          js_index undefined_char (ch :: alternatives) pick
          :: leet_with picks' rest
      | _, _ => ch :: leet_with picks rest
      end
  end.

(** * Properties *)

(** ** The sampler *)

Lemma raw_range (s : rng) (i : nat) : 0 <= raw s i < uint32_range.
Proof. unfold raw, uint32_range. apply Z.mod_pos_bound. lia. Qed.

Lemma js_rem_mod (a b : Z) : 0 <= a -> 0 < b -> js_rem a b = a mod b.
Proof. intros. unfold js_rem. apply Z.rem_mod_nonneg; lia. Qed.

Lemma threshold_of_eq (n : Z) :
  0 < n -> threshold_of n = maxUint - maxUint mod n.
Proof.
  intros Hn. unfold threshold_of. rewrite js_rem_mod; [reflexivity | | lia].
  unfold maxUint. lia.
Qed.

Lemma threshold_pos (n : Z) : 1 <= n <= maxUint -> 0 < threshold_of n <= maxUint.
Proof.
  intros Hn. rewrite threshold_of_eq by lia.
  pose proof (Z.mod_pos_bound maxUint n ltac:(lia)). lia.
Qed.

Lemma threshold_multiple (n : Z) : 0 < n -> threshold_of n mod n = 0.
Proof.
  intros Hn. rewrite threshold_of_eq by lia.
  rewrite Zminus_mod, Z.mod_mod, Z.sub_diag by lia. apply Z.mod_0_l. lia.
Qed.

Lemma threshold_large (n : Z) : maxUint < n -> threshold_of n = 0.
Proof.
  intros Hn. rewrite threshold_of_eq by (unfold maxUint in *; lia).
  rewrite Z.mod_small; unfold maxUint in *; lia.
Qed.

Lemma threshold_half (n : Z) : 1 <= n <= 2 ^ 31 -> 2 ^ 31 <= threshold_of n.
Proof.
  intros Hn. rewrite threshold_of_eq by lia.
  pose proof (Z.mod_pos_bound maxUint n ltac:(lia)).
  unfold maxUint in *. lia.
Qed.

Lemma rejection_loop_step (fuel : nat) (t n : Z) (s : rng) :
  rejection_loop (S fuel) t n s =
  if raw s 0 <? t then Ok (js_rem (raw s 0) n) (after_draw s 1 n)
  else rejection_loop fuel t n
         (mkRng (stream s) (S (pos s)) (patience s) (choices s)).
Proof.
  cbn [rejection_loop]. unfold bind, secureRandomUint32, raw.
  rewrite Nat.add_0_r.
  destruct (_ <? t); [|reflexivity].
  unfold record_choice, ret, after_draw, advance. cbn. now rewrite Nat.add_1_r.
Qed.

Lemma rejection_loop_accepts (fuel : nat) (t n : Z) :
  forall (j : nat) (s : rng),
    (j < fuel)%nat ->
    (forall i, (i < j)%nat -> t <= raw s i) ->
    raw s j < t ->
    rejection_loop fuel t n s = Ok (js_rem (raw s j) n) (after_draw s (S j) n).
Proof.
  induction fuel as [|fuel IH]; intros j s Hj Hrej Hacc; [lia|].
  rewrite rejection_loop_step. destruct j as [|j].
  - apply Z.ltb_lt in Hacc. now rewrite Hacc.
  - pose proof (Hrej 0%nat ltac:(lia)) as H0.
    apply Z.ltb_ge in H0. rewrite H0.
    set (s1 := mkRng _ _ _ _).
    assert (Hraw : forall i, raw s1 i = raw s (S i)).
    { intros i. unfold raw, s1. cbn. f_equal. f_equal. lia. }
    rewrite (IH j s1).
    + rewrite Hraw. unfold after_draw, advance, s1. cbn. do 2 f_equal. lia.
    + lia.
    + intros i Hi. rewrite Hraw. apply Hrej. lia.
    + now rewrite Hraw.
Qed.

Lemma rejection_loop_rejects (fuel : nat) (t n : Z) :
  forall s : rng,
    (forall i, (i < fuel)%nat -> t <= raw s i) ->
    rejection_loop fuel t n s = Diverge.
Proof.
  induction fuel as [|fuel IH]; intros s Hrej; [reflexivity|].
  rewrite rejection_loop_step.
  pose proof (Hrej 0%nat ltac:(lia)) as H0.
  apply Z.ltb_ge in H0. rewrite H0. apply IH.
  intros i Hi. specialize (Hrej (S i) ltac:(lia)).
  unfold raw in *. cbn. now replace (S (pos s + i)) with (pos s + S i)%nat by lia.
Qed.

Lemma rejection_loop_inv (fuel : nat) (t n : Z) :
  forall (s : rng) (v : Z) (s' : rng),
    rejection_loop fuel t n s = Ok v s' ->
    exists j, (j < fuel)%nat /\ (forall i, (i < j)%nat -> t <= raw s i) /\
              raw s j < t /\ v = js_rem (raw s j) n /\
              s' = after_draw s (S j) n.
Proof.
  induction fuel as [|fuel IH]; intros s v s' H; [discriminate|].
  rewrite rejection_loop_step in H.
  destruct (raw s 0 <? t) eqn:E.
  - inversion H; subst. exists 0%nat. apply Z.ltb_lt in E.
    repeat split; auto; lia.
  - apply IH in H. destruct H as (j & Hj & Hrej & Hacc & Hv & Hs).
    set (s1 := mkRng _ _ _ _) in *.
    assert (Hraw : forall i, raw s1 i = raw s (S i)).
    { intros i. unfold raw, s1. cbn. f_equal. f_equal. lia. }
    exists (S j). rewrite Hraw in *. repeat split; auto; try lia.
    + intros [|i] Hi; [now apply Z.ltb_ge in E|].
      rewrite <- Hraw. apply Hrej. lia.
    + subst s'. unfold after_draw, advance, s1. cbn. f_equal. lia.
Qed.

Lemma rejection_loop_not_throw (fuel : nat) (t n : Z) (s : rng) (msg : string) :
  rejection_loop fuel t n s <> Throw msg.
Proof.
  revert s. induction fuel as [|fuel IH]; intros s; [discriminate|].
  rewrite rejection_loop_step. destruct (_ <? _); [discriminate | apply IH].
Qed.

Lemma secureRandomInt_pos (n : Z) (s : rng) :
  0 < n ->
  secureRandomInt n s = rejection_loop (patience s) (threshold_of n) n s.
Proof.
  intros Hn. unfold secureRandomInt.
  destruct (n <=? 0) eqn:E; [apply Z.leb_le in E; lia | reflexivity].
Qed.

Lemma secureRandomInt_range (n : Z) (s : rng) (v : Z) (s' : rng) :
  secureRandomInt n s = Ok v s' -> 0 <= v < n.
Proof.
  unfold secureRandomInt. destruct (n <=? 0) eqn:E; [discriminate|].
  apply Z.leb_gt in E. intros H. apply rejection_loop_inv in H.
  destruct H as (j & _ & _ & _ & -> & _).
  rewrite js_rem_mod by (pose proof (raw_range s j); lia).
  apply Z.mod_pos_bound. lia.
Qed.

(** Accepted raw values with result [v] are exactly [v + q * n] for
    [q] in [[0, t / n)], when [t] is a multiple of [n]. *)
Lemma preimages_of_result (n t v r : Z) :
  0 < n -> 0 <= t -> t mod n = 0 -> 0 <= v < n ->
  (0 <= r < t /\ r mod n = v) <->
  (exists q, 0 <= q < t / n /\ r = q * n + v).
Proof.
  intros Hn Ht Hm Hv.
  assert (Et : t = n * (t / n)) by (apply Z.div_exact; lia).
  split.
  - intros [Hr Hrv]. exists (r / n).
    pose proof (Z.div_mod r n ltac:(lia)) as Hd.
    split; [|lia]. split; [apply Z.div_pos; lia|].
    apply Z.div_lt_upper_bound; lia.
  - intros (q & Hq & ->). split; [nia|].
    rewrite Z.add_comm, Z.mod_add by lia. apply Z.mod_small; lia.
Qed.

Lemma secureRandomInt_never_returns (n : Z) (s : rng) :
  maxUint < n -> secureRandomInt n s = Diverge.
Proof.
  intros Hn. rewrite secureRandomInt_pos by (unfold maxUint in *; lia).
  rewrite threshold_large by assumption.
  apply rejection_loop_rejects. intros i _. apply raw_range.
Qed.

(** C3, as stated, fails: for [n = 2^32] the sampler returns for no source
    at all (the threshold is [0], every raw value is redrawn); and the
    threshold is taken from [0xFFFFFFFF], not from the range size [2^32]: for
    [n = 2] the raw value [0xFFFFFFFE], below [2^32 - (2^32 mod 2)], is
    redrawn. *)
Lemma secureRandomInt_not_for_every_n :
  ~ (forall n, 1 <= n ->
       exists s v s', secureRandomInt n s = Ok v s' /\ 0 <= v < n)
  /\ (0xFFFFFFFE < uint32_range - uint32_range mod 2
      /\ secureRandomInt 2 (fresh [0xFFFFFFFE; 5] 8)
         = Ok 1 (mkRng (source_of [0xFFFFFFFE; 5]) 2 8 [2])).
Proof.
  split.
  - intros H. destruct (H (2 ^ 32) ltac:(lia)) as (s & v & s' & E & _).
    rewrite secureRandomInt_never_returns in E; [discriminate|].
    unfold maxUint. lia.
  - split; [vm_compute; reflexivity | vm_compute; reflexivity].
Qed.

(** C3 (amended): for every [1 <= n <= 0xFFFFFFFF] the threshold is
    [0xFFFFFFFF - (0xFFFFFFFF mod n)], a positive multiple of [n]; the
    sampler redraws every raw 32-bit value at or above it and returns the
    first raw value below it reduced modulo [n], a value of [[0, n)]; every
    value [v] of [[0, n)] is the result of exactly the accepted raw values
    [v + q * n], [0 <= q < threshold / n], the same number for every [v].
    For [n <= 0] the call throws; for [n > 0xFFFFFFFF] the threshold is
    [0] and the call never returns. *)
Theorem secureRandomInt_unbiased :
  (forall n, 1 <= n <= maxUint ->
     let threshold := maxUint - maxUint mod n in
     threshold_of n = threshold /\
     0 < threshold <= maxUint /\
     threshold mod n = 0 /\
     (forall s j,
        (j < patience s)%nat ->
        (forall i, (i < j)%nat -> threshold <= raw s i) ->
        raw s j < threshold ->
        secureRandomInt n s = Ok (raw s j mod n) (after_draw s (S j) n)
        /\ 0 <= raw s j mod n < n) /\
     (forall s v s',
        secureRandomInt n s = Ok v s' ->
        0 <= v < n /\
        exists j, (forall i, (i < j)%nat -> threshold <= raw s i) /\
                  raw s j < threshold /\ v = raw s j mod n /\
                  s' = after_draw s (S j) n) /\
     (forall v r, 0 <= v < n ->
        (0 <= r < threshold /\ r mod n = v) <->
        (exists q, 0 <= q < threshold / n /\ r = q * n + v)))
  /\ (forall n s, n <= 0 ->
        secureRandomInt n s = Throw "maxExclusive must be > 0")
  /\ (forall n s, maxUint < n -> secureRandomInt n s = Diverge).
Proof.
  split; [|split].
  - intros n Hn threshold.
    assert (Ht : threshold_of n = threshold) by (apply threshold_of_eq; lia).
    pose proof (threshold_pos n Hn) as Hp.
    pose proof (threshold_multiple n ltac:(lia)) as Hm.
    rewrite Ht in Hp, Hm.
    repeat split; try tauto; try lia.
    + rewrite secureRandomInt_pos, Ht by lia.
      rewrite (rejection_loop_accepts _ _ _ j) by assumption.
      rewrite js_rem_mod by (pose proof (raw_range s j); lia). reflexivity.
    + apply Z.mod_pos_bound; lia.
    + apply Z.mod_pos_bound; lia.
    + eapply secureRandomInt_range; eauto.
    + eapply secureRandomInt_range; eauto.
    + rewrite secureRandomInt_pos, Ht in H by lia.
      apply rejection_loop_inv in H.
      destruct H as (j & _ & Hrej & Hacc & Hv & Hs).
      exists j. rewrite js_rem_mod in Hv by (pose proof (raw_range s j); lia).
      auto.
    + intros (Hr & Hrv). apply (preimages_of_result n threshold v r); auto; lia.
    + apply (preimages_of_result n threshold v r); auto; lia.
    + apply (preimages_of_result n threshold v r); auto; lia.
    + apply (preimages_of_result n threshold v r); auto; lia.
  - intros n s Hn. unfold secureRandomInt.
    apply Z.leb_le in Hn. now rewrite Hn.
  - intros n s Hn. now apply secureRandomInt_never_returns.
Qed.

Lemma secureRandomInt_unbiased_witness :
  secureRandomInt 6 (fresh [4294967295; 4294967294; 10] 8)
  = Ok 4 (mkRng (source_of [4294967295; 4294967294; 10]) 3 8 [6])
  /\ secureRandomInt 0 (fresh [] 8) = Throw "maxExclusive must be > 0".
Proof.
  destruct secureRandomInt_unbiased as (Hpos & Hneg & _). split.
  - destruct (Hpos 6 ltac:(unfold maxUint; lia)) as (_ & _ & _ & Hacc & _).
    destruct (Hacc (fresh [4294967295; 4294967294; 10] 8) 2%nat) as [E _].
    + cbn. lia.
    + intros i Hi.
      destruct i as [|[|i]]; [vm_compute; discriminate .. | lia].
    + vm_compute. reflexivity.
    + exact E.
  - apply Hneg. lia.
Defined.

(** ** Reasoning rules for the monad *)

Lemma advance_0 (s : rng) : advance s 0 [] = s.
Proof.
  destruct s. unfold advance. cbn. now rewrite Nat.add_0_r, app_nil_r.
Qed.

Lemma advance_advance (s : rng) (k k' : nat) (tr tr' : list Z) :
  advance (advance s k tr) k' tr' = advance s (k + k') (tr ++ tr').
Proof.
  unfold advance. cbn. now rewrite Nat.add_assoc, app_assoc.
Qed.

Lemma raw_advance (s : rng) (k : nat) (tr : list Z) (i : nat) :
  raw (advance s k tr) i = raw s (k + i).
Proof. unfold raw, advance. cbn. now rewrite Nat.add_assoc. Qed.


Lemma accepting_advance (s : rng) (k : nat) (tr : list Z) :
  accepting s -> accepting (advance s k tr).
Proof.
  intros [Hp Hr]. split; [exact Hp|].
  intros i. rewrite raw_advance. apply Hr.
Qed.

Section Rules.
Context {A B : Type}.
Variable total : bool.

Lemma wp_ret (a : A) (s : rng) (Q : A -> nat -> list Z -> Prop) :
  Q a 0%nat [] -> wp total (ret a) s Q.
Proof.
  intros HQ. unfold wp, ret. exists 0%nat, []. now rewrite advance_0.
Qed.

Lemma wp_bind (m : M A) (f : A -> M B) (s : rng)
  (Q1 : A -> nat -> list Z -> Prop) (Q : B -> nat -> list Z -> Prop) :
  wp total m s Q1 ->
  (forall a k tr, Q1 a k tr ->
     wp total (f a) (advance s k tr)
        (fun b k' tr' => Q b (k + k')%nat (tr ++ tr'))) ->
  wp total (bind m f) s Q.
Proof.
  unfold wp, bind. intros Hm Hf.
  destruct (m s) as [a s1| |]; [|contradiction|assumption].
  destruct Hm as (k & tr & -> & HQ1). specialize (Hf a k tr HQ1).
  destruct (f a (advance s k tr)) as [b s2| |]; [|contradiction|assumption].
  destruct Hf as (k' & tr' & -> & HQ).
  exists (k + k')%nat, (tr ++ tr'). now rewrite advance_advance.
Qed.

Lemma wp_conseq (m : M A) (s : rng) (Q Q' : A -> nat -> list Z -> Prop) :
  wp total m s Q -> (forall a k tr, Q a k tr -> Q' a k tr) ->
  wp total m s Q'.
Proof.
  unfold wp. intros Hm HQ. destruct (m s) as [a s1| |]; auto.
  destruct Hm as (k & tr & E & H). eauto.
Qed.

Lemma wp_ok (m : M A) (s : rng) (Q : A -> nat -> list Z -> Prop)
  (a : A) (s' : rng) :
  wp total m s Q -> m s = Ok a s' ->
  exists k tr, s' = advance s k tr /\ Q a k tr.
Proof. unfold wp. intros H E. now rewrite E in H. Qed.

Lemma wp_no_throw (m : M A) (s : rng) (Q : A -> nat -> list Z -> Prop)
  (msg : string) :
  wp total m s Q -> m s <> Throw msg.
Proof. unfold wp. intros H E. now rewrite E in H. Qed.

End Rules.

Lemma wp_bind_assoc {A B C} (total : bool) (m : M A) (f : A -> M B)
  (g : B -> M C) (s : rng) (Q : C -> nat -> list Z -> Prop) :
  wp total (bind (bind m f) g) s Q ->
  wp total (bind m (fun a => bind (f a) g)) s Q.
Proof. unfold wp, bind. now destruct (m s). Qed.

Lemma wp_returns {A} (m : M A) (s : rng) (Q : A -> nat -> list Z -> Prop) :
  wp true m s Q ->
  exists a k tr, m s = Ok a (advance s k tr) /\ Q a k tr.
Proof.
  unfold wp. destruct (m s) as [a s1| |]; [|contradiction|discriminate].
  intros (k & tr & -> & H). eauto.
Qed.


(** Every completed draw returns a value of its range and logs its
    cardinality once. *)
Lemma wp_secureRandomInt (n : Z) (s : rng) :
  0 < n ->
  wp false (secureRandomInt n) s
     (fun v k tr => 0 <= v < n /\ tr = [n]).
Proof.
  intros Hn. unfold wp. destruct (secureRandomInt n s) as [v s'| |] eqn:E; auto.
  - pose proof (secureRandomInt_range _ _ _ _ E) as Hv.
    rewrite secureRandomInt_pos in E by lia.
    apply rejection_loop_inv in E. destruct E as (j & _ & _ & _ & _ & ->).
    exists (S j), [n]. auto.
  - rewrite secureRandomInt_pos in E by lia.
    now apply rejection_loop_not_throw in E.
Qed.

(** On an accepting source a draw consumes one raw value. *)
Lemma wp_secureRandomInt_accepting (n : Z) (s : rng) :
  1 <= n <= 2 ^ 31 -> accepting s ->
  wp true (secureRandomInt n) s
     (fun v k tr => v = raw s 0 mod n /\ 0 <= v < n /\ k = 1%nat /\ tr = [n]).
Proof.
  intros Hn [Hp Hr]. unfold wp.
  rewrite secureRandomInt_pos by lia.
  rewrite (rejection_loop_accepts _ _ _ 0%nat); try lia.
  - exists 1%nat, [n]. split; [reflexivity|].
    rewrite js_rem_mod by (pose proof (raw_range s 0); lia).
    pose proof (Z.mod_pos_bound (raw s 0) n ltac:(lia)). auto.
  - pose proof (threshold_half n Hn). specialize (Hr 0%nat). lia.
Qed.

Lemma js_index_in {A} (d : A) (arr : list A) (i : Z) :
  0 <= i < js_length arr -> In (js_index d arr i) arr.
Proof.
  unfold js_index, js_length. intros Hi.
  destruct (i <? 0) eqn:E; [apply Z.ltb_lt in E; lia|].
  apply nth_In. lia.
Qed.


Lemma wp_secureChoice_accepting {A} (d : A) (arr : list A) (s : rng) :
  1 <= js_length arr <= 2 ^ 31 -> accepting s ->
  wp true (secureChoice d arr) s
     (fun v k tr => v = js_index d arr (raw s 0 mod js_length arr) /\
                    In v arr /\ k = 1%nat /\ tr = [js_length arr]).
Proof.
  intros Hn Hs. unfold secureChoice.
  eapply wp_bind; [apply wp_secureRandomInt_accepting; assumption|].
  intros i k tr (-> & Hi & -> & ->). apply wp_ret.
  split; [reflexivity|]. split; [now apply js_index_in|]. split; reflexivity.
Qed.

(** ** Strings as character lists *)

Lemma chars_append (a b : string) : chars (a ++ b) = chars a ++ chars b.
Proof.
  unfold chars. induction a as [|c a IH]; cbn; [reflexivity | now rewrite IH].
Qed.

Lemma chars_push (out : string) (ch : ascii) :
  chars (push_char out ch) = chars out ++ [ch].
Proof. unfold push_char. now rewrite chars_append. Qed.

Lemma length_chars (s : string) : List.length (chars s) = String.length s.
Proof.
  unfold chars. induction s as [|c s IH]; cbn; [reflexivity | now rewrite IH].
Qed.

Lemma str_length_chars (s : string) : str_length s = js_length (chars s).
Proof. unfold str_length, js_length. now rewrite length_chars. Qed.

Lemma chars_of_list (l : list ascii) : chars (string_of_list_ascii l) = l.
Proof. apply list_ascii_of_string_of_list_ascii. Qed.


(** ** Real logarithms *)

Lemma ln2_pos : (0 < ln 2)%R.
Proof. rewrite <- ln_1. apply ln_increasing; lra. Qed.

Lemma ln10_pos : (0 < ln 10)%R.
Proof. rewrite <- ln_1. apply ln_increasing; lra. Qed.

Lemma Math_log2_2 : Math_log2 2 = 1%R.
Proof. unfold Math_log2. field. pose proof ln2_pos. lra. Qed.

Lemma Math_log2_1 : Math_log2 1 = 0%R.
Proof. unfold Math_log2. rewrite ln_1. field. pose proof ln2_pos. lra. Qed.

Lemma Math_log2_mult (x y : R) :
  (0 < x)%R -> (0 < y)%R ->
  Math_log2 (x * y) = (Math_log2 x + Math_log2 y)%R.
Proof.
  intros. unfold Math_log2. rewrite ln_mult by assumption.
  field. pose proof ln2_pos. lra.
Qed.



Lemma Rpower_2_log2 (x : R) : (0 < x)%R -> Rpower 2 (Math_log2 x) = x.
Proof.
  intros Hx. unfold Rpower, Math_log2.
  replace (ln x / ln 2 * ln 2)%R with (ln x)
    by (field; pose proof ln2_pos; lra).
  now apply exp_ln.
Qed.

(** Rational bounds on a logarithm from integer comparisons. *)
Lemma ln_pow_Z (a q : Z) :
  1 <= a -> 0 <= q -> ln (IZR (a ^ q)) = (IZR q * ln (IZR a))%R.
Proof.
  intros Ha Hq. rewrite <- (Z2Nat.id q) at 1 by assumption.
  rewrite <- pow_IZR, ln_pow by (apply IZR_lt; lia).
  now rewrite INR_IZR_INZ, Z2Nat.id by assumption.
Qed.

Lemma log_lower (b a p q : Z) :
  2 <= b -> 1 <= a -> 0 <= p -> 0 < q ->
  b ^ p < a ^ q ->
  (IZR p / IZR q < ln (IZR a) / ln (IZR b))%R.
Proof.
  intros Hb Ha Hp Hq H.
  assert (Hlb : (0 < ln (IZR b))%R).
  { rewrite <- ln_1. apply ln_increasing; [lra|]. apply IZR_lt. lia. }
  assert (HQ : (0 < IZR q)%R) by (apply IZR_lt; lia).
  assert (Hln : (ln (IZR (b ^ p)) < ln (IZR (a ^ q)))%R).
  { apply ln_increasing; [|now apply IZR_lt].
    apply IZR_lt. apply Z.pow_pos_nonneg; lia. }
  rewrite !ln_pow_Z in Hln by lia.
  apply (Rmult_lt_reg_r (IZR q * ln (IZR b))); [nra|].
  replace (IZR p / IZR q * (IZR q * ln (IZR b)))%R
    with (IZR p * ln (IZR b))%R by (field; lra).
  replace (ln (IZR a) / ln (IZR b) * (IZR q * ln (IZR b)))%R
    with (IZR q * ln (IZR a))%R by (field; lra).
  exact Hln.
Qed.

Lemma log_upper (b a p q : Z) :
  2 <= b -> 1 <= a -> 0 <= p -> 0 < q ->
  a ^ q < b ^ p ->
  (ln (IZR a) / ln (IZR b) < IZR p / IZR q)%R.
Proof.
  intros Hb Ha Hp Hq H.
  assert (Hlb : (0 < ln (IZR b))%R).
  { rewrite <- ln_1. apply ln_increasing; [lra|]. apply IZR_lt. lia. }
  assert (HQ : (0 < IZR q)%R) by (apply IZR_lt; lia).
  assert (Hln : (ln (IZR (a ^ q)) < ln (IZR (b ^ p)))%R).
  { apply ln_increasing; [|now apply IZR_lt].
    apply IZR_lt. apply Z.pow_pos_nonneg; lia. }
  rewrite !ln_pow_Z in Hln by lia.
  apply (Rmult_lt_reg_r (IZR q * ln (IZR b))); [nra|].
  replace (IZR p / IZR q * (IZR q * ln (IZR b)))%R
    with (IZR p * ln (IZR b))%R by (field; lra).
  replace (ln (IZR a) / ln (IZR b) * (IZR q * ln (IZR b)))%R
    with (IZR q * ln (IZR a))%R by (field; lra).
  exact Hln.
Qed.

Lemma log2_3_bounds : (1054 / 665 < Math_log2 3 < 485 / 306)%R.
Proof.
  assert (H1 : 2 ^ 1054 < 3 ^ 665) by (vm_compute; reflexivity).
  assert (H2 : 3 ^ 306 < 2 ^ 485) by (vm_compute; reflexivity).
  apply (log_lower 2 3 1054 665) in H1; try (clear; lia).
  apply (log_upper 2 3 485 306) in H2; try (clear; lia).
  unfold Math_log2. lra.
Qed.

Lemma log2_5_bounds : (65 / 28 < Math_log2 5 < 137 / 59)%R.
Proof.
  assert (H1 : 2 ^ 65 < 5 ^ 28) by (vm_compute; reflexivity).
  assert (H2 : 5 ^ 59 < 2 ^ 137) by (vm_compute; reflexivity).
  apply (log_lower 2 5 65 28) in H1; try (clear; lia).
  apply (log_upper 2 5 137 59) in H2; try (clear; lia).
  unfold Math_log2. lra.
Qed.


Lemma three_log2_200 :
  (22.925 < 3 * Math_log2 200 < 22.935)%R.
Proof.
  replace 200%R with (2 * 2 * 2 * (5 * 5))%R by lra.
  rewrite !Math_log2_mult by lra. rewrite Math_log2_2.
  pose proof log2_5_bounds. lra.
Qed.

Lemma toFixed2_spec (x : R) (h : Z) :
  (IZR h - / 2 <= x * 100 < IZR h + / 2)%R -> toFixed2 x = h.
Proof.
  intros H. unfold toFixed2. symmetry. apply Int_part_spec. lra.
Qed.

(** ** Character mode *)

Lemma build_pool_size (cfg : PoolCfg) :
  js_length (build_pool cfg) = charPoolSize cfg.
Proof. destruct cfg as [[] [] [] []]; vm_compute; reflexivity. Qed.


Lemma charPoolSize_range (cfg : PoolCfg) :
  lower cfg || upper cfg || digits cfg || symbols cfg = true ->
  10 <= charPoolSize cfg <= 89.
Proof.
  destruct cfg as [[] [] [] []]; vm_compute; intros H;
    try discriminate; split; discriminate.
Qed.


Lemma wp_character_loop_accepting (m : nat) (pool : list ascii) :
  1 <= js_length pool <= 2 ^ 31 ->
  forall (pwd : string) (s : rng),
    accepting s ->
    wp true (character_loop m pool pwd) s
       (fun r k tr =>
          chars r = chars pwd ++
                    map (fun i => js_index undefined_char pool
                                    (raw s i mod js_length pool)) (seq 0 m) /\
          k = m /\ tr = repeat (js_length pool) m).
Proof.
  intros Hn. induction m as [|m IH]; intros pwd s Hs; cbn [character_loop].
  - apply wp_ret. cbn. now rewrite app_nil_r.
  - eapply wp_bind; [apply wp_secureChoice_accepting; assumption|].
    intros ch k tr (-> & Hin & -> & ->).
    eapply wp_conseq; [apply IH; now apply accepting_advance|]. cbn beta.
    intros r k' tr' (Hr & -> & ->).
    rewrite Hr, chars_push, <- app_assoc. cbn [seq map app].
    repeat split. do 2 f_equal.
    rewrite <- seq_shift, map_map.
    apply map_ext. intros i. now rewrite raw_advance.
Qed.

Lemma generateCharacterPassword_nonempty (length : Z) (cfg : PoolCfg) :
  0 < js_length (build_pool cfg) ->
  generateCharacterPassword length cfg =
  (pwd <- character_loop (Z.to_nat length) (build_pool cfg) "" ;;
   ret (CharacterResult.mk pwd
          (Some (bitsForCharacterMode length (js_length (build_pool cfg))))
          (Some (js_length (build_pool cfg), length)))).
Proof.
  intros Hn. unfold generateCharacterPassword.
  destruct (js_length (build_pool cfg) =? 0) eqn:E; [|reflexivity].
  apply Z.eqb_eq in E. lia.
Qed.

Lemma bitsForCharacterMode_closed_form (length poolSize : Z) :
  0 < poolSize ->
  bitsForCharacterMode length poolSize
  = (IZR length * Math_log2 (IZR poolSize))%R.
Proof.
  intros Hn. unfold bitsForCharacterMode.
  destruct (poolSize <=? 0) eqn:E; [apply Z.leb_le in E; lia | reflexivity].
Qed.



Lemma accepting_fresh (l : list Z) (p : nat) :
  (0 < p)%nat -> forallb (fun r => (0 <=? r) && (r <? 2 ^ 31)) l = true ->
  accepting (fresh l p).
Proof.
  intros Hp Hl. split; [exact Hp|]. intros i.
  unfold raw, fresh, source_of. cbn [stream pos]. rewrite Nat.add_0_l.
  rewrite forallb_forall in Hl.
  destruct (nth_in_or_default i l 0) as [Hin | ->].
  - apply Hl in Hin. apply andb_prop in Hin. destruct Hin as [H0 H1].
    apply Z.leb_le in H0. apply Z.ltb_lt in H1.
    rewrite Z.mod_small; unfold uint32_range; lia.
  - vm_compute. reflexivity.
Qed.


(** C8: with no pool subset enabled the generator does not throw and
    returns the empty password, but the returned object carries no [bits]
    at all (it is [undefined], not [0]), and [postGenerationDisplay] then
    throws on [bits.toFixed]; [bitsForCharacterMode] on the same pool
    size gives the [0] the claim expects. *)
Theorem generateCharacterPassword_empty_pool_no_bits :
  forall (length : Z) (s : rng),
    let nopool := mkPool false false false false in
    generateCharacterPassword length nopool s
    = Ok (CharacterResult.mk "" None None) s
    /\ (res <- generateCharacterPassword length nopool ;;
        postGenerationDisplay_bits res) s
       = Throw "TypeError: Cannot read properties of undefined"
    /\ bitsForCharacterMode length (charPoolSize nopool) = 0%R.
Proof.
  intros length s nopool. repeat split.
Qed.

(** ** Word list *)




(** C9: when retrieval fails the engine does fall back to the embedded
    list, and that list is lowercase, but it holds 186 entries, not the 200
    its comment announces, and only 166 distinct words: ["crest"] is both
    entry 11 and entry 59. *)
Theorem fallback_wordlist_186_with_duplicates :
  loadWordlist FetchRejected = fallback_wordlist
  /\ loadWordlist ResponseNotOk = fallback_wordlist
  /\ loadWordlist (Body (JsonArray ["a"; "b"; "c"]%string)) = fallback_wordlist
  /\ js_length fallback_wordlist = 186
  /\ forallb lowercase_word fallback_wordlist = true
  /\ List.length (nodup string_dec fallback_wordlist) = 166%nat
  /\ nth 11 fallback_wordlist ""%string = "crest"%string
  /\ nth 59 fallback_wordlist ""%string = "crest"%string
  /\ ~ NoDup fallback_wordlist.
Proof.
  repeat split; try (vm_compute; reflexivity).
  intros H. apply (nodup_fixed_point string_dec) in H.
  apply (f_equal (@List.length string)) in H.
  vm_compute in H. discriminate.
Qed.

(** ** The transformation stages *)

Lemma ready_advance (total : bool) (s : rng) (k : nat) (tr : list Z) :
  ready total s -> ready total (advance s k tr).
Proof. intros H Ht. apply accepting_advance. now apply H. Qed.

(** One draw, in both readings. *)
Lemma wp_draw (total : bool) (n : Z) (s : rng) :
  1 <= n -> (total = true -> n <= 2 ^ 31) -> ready total s ->
  wp total (secureRandomInt n) s
     (fun v k tr => 0 <= v < n /\ tr = [n] /\
                    (total = true -> k = 1%nat /\ v = raw s 0 mod n)).
Proof.
  intros Hn Hb Hs. destruct total.
  - eapply wp_conseq;
      [apply wp_secureRandomInt_accepting;
       [specialize (Hb eq_refl); lia | now apply Hs]|].
    cbn beta. intros v k tr (-> & Hv & -> & ->). auto.
  - eapply wp_conseq; [apply wp_secureRandomInt; lia|].
    cbn beta. intros v k tr (Hv & ->). repeat split; try lia; discriminate.
Qed.

Lemma wp_choice (total : bool) {A} (d : A) (arr : list A) (s : rng) :
  1 <= js_length arr -> (total = true -> js_length arr <= 2 ^ 31) ->
  ready total s ->
  wp total (secureChoice d arr) s
     (fun v k tr => In v arr /\ tr = [js_length arr] /\
                    (total = true ->
                     k = 1%nat /\
                     v = js_index d arr (raw s 0 mod js_length arr))).
Proof.
  intros Hn Hb Hs. unfold secureChoice.
  eapply wp_bind; [apply wp_draw; assumption|].
  intros i k tr (Hi & -> & Hk). apply wp_ret.
  split; [now apply js_index_in|]. split; [reflexivity|].
  intros Ht. destruct (Hk Ht) as [-> ->]. auto.
Qed.

Lemma count_letters_String (ch : ascii) (rest : string) :
  count_letters (String ch rest)
  = (if is_letter ch then 1 else 0) + count_letters rest.
Proof.
  unfold count_letters, js_length, chars. cbn [list_ascii_of_string filter].
  destruct (is_letter ch); cbn [List.length]; lia.
Qed.

Lemma count_letters_nonneg (text : string) : 0 <= count_letters text.
Proof. unfold count_letters, js_length. lia. Qed.

Lemma wp_capitalization_loop (total : bool) (text : string) :
  forall (out : string) (lettersCount : Z) (s : rng),
    ready total s ->
    wp total (capitalization_loop text out lettersCount) s
       (fun r k tr =>
          exists out',
            chars (fst r) = chars out ++ out' /\
            Forall2 cap_rel (chars text) out' /\
            snd r = lettersCount + count_letters text /\
            tr = repeat 2 (Z.to_nat (count_letters text))).
Proof.
  induction text as [|ch rest IH]; intros out lc s Hs;
    cbn [capitalization_loop].
  - apply wp_ret. exists [].
    change (chars "") with (@nil ascii). change (count_letters "") with 0.
    cbn. rewrite app_nil_r, Z.add_0_r. repeat split; auto.
  - rewrite count_letters_String.
    pose proof (count_letters_nonneg rest) as Hnn.
    destruct (is_letter ch) eqn:El.
    + eapply wp_bind; [apply wp_draw; [lia | intros; lia | assumption]|].
      intros r k tr (Hr & -> & _).
      eapply wp_conseq; [apply IH; now apply ready_advance|]. cbn beta.
      intros [r' n'] k' tr' (out' & Ho & Hall & Hn & ->). cbn [fst snd] in *.
      set (ch' := if r =? 1 then toUpperCase ch else toLowerCase ch) in *.
      exists (ch' :: out'). rewrite Ho, chars_push, <- app_assoc.
      repeat split; cbn [app]; auto.
      * constructor; [|assumption]. unfold cap_rel. rewrite El.
        subst ch'. destruct (r =? 1); auto.
      * lia.
      * replace (Z.to_nat (1 + count_letters rest))
          with (S (Z.to_nat (count_letters rest))) by lia.
        reflexivity.
    + eapply wp_conseq; [apply IH; assumption|]. cbn beta.
      intros [r' n'] k' tr' (out' & Ho & Hall & Hn & ->). cbn [fst snd] in *.
      exists (ch :: out'). rewrite Ho, chars_push, <- app_assoc.
      repeat split; cbn [app]; auto.
      constructor; [|assumption]. unfold cap_rel. now rewrite El.
Qed.

Lemma wp_randomizeCapitalization (total : bool) (text : string) (s : rng) :
  ready total s ->
  wp total (randomizeCapitalization text) s
     (fun r k tr =>
        Forall2 cap_rel (chars text) (chars (fst r)) /\
        snd r = count_letters text /\
        tr = repeat 2 (Z.to_nat (count_letters text))).
Proof.
  intros Hs. unfold randomizeCapitalization.
  eapply wp_conseq; [apply wp_capitalization_loop; assumption|]. cbn beta.
  intros r k tr (out' & Ho & Hall & Hn & ->).
  change (chars "") with (@nil ascii) in Ho. cbn [app] in Ho.
  rewrite Ho. repeat split; auto.
Qed.

Lemma leet_lookup_sizes (low : ascii) (alternatives : list ascii) :
  leet_lookup low = Some alternatives ->
  1 <= js_length alternatives <= 2.
Proof.
  unfold leet_lookup, LEET_MAP. cbn [find fst snd].
  repeat (match goal with
          | |- context [Ascii.eqb ?a ?b] => destruct (Ascii.eqb a b)
          end;
          [cbn; intros [= <-]; vm_compute; split; discriminate|]).
  discriminate.
Qed.

Lemma wp_leet_loop (total : bool) (text : string) :
  forall (out : string) (choices0 : list Z) (s : rng),
    ready total s ->
    wp total (leet_loop text out choices0) s
       (fun r k tr =>
          exists out',
            chars (fst r) = chars out ++ out' /\
            Forall2 leet_rel (chars text) out' /\
            snd r = choices0 ++ leet_sizes (chars text) /\
            tr = leet_sizes (chars text)).
Proof.
  induction text as [|ch rest IH]; intros out cs s Hs; cbn [leet_loop].
  - apply wp_ret. exists []. change (chars "") with (@nil ascii).
    cbn. rewrite !app_nil_r. repeat split; auto.
  - change (chars (String ch rest)) with (ch :: chars rest).
    unfold leet_sizes. cbn [flat_map]. fold (leet_sizes (chars rest)).
    destruct (leet_lookup (toLowerCase ch)) as [alts|] eqn:El.
    + pose proof (leet_lookup_sizes _ _ El) as Halts.
      assert (Hopts : js_length (ch :: alts) = 1 + js_length alts)
        by (unfold js_length; cbn [List.length]; lia).
      eapply wp_bind; [apply wp_choice; [lia | intros; lia | assumption]|].
      intros pick k tr (Hin & -> & _).
      eapply wp_conseq; [apply IH; now apply ready_advance|]. cbn beta.
      intros [r' c'] k' tr' (out' & Ho & Hall & Hc & ->). cbn [fst snd] in *.
      exists (pick :: out'). rewrite Ho, chars_push, <- app_assoc.
      repeat split; cbn [app]; auto.
      * constructor; [|assumption]. unfold leet_rel. now rewrite El.
      * rewrite Hc, <- app_assoc. reflexivity.
    + eapply wp_conseq; [apply IH; assumption|]. cbn beta.
      intros [r' c'] k' tr' (out' & Ho & Hall & Hc & ->). cbn [fst snd] in *.
      exists (ch :: out'). rewrite Ho, chars_push, <- app_assoc.
      repeat split; cbn [app]; auto.
      constructor; [|assumption]. unfold leet_rel. now rewrite El.
Qed.

Lemma wp_applyLeet (total : bool) (text : string) (s : rng) :
  ready total s ->
  wp total (applyLeet text) s
     (fun r k tr =>
        Forall2 leet_rel (chars text) (chars (fst r)) /\
        snd r = leet_sizes (chars text) /\
        tr = leet_sizes (chars text)).
Proof.
  intros Hs. unfold applyLeet.
  eapply wp_conseq; [apply wp_leet_loop; assumption|]. cbn beta.
  intros r k tr (out' & Ho & Hall & Hn & ->).
  change (chars "") with (@nil ascii) in Ho. cbn [app] in Ho.
  rewrite Ho. repeat split; auto.
Qed.

Lemma SYMBOLS_length : js_length SYMBOLS = 27.
Proof. reflexivity. Qed.

Lemma maxInsert_range (baseLen : Z) : 1 <= maxInsert_of baseLen <= 4.
Proof. unfold maxInsert_of. lia. Qed.

Lemma ceil_div_spec (a : Z) :
  6 * (ceil_div a 6 - 1) < a <= 6 * ceil_div a 6.
Proof.
  unfold ceil_div.
  pose proof (Z.div_mod (- a) 6 ltac:(lia)).
  pose proof (Z.mod_pos_bound (- a) 6 ltac:(lia)). lia.
Qed.

Lemma splice_length {A} (arr : list A) (pos : Z) (x : A) :
  js_length (splice arr pos x) = js_length arr + 1.
Proof.
  unfold splice, js_length. rewrite length_app. cbn [List.length].
  rewrite <- (firstn_skipn (Z.to_nat pos) arr) at 3. rewrite length_app. lia.
Qed.

Lemma position_domains_S (baseLen : Z) (k : nat) :
  position_domains baseLen (S k)
  = (baseLen + 1) :: position_domains (baseLen + 1) k.
Proof.
  unfold position_domains. cbn [seq map]. f_equal; [lia|].
  rewrite <- seq_shift, map_map. apply map_ext. intros i. lia.
Qed.

Lemma wp_pick_inserts (total : bool) (opts : PoolCfg) (n : nat) :
  forall (inserts : list ascii) (s : rng),
    ready total s ->
    wp total (pick_inserts n opts inserts) s
       (fun r k tr =>
          exists groups vals,
            r = inserts ++ vals /\ List.length vals = n /\
            Forall2 (value_rel opts) groups vals /\ tr = List.concat groups).
Proof.
  induction n as [|n IH]; intros ins s Hs; cbn [pick_inserts].
  - apply wp_ret. exists [], []. now rewrite app_nil_r.
  - assert (Hstep : wp total
      (pickType <- (if symbols opts && digits opts then secureRandomInt 2
                    else ret (if symbols opts then 1 else 0)) ;;
       (if pickType =? 1 then secureChoice undefined_char SYMBOLS
        else d <- secureRandomInt 10 ;; ret (fromCharCode (48 + d)))) s
      (fun v k tr => value_rel opts tr v)).
    { unfold value_rel. rewrite SYMBOLS_length.
      destruct (symbols opts && digits opts) eqn:Eb.
      - eapply wp_bind; [apply wp_draw; [lia | intros; lia | assumption]|].
        intros pickType k tr (Hp & -> & _).
        destruct (pickType =? 1).
        + eapply wp_conseq;
            [apply wp_choice;
             [rewrite SYMBOLS_length; lia
             | intros; rewrite SYMBOLS_length; lia
             | now apply ready_advance]|].
          cbn beta. intros v k' tr' (Hin & -> & _).
          rewrite SYMBOLS_length. left. auto.
        + eapply wp_bind;
            [apply wp_draw; [lia | intros; lia | now apply ready_advance]|].
          intros d k' tr' (Hd & -> & _). apply wp_ret.
          right. split; [reflexivity|]. exists d. auto.
      - eapply wp_bind
          with (Q1 := fun a k tr => a = (if symbols opts then 1 else 0) /\
                                    k = 0%nat /\ tr = []);
          [apply wp_ret; auto|].
        intros pickType k tr (-> & -> & ->). rewrite advance_0.
        destruct (symbols opts); cbn [Z.eqb Pos.eqb].
        + eapply wp_conseq;
            [apply wp_choice;
             [rewrite SYMBOLS_length; lia
             | intros; rewrite SYMBOLS_length; lia
             | assumption]|].
          cbn beta. intros v k' tr' (Hin & -> & _).
          rewrite SYMBOLS_length. auto.
        + eapply wp_bind; [apply wp_draw; [lia | intros; lia | assumption]|].
          intros d k' tr' (Hd & -> & _). apply wp_ret.
          split; [reflexivity|]. exists d. auto. }
    apply wp_bind_assoc.
    eapply wp_bind; [exact Hstep|]. cbn beta.
    intros v k tr Hv.
    eapply wp_conseq; [apply IH; now apply ready_advance|]. cbn beta.
    intros r k' tr' (groups & vals & -> & Hl & Hall & ->).
    exists (tr :: groups), (v :: vals). rewrite <- app_assoc.
    repeat split; cbn; auto.
Qed.

Lemma wp_place_inserts (total : bool) (inserts : list ascii) :
  forall (arr : list ascii) (s : rng),
    ready total s ->
    (total = true -> js_length arr + js_length inserts <= 2 ^ 31) ->
    wp total (place_inserts inserts arr) s
       (fun r k tr =>
          exists ps,
            List.length ps = List.length inserts /\
            r = insert_all arr ps inserts /\
            (forall i p, nth_error ps i = Some p ->
                         0 <= p < js_length arr + Z.of_nat i + 1) /\
            js_length r = js_length arr + js_length inserts /\
            tr = position_domains (js_length arr) (List.length inserts)).
Proof.
  induction inserts as [|x rest IH]; intros arr s Hs Hb; cbn [place_inserts].
  - apply wp_ret. exists []. unfold js_length. cbn.
    repeat split; try lia; destruct i; discriminate.
  - assert (Hlen : js_length (x :: rest) = 1 + js_length rest)
      by (unfold js_length; cbn [List.length]; lia).
    assert (Hnn : 0 <= js_length arr /\ 0 <= js_length rest)
      by (unfold js_length; lia).
    eapply wp_bind;
      [apply wp_draw; [lia | intros Ht; specialize (Hb Ht); lia | assumption]|].
    intros pos k tr (Hpos & -> & _).
    eapply wp_conseq;
      [apply IH;
       [now apply ready_advance
       | intros Ht; specialize (Hb Ht); rewrite splice_length; lia]|].
    cbn beta. rewrite splice_length.
    intros r k' tr' (ps & Hl & -> & Hps & Hr & ->).
    exists (pos :: ps). cbn [List.length]. rewrite position_domains_S.
    split; [lia|]. split; [reflexivity|]. split; [|split; [lia|reflexivity]].
    intros [|i] p; cbn [nth_error].
    + intros [= <-]. lia.
    + intros Hp. apply Hps in Hp. lia.
Qed.

Lemma choiceSize_of_eq (opts : PoolCfg) :
  (if symbols opts && digits opts then js_length SYMBOLS + 10
   else if symbols opts then js_length SYMBOLS else 10)
  = choiceSize_of opts.
Proof. unfold choiceSize_of. now destruct (symbols opts), (digits opts). Qed.

(** Everything [insertExtras] does, in both readings. *)
Lemma wp_insertExtras (total : bool) (text : string) (opts : PoolCfg)
  (s : rng) :
  ready total s ->
  (total = true -> str_length text + 4 <= 2 ^ 31) ->
  wp total (insertExtras text opts) s
     (fun res k tr =>
        let baseLen := str_length text in
        let maxInsert := maxInsert_of baseLen in
        exists (c : Z) (groups : list (list Z)) (vals : list ascii)
               (ps : list Z),
          1 <= c <= maxInsert /\
          (total = true -> c = 1 + raw s 0 mod maxInsert) /\
          ExtrasResult.count res = c /\
          ExtrasResult.choiceSize res = choiceSize_of opts /\
          ExtrasResult.baseLen res = baseLen /\
          js_length vals = c /\ js_length ps = c /\
          Forall2 (value_rel opts) groups vals /\
          (forall i p, nth_error ps i = Some p ->
                       0 <= p < baseLen + Z.of_nat i + 1) /\
          chars (ExtrasResult.text res) = insert_all (chars text) ps vals /\
          str_length (ExtrasResult.text res) = baseLen + c /\
          tr = [maxInsert] ++ List.concat groups
               ++ position_domains baseLen (Z.to_nat c)).
Proof.
  intros Hs Hb. unfold insertExtras.
  pose proof (maxInsert_range (str_length text)) as Hmx.
  assert (Hnn : 0 <= str_length text) by (unfold str_length; lia).
  eapply wp_bind; [apply wp_draw; [lia | intros; lia | assumption]|].
  intros r k tr (Hr & -> & Hk).
  eapply wp_bind; [apply wp_pick_inserts; now apply ready_advance|].
  cbn beta. intros inserts k1 tr1 (groups & vals & -> & Hl & Hall & ->).
  cbn [app] in *.
  assert (Hvals : js_length vals = 1 + r) by (unfold js_length; lia).
  eapply wp_bind;
    [apply wp_place_inserts;
     [now do 2 apply ready_advance
     | intros Ht; specialize (Hb Ht);
       rewrite <- str_length_chars; lia]|].
  cbn beta. intros arr k2 tr2 (ps & Hps & -> & Hdom & Hlen & ->).
  apply wp_ret. cbn zeta.
  exists (1 + r), groups, vals, ps. rewrite choiceSize_of_eq.
  cbn [ExtrasResult.count ExtrasResult.choiceSize ExtrasResult.baseLen
       ExtrasResult.text].
  rewrite <- str_length_chars in *. rewrite chars_of_list.
  rewrite !app_nil_r, Hl.
  repeat split; auto; try lia.
  - intros Ht. destruct (Hk Ht) as [_ ->]. reflexivity.
  - unfold js_length in *. lia.
  - apply Hdom in H. lia.
  - apply Hdom in H. lia.
  - rewrite str_length_chars, chars_of_list. lia.
Qed.

(** ** Runs, draw by draw *)

Lemma bind_ok {A B} (m : M A) (f : A -> M B) (s : rng) (b : B) (s' : rng) :
  bind m f s = Ok b s' ->
  exists a s1, m s = Ok a s1 /\ f a s1 = Ok b s'.
Proof.
  unfold bind. destruct (m s) as [a s1| |]; try discriminate. eauto.
Qed.

Lemma ret_ok {A} (a b : A) (s s' : rng) : ret a s = Ok b s' -> b = a /\ s' = s.
Proof. unfold ret. intros [= -> ->]. auto. Qed.

Lemma draws_app (ds1 ds2 : list (Z * Z)) :
  forall s s1 s',
    draws ds1 s s1 -> draws ds2 s1 s' -> draws (ds1 ++ ds2) s s'.
Proof.
  induction ds1 as [|[n d] ds1 IH]; intros s s1 s' H1 H2; cbn in *.
  - now subst.
  - destruct H1 as (s0 & E & H1). exists s0. split; [exact E|]. eauto.
Qed.

Lemma draws_range (ds : list (Z * Z)) :
  forall s s', draws ds s s' -> Forall (fun nd => 0 <= snd nd < fst nd) ds.
Proof.
  induction ds as [|[n d] ds IH]; intros s s' H; cbn in H; constructor.
  - destruct H as (s1 & E & _). cbn. eapply secureRandomInt_range; eauto.
  - destruct H as (s1 & _ & H). eauto.
Qed.

Lemma secureRandomInt_ok_state (n d : Z) (s s1 : rng) :
  secureRandomInt n s = Ok d s1 -> exists k, s1 = advance s k [n].
Proof.
  intros E. pose proof (secureRandomInt_range _ _ _ _ E) as Hd.
  destruct (wp_ok _ _ _ _ _ _ (wp_secureRandomInt n s ltac:(lia)) E)
    as (k & tr & -> & _ & ->).
  now exists k.
Qed.

Lemma draws_choices (ds : list (Z * Z)) :
  forall s s', draws ds s s' -> choices s' = choices s ++ map fst ds.
Proof.
  induction ds as [|[n d] ds IH]; intros s s' H; cbn in H.
  - subst. cbn. now rewrite app_nil_r.
  - destruct H as (s1 & E & H). apply IH in H. rewrite H.
    destruct (secureRandomInt_ok_state _ _ _ _ E) as (k & ->).
    cbn. now rewrite <- app_assoc.
Qed.

(** On a source that never rejects, the [i]-th draw of a run is the
    [i]-th raw value reduced modulo its cardinality. *)
Lemma draws_accepting (ds : list (Z * Z)) :
  forall s s',
    draws ds s s' -> accepting s ->
    Forall (fun nd => fst nd <= 2 ^ 31) ds ->
    s' = advance s (List.length ds) (map fst ds)
    /\ forall i n d, nth_error ds i = Some (n, d) -> d = raw s i mod n.
Proof.
  induction ds as [|[n d] ds IH]; intros s s' H Hs Hb; cbn in H.
  - subst. split; [now rewrite advance_0|]. intros [|i]; discriminate.
  - destruct H as (s1 & E & H). inversion Hb as [|? ? Hn Hb']; subst.
    cbn [fst] in Hn.
    pose proof (secureRandomInt_range _ _ _ _ E) as Hd.
    destruct (wp_ok _ _ _ _ _ _
                (wp_secureRandomInt_accepting n s ltac:(lia) Hs) E)
      as (k & tr & -> & -> & _ & -> & ->).
    destruct (IH _ _ H (accepting_advance _ _ _ Hs) Hb') as [-> Hi].
    split.
    + rewrite advance_advance. reflexivity.
    + intros [|i] n' d'; cbn [nth_error].
      * intros [= <- <-]. reflexivity.
      * intros Hnth. rewrite (Hi _ _ _ Hnth), raw_advance. reflexivity.
Qed.

Lemma map_fst_combine {A B} (l : list A) (l' : list B) :
  List.length l = List.length l' -> map fst (combine l l') = l.
Proof.
  revert l'. induction l as [|a l IH]; intros [|b l'] H; try discriminate;
    [reflexivity|].
  cbn. f_equal. apply IH. cbn in H. lia.
Qed.

Lemma Forall_combine_fst {A B} (P : A -> Prop) (l : list A) (l' : list B) :
  Forall P l -> Forall (fun ab => P (fst ab)) (combine l l').
Proof.
  intros H. revert l'. induction H as [|a l Ha _ IH]; intros [|b l'];
    cbn; constructor; auto.
Qed.

Lemma nth_error_combine_Some {A B} (l : list A) (l' : list B) (i : nat)
  (a : A) (b : B) :
  nth_error l i = Some a -> nth_error l' i = Some b ->
  nth_error (combine l l') i = Some (a, b).
Proof.
  revert l' i. induction l as [|x l IH]; intros [|y l'] [|i]; cbn;
    try discriminate.
  - now intros [= ->] [= ->].
  - apply IH.
Qed.

Lemma nth_error_combine_In {A B} (l : list A) (l' : list B) (i : nat)
  (a : A) (b : B) :
  nth_error l i = Some a -> nth_error l' i = Some b ->
  In (a, b) (combine l l').
Proof.
  intros Ha Hb. apply (nth_error_In _ i).
  now apply nth_error_combine_Some.
Qed.

Lemma position_domains_length (baseLen : Z) (k : nat) :
  List.length (position_domains baseLen k) = k.
Proof. unfold position_domains. now rewrite length_map, length_seq. Qed.

Lemma position_domains_bound (baseLen : Z) (k : nat) :
  Forall (fun n => n <= baseLen + Z.of_nat k) (position_domains baseLen k).
Proof.
  unfold position_domains. apply Forall_map. apply Forall_forall.
  intros i Hi. apply in_seq in Hi. lia.
Qed.

Lemma value_drawn_value_rel (opts : PoolCfg) (g : list (Z * Z)) (v : ascii) :
  value_drawn opts g v -> Forall (fun nd => 0 <= snd nd < fst nd) g ->
  value_rel opts (map fst g) v /\ Forall (fun nd => fst nd <= 27) g.
Proof.
  unfold value_drawn, value_rel. rewrite SYMBOLS_length.
  assert (Hsym : forall d, 0 <= d < 27 ->
                           In (js_index undefined_char SYMBOLS d) SYMBOLS).
  { intros d Hd. apply js_index_in. now rewrite SYMBOLS_length. }
  intros H Hr.
  destruct (symbols opts && digits opts); [|destruct (symbols opts)].
  - destruct H as [(d & -> & ->) | (d & -> & ->)];
      inversion Hr as [|? ? _ Hr']; inversion Hr' as [|? ? Hd _]; subst;
      cbn [fst snd map] in *.
    + split; [left; auto | repeat constructor; cbn; lia].
    + split; [right; split; [reflexivity | now exists d]
             | repeat constructor; cbn; lia].
  - destruct H as (d & -> & ->). inversion Hr as [|? ? Hd _]; subst.
    cbn [fst snd map] in *. split; [auto | repeat constructor; cbn; lia].
  - destruct H as (d & -> & ->). inversion Hr as [|? ? Hd _]; subst.
    cbn [fst snd map] in *.
    split; [split; [reflexivity | now exists d]
           | repeat constructor; cbn; lia].
Qed.

Lemma pick_inserts_draws (opts : PoolCfg) (n : nat) :
  forall (inserts : list ascii) (s : rng) (r : list ascii) (s' : rng),
    pick_inserts n opts inserts s = Ok r s' ->
    exists groups vals,
      r = inserts ++ vals /\ List.length vals = n /\
      Forall2 (value_drawn opts) groups vals /\
      draws (List.concat groups) s s'.
Proof.
  induction n as [|n IH]; intros ins s r s' E; cbn [pick_inserts] in E.
  - apply ret_ok in E. destruct E as [-> ->].
    exists [], []. rewrite app_nil_r. repeat split; constructor.
  - apply bind_ok in E. destruct E as (pickType & s1 & E1 & E).
    apply bind_ok in E. destruct E as (v & s2 & E2 & E).
    apply IH in E. destruct E as (groups & vals & -> & Hl & Hall & Hd).
    assert (Hstep : exists g, value_drawn opts g v /\ draws g s s2).
    { unfold value_drawn. destruct (symbols opts && digits opts) eqn:Eb.
      - pose proof (secureRandomInt_range _ _ _ _ E1) as Hp.
        destruct (pickType =? 1) eqn:Ep.
        + apply Z.eqb_eq in Ep. subst pickType.
          unfold secureChoice in E2. apply bind_ok in E2.
          destruct E2 as (d & s3 & E2 & E3). apply ret_ok in E3.
          destruct E3 as [-> <-]. rewrite SYMBOLS_length in E2.
          exists [(2, 1); (27, d)]. split; [left; eauto|].
          cbn. exists s1. split; [exact E1|]. exists s2. auto.
        + apply Z.eqb_neq in Ep. assert (pickType = 0) by lia.
          subst pickType.
          apply bind_ok in E2. destruct E2 as (d & s3 & E2 & E3).
          apply ret_ok in E3. destruct E3 as [-> <-].
          exists [(2, 0); (10, d)]. split; [right; eauto|].
          cbn. exists s1. split; [exact E1|]. exists s2. auto.
      - apply ret_ok in E1. destruct E1 as [-> ->].
        destruct (symbols opts); cbn [Z.eqb Pos.eqb] in E2.
        + unfold secureChoice in E2. apply bind_ok in E2.
          destruct E2 as (d & s3 & E2 & E3). apply ret_ok in E3.
          destruct E3 as [-> <-]. rewrite SYMBOLS_length in E2.
          exists [(27, d)]. split; [eauto|]. cbn. exists s2. auto.
        + apply bind_ok in E2. destruct E2 as (d & s3 & E2 & E3).
          apply ret_ok in E3. destruct E3 as [-> <-].
          exists [(10, d)]. split; [eauto|]. cbn. exists s2. auto. }
    destruct Hstep as (g & Hg & Hgd).
    exists (g :: groups), (v :: vals). rewrite <- app_assoc.
    split; [reflexivity|]. split; [cbn; lia|].
    split; [now constructor|].
    cbn [List.concat]. eapply draws_app; eassumption.
Qed.

Lemma place_inserts_draws (inserts : list ascii) :
  forall (arr : list ascii) (s : rng) (r : list ascii) (s' : rng),
    place_inserts inserts arr s = Ok r s' ->
    exists ps,
      List.length ps = List.length inserts /\
      r = insert_all arr ps inserts /\
      draws (combine (position_domains (js_length arr) (List.length inserts))
                     ps) s s'.
Proof.
  induction inserts as [|x rest IH]; intros arr s r s' E;
    cbn [place_inserts] in E.
  - apply ret_ok in E. destruct E as [-> ->]. exists []. now cbn.
  - apply bind_ok in E. destruct E as (pos & s1 & E1 & E).
    apply IH in E. destruct E as (ps & Hl & -> & Hd).
    rewrite splice_length in Hd.
    exists (pos :: ps). cbn [List.length]. rewrite position_domains_S.
    split; [lia|]. split; [reflexivity|].
    cbn [combine draws]. exists s1. auto.
Qed.

Lemma insertExtras_run (text : string) (opts : PoolCfg) (s : rng)
  (res : ExtrasResult.t) (s' : rng) :
  insertExtras text opts s = Ok res s' ->
  exists (k : Z) (groups : list (list (Z * Z))) (vals : list ascii)
         (ps : list Z),
    draws ((maxInsert_of (str_length text), k - 1) :: List.concat groups
           ++ combine (position_domains (str_length text) (Z.to_nat k)) ps)
          s s' /\
    1 <= k /\
    res = ExtrasResult.mk
            (string_of_list_ascii (insert_all (chars text) ps vals))
            k (choiceSize_of opts) (str_length text) /\
    js_length vals = k /\ js_length ps = k /\
    Forall2 (value_drawn opts) groups vals.
Proof.
  intros E. unfold insertExtras in E.
  apply bind_ok in E. destruct E as (r & s1 & E1 & E).
  apply bind_ok in E. destruct E as (inserts & s2 & E2 & E).
  apply bind_ok in E. destruct E as (arr & s3 & E3 & E).
  apply ret_ok in E. destruct E as [-> ->].
  pose proof (secureRandomInt_range _ _ _ _ E1) as Hr.
  apply pick_inserts_draws in E2.
  destruct E2 as (groups & vals & -> & Hl & Hall & Hd2).
  apply place_inserts_draws in E3. destruct E3 as (ps & Hps & -> & Hd3).
  cbn [app] in *. rewrite choiceSize_of_eq.
  fold (chars text) in Hd3 |- *. rewrite <- str_length_chars in Hd3.
  rewrite Hl in Hd3.
  exists (1 + r), groups, vals, ps.
  replace (1 + r - 1) with r by lia.
  split.
  - cbn [draws]. exists s1. split; [exact E1|].
    eapply draws_app; eassumption.
  - split; [lia|]. split; [|unfold js_length; repeat split; auto; lia].
    f_equal. unfold js_length. lia.
Qed.

(** ** Binomial coefficients in log2 space *)

Lemma binomial_above (n : nat) : forall k, (n < k)%nat -> binomial n k = 0%nat.
Proof.
  induction n as [|n IH]; intros [|k] H; cbn; try lia.
  rewrite !IH by lia. reflexivity.
Qed.

Lemma binomial_diag (n : nat) : binomial n n = 1%nat.
Proof.
  induction n as [|n IH]; cbn; [reflexivity|].
  rewrite IH, binomial_above by lia. reflexivity.
Qed.

Lemma C_n_0 (n : nat) : C n 0 = 1%R.
Proof.
  unfold C. rewrite Nat.sub_0_r. change (fact 0) with 1%nat.
  change (INR 1) with 1%R. field. apply INR_fact_neq_0.
Qed.

Lemma C_n_n (n : nat) : C n n = 1%R.
Proof.
  unfold C. rewrite Nat.sub_diag. change (fact 0) with 1%nat.
  change (INR 1) with 1%R. field. apply INR_fact_neq_0.
Qed.

Lemma binomial_C (n : nat) :
  forall k, (k <= n)%nat -> INR (binomial n k) = C n k.
Proof.
  induction n as [|n IH]; intros k Hk.
  - replace k with 0%nat by lia. now rewrite C_n_0.
  - destruct k as [|k].
    + now rewrite C_n_0.
    + cbn [binomial]. rewrite plus_INR.
      destruct (Nat.eq_dec k n) as [->|Hne].
      * rewrite binomial_diag, binomial_above, C_n_n by lia.
        change (INR 1) with 1%R. change (INR 0) with 0%R. lra.
      * rewrite !IH by lia. apply pascal. lia.
Qed.

Lemma C_step (m j : nat) :
  (C (m + S j) (S j) = C (m + j) j * (INR (m + S j) / INR (S j)))%R.
Proof.
  unfold C.
  replace (m + S j - S j)%nat with m by lia.
  replace (m + j - j)%nat with m by lia.
  replace (m + S j)%nat with (S (m + j)) by lia.
  rewrite !fact_simpl, !mult_INR.
  field. repeat split; try apply INR_fact_neq_0.
  apply not_0_INR. lia.
Qed.

Lemma C_pos (m j : nat) : (0 < C (m + j) j)%R.
Proof.
  induction j as [|j IH].
  - rewrite Nat.add_0_r, C_n_0. lra.
  - rewrite C_step. apply Rmult_lt_0_compat; [exact IH|].
    apply Rdiv_lt_0_compat; apply lt_0_INR; lia.
Qed.

Lemma loop_1_to_S (j : nat) :
  loop_1_to (Z.of_nat (S j)) = loop_1_to (Z.of_nat j) ++ [Z.of_nat (S j)].
Proof.
  unfold loop_1_to. rewrite !Nat2Z.id, seq_S, map_app. cbn [map Nat.add].
  do 2 f_equal. lia.
Qed.

Lemma fold_left_log2 (f : Z -> R) (l : list Z) :
  forall acc : R,
    fold_left (fun sum i => (sum + Math_log2 (f i))%R) l acc
    = (acc + fold_right (fun i a => (Math_log2 (f i) + a)%R) 0%R l)%R.
Proof.
  induction l as [|i l IH]; intros acc; cbn [fold_left fold_right].
  - lra.
  - rewrite IH. lra.
Qed.

Lemma fold_right_log2_app (f : Z -> R) (l1 l2 : list Z) :
  fold_right (fun i a => (Math_log2 (f i) + a)%R) 0%R (l1 ++ l2)
  = (fold_right (fun i a => (Math_log2 (f i) + a)%R) 0%R l1
     + fold_right (fun i a => (Math_log2 (f i) + a)%R) 0%R l2)%R.
Proof.
  induction l1 as [|i l1 IH]; cbn [app fold_right]; [lra|].
  rewrite IH. lra.
Qed.

(** The multiplicative identity: the sum of the logarithms of the ratios is
    the logarithm of the binomial coefficient. *)
Lemma log2_ratio_sum_C (m j : nat) :
  log2_ratio_sum (Z.of_nat m) (Z.of_nat j) = Math_log2 (C (m + j) j).
Proof.
  unfold log2_ratio_sum. induction j as [|j IH].
  - cbn [Z.of_nat loop_1_to]. change (loop_1_to 0) with (@nil Z).
    cbn [fold_right]. now rewrite Nat.add_0_r, C_n_0, Math_log2_1.
  - rewrite loop_1_to_S.
    rewrite (fold_right_log2_app (fun i => (IZR (Z.of_nat m + i) / IZR i)%R)).
    rewrite IH. cbn [fold_right]. rewrite C_step.
    rewrite Math_log2_mult;
      [| apply C_pos | apply Rdiv_lt_0_compat; apply lt_0_INR; lia].
    rewrite <- Nat2Z.inj_add, <- !INR_IZR_INZ. lra.
Qed.

Lemma log2_nCr_in_range (n k : Z) :
  0 <= k <= n ->
  log2_nCr n k
  = Finite (log2_ratio_sum (n - Z.min k (n - k)) (Z.min k (n - k))).
Proof.
  intros H. unfold log2_nCr.
  destruct ((k <? 0) || (n <? k)) eqn:E.
  - apply orb_prop in E. destruct E as [E|E]; apply Z.ltb_lt in E; lia.
  - cbn zeta. f_equal. rewrite fold_left_log2. unfold log2_ratio_sum. lra.
Qed.

Lemma log2_nCr_value (n k : Z) :
  0 <= k <= n ->
  log2_nCr n k = Finite (Math_log2 (C (Z.to_nat n) (Z.to_nat k))).
Proof.
  intros H. rewrite log2_nCr_in_range by assumption. f_equal.
  set (k' := Z.min k (n - k)).
  replace (n - k') with (Z.of_nat (Z.to_nat (n - k'))) by lia.
  replace k' with (Z.of_nat (Z.to_nat k')) at 2 by lia.
  rewrite log2_ratio_sum_C.
  replace (Z.to_nat (n - k') + Z.to_nat k')%nat with (Z.to_nat n) by lia.
  destruct (Z.le_ge_cases k (n - k)) as [Hle|Hge].
  - now replace k' with k by lia.
  - replace k' with (n - k) by lia.
    rewrite (pascal_step1 (Z.to_nat n) (Z.to_nat k)) by lia.
    do 2 f_equal. lia.
Qed.

(** C6: for all integers [n >= 0] and [0 <= k <= n], [log2_nCr(n, k)] is the
    finite sum [log2((n-k'+1)/1) + ... + log2((n-k'+k')/k')] with
    [k' = min(k, n-k)], and [2] raised to it is the integer binomial
    coefficient [C(n, k)]; for [k < 0] or [k > n] it is [-Infinity]. *)
Theorem log2_nCr_binomial :
  (forall n k : Z,
     0 <= k <= n ->
     exists x : R,
       log2_nCr n k = Finite x /\
       x = log2_ratio_sum (n - Z.min k (n - k)) (Z.min k (n - k)) /\
       Rpower 2 x = INR (binomial (Z.to_nat n) (Z.to_nat k)))
  /\ (forall n k : Z, k < 0 \/ k > n -> log2_nCr n k = NegInfinity).
Proof.
  split.
  - intros n k H. eexists. split; [apply log2_nCr_in_range; assumption|].
    split; [reflexivity|].
    pose proof (log2_nCr_value n k H) as Hv.
    rewrite log2_nCr_in_range in Hv by assumption. injection Hv as ->.
    rewrite binomial_C by lia.
    apply Rpower_2_log2.
    replace (Z.to_nat n) with (Z.to_nat (n - k) + Z.to_nat k)%nat by lia.
    apply C_pos.
  - intros n k H. unfold log2_nCr.
    destruct ((k <? 0) || (n <? k)) eqn:E; [reflexivity|].
    apply orb_false_elim in E. destruct E as [E1 E2].
    apply Z.ltb_ge in E1, E2. lia.
Qed.

Lemma log2_nCr_binomial_witness :
  (exists x : R, log2_nCr 5 2 = Finite x /\ Rpower 2 x = 10%R)
  /\ log2_nCr 5 7 = NegInfinity /\ log2_nCr 5 (-1) = NegInfinity.
Proof.
  destruct log2_nCr_binomial as [Hin Hout]. split; [|split].
  - destruct (Hin 5 2 ltac:(lia)) as (x & E & _ & Hx).
    exists x. split; [exact E|]. rewrite Hx.
    change (binomial (Z.to_nat 5) (Z.to_nat 2)) with 10%nat.
    rewrite INR_IZR_INZ. reflexivity.
  - apply Hout. lia.
  - apply Hout. lia.
Defined.

(** ** The passphrase pipeline *)

Lemma wp_choose_words (total : bool) (personal : string) (wl : list string)
  (n : nat) :
  1 <= js_length wl -> (total = true -> js_length wl <= 2 ^ 31) ->
  forall (wordChoices : list string) (s : rng),
    ready total s ->
    wp total (choose_words n personal wl wordChoices) s
       (fun r k tr =>
          exists groups ws,
            r = wordChoices ++ ws /\ List.length ws = n /\
            Forall2 (word_rel personal wl) groups ws /\
            tr = List.concat groups).
Proof.
  intros HW HWb. induction n as [|n IH]; intros wc s Hs; cbn [choose_words].
  - apply wp_ret. exists [], []. now rewrite app_nil_r.
  - apply wp_bind_assoc.
    eapply wp_bind with (Q1 := fun w k tr => word_rel personal wl tr w).
    + unfold word_rel. destruct (hint_usable personal).
      * eapply wp_bind with (Q1 := fun (b : bool) k tr => tr = [5]).
        -- eapply wp_bind;
             [apply wp_draw; [lia | intros; lia | assumption]|].
           intros r k tr (Hr & -> & _). apply wp_ret. reflexivity.
        -- intros b k tr ->. destruct b.
           ++ apply wp_ret. left. auto.
           ++ eapply wp_conseq;
                [apply wp_choice;
                 [lia | assumption | now apply ready_advance]|].
              cbn beta. intros w k' tr' (Hin & -> & _). right. auto.
      * eapply wp_bind with (Q1 := fun b k tr => b = false /\
                                                 k = 0%nat /\ tr = []);
          [apply wp_ret; auto|].
        intros b k' tr' (-> & -> & ->). rewrite advance_0.
        eapply wp_conseq; [apply wp_choice; [lia | assumption | assumption]|].
        cbn beta. intros w k' tr' (Hin & -> & _). auto.
    + cbn beta. intros w k tr Hw.
      eapply wp_conseq; [apply IH; now apply ready_advance|]. cbn beta.
      intros r k' tr' (groups & ws & -> & Hl & Hall & ->).
      exists (tr :: groups), (w :: ws). rewrite <- app_assoc.
      repeat split; cbn; auto.
Qed.

Lemma word_rel_candidate (personal : string) (wl : list string)
  (groups : list (list Z)) (ws : list string) :
  Forall2 (word_rel personal wl) groups ws ->
  Forall (candidate_word wl personal) ws.
Proof.
  induction 1 as [|g w groups ws Hw _ IH]; constructor; [|exact IH].
  unfold word_rel, candidate_word in *.
  destruct (hint_usable personal); intuition.
Qed.

Lemma Forall2_chars_length {R : ascii -> ascii -> Prop} (a b : string) :
  Forall2 R (chars a) (chars b) -> str_length b = str_length a.
Proof.
  intros H. apply Forall2_length in H.
  rewrite !str_length_chars. unfold js_length. lia.
Qed.

Lemma wp_generatePassphrase (total : bool) (wl : list string)
  (opts : PassphraseOpts) (s : rng) :
  1 <= js_length wl -> (total = true -> js_length wl <= 2 ^ 31) ->
  (total = true -> enableInsertExtras opts = true ->
   forall ws, List.length ws = Z.to_nat (numWords opts) ->
              Forall (candidate_word wl (personal opts)) ws ->
              str_length (String.concat (separator opts) ws) + 4 <= 2 ^ 31) ->
  ready total s ->
  wp total (generatePassphrase wl opts) s
     (fun res k tr => passphrase_run wl opts res tr).
Proof.
  intros HW HWb Hlen Hs. unfold generatePassphrase.
  eapply wp_bind; [apply wp_choose_words; assumption|]. cbn beta.
  intros wc k0 tr0 (groups & ws & -> & Hl & Hws & ->). cbn [app].
  set (joined := String.concat (separator opts) ws).
  (* capitalisation *)
  eapply wp_bind with
    (Q1 := fun r k tr =>
       exists text1,
         r = (text1, mkTransforms (enableCap opts)
                       (if enableCap opts then count_letters joined else 0)
                       false [] None (str_length joined)) /\
         (if enableCap opts
          then Forall2 cap_rel (chars joined) (chars text1)
          else text1 = joined) /\
         tr = (if enableCap opts
               then repeat 2 (Z.to_nat (count_letters joined)) else [])).
  { destruct (enableCap opts).
    - eapply wp_bind;
        [apply wp_randomizeCapitalization; now apply ready_advance|].
      cbn beta. intros [text lc] k tr (Hall & Hlc & ->). cbn [fst snd] in *.
      apply wp_ret. exists text. subst lc. rewrite app_nil_r. auto.
    - apply wp_ret. exists joined. auto. }
  cbn beta. intros r1 k1 tr1 (text1 & -> & Hcap & ->).
  assert (Hlen1 : str_length text1 = str_length joined).
  { destruct (enableCap opts); [|now subst].
    now apply Forall2_chars_length in Hcap. }
  (* leet *)
  eapply wp_bind with
    (Q1 := fun r k tr =>
       exists text2,
         r = (text2, mkTransforms (enableCap opts)
                       (if enableCap opts then count_letters joined else 0)
                       (enableLeet opts)
                       (if enableLeet opts then leet_sizes (chars text1)
                        else [])
                       None (str_length joined)) /\
         (if enableLeet opts
          then Forall2 leet_rel (chars text1) (chars text2)
          else text2 = text1) /\
         tr = (if enableLeet opts then leet_sizes (chars text1) else [])).
  { destruct (enableLeet opts).
    - eapply wp_bind; [apply wp_applyLeet; now do 2 apply ready_advance|].
      cbn beta. intros [text cs] k tr (Hall & Hcs & ->). cbn [fst snd] in *.
      apply wp_ret. exists text. subst cs. rewrite app_nil_r. auto.
    - apply wp_ret. exists text1. auto. }
  cbn beta. intros r2 k2 tr2 (text2 & -> & Hleet & ->).
  assert (Hlen2 : str_length text2 = str_length joined).
  { destruct (enableLeet opts); [|now subst].
    apply Forall2_chars_length in Hleet. lia. }
  (* insert extras *)
  eapply wp_bind with
    (Q1 := fun r k tr =>
       exists final ins b,
         r = (final, mkTransforms (enableCap opts)
                       (if enableCap opts then count_letters joined else 0)
                       (enableLeet opts)
                       (if enableLeet opts then leet_sizes (chars text1)
                        else [])
                       ins b) /\
         (if enableInsertExtras opts
          then exists c,
                 ins = Some (mkInsertions c 37) /\
                 b = str_length text2 /\
                 insertion_run extras_opts text2 c final tr
          else final = text2 /\ ins = None /\
               b = str_length joined /\ tr = [])).
  { destruct (enableInsertExtras opts) eqn:Ei.
    - eapply wp_bind.
      + apply wp_insertExtras; [now do 3 apply ready_advance|].
        intros Ht. rewrite Hlen2. apply (Hlen Ht eq_refl ws Hl).
        eapply word_rel_candidate; eassumption.
      + cbn beta.
        intros res k tr
          (c & groups' & vals & ps & Hc & _ & Hcount & Hcs & Hbl & Hv & Hp
             & Hvals & Hdom & Htext & Hfinal & ->).
        apply wp_ret.
        exists (ExtrasResult.text res),
               (Some (mkInsertions (ExtrasResult.count res)
                                   (ExtrasResult.choiceSize res))),
               (ExtrasResult.baseLen res).
        split; [reflexivity|]. exists c.
        rewrite Hcount, Hcs, Hbl. split; [reflexivity|].
        split; [reflexivity|].
        exists groups', vals, ps. rewrite app_nil_r.
        repeat split; auto; try lia.
        * apply Hdom in H. lia.
        * apply Hdom in H. lia.
    - apply wp_ret. exists text2, None, (str_length joined). auto. }
  cbn beta. intros r3 k3 tr3 (final & ins & b & -> & Hins).
  apply wp_ret. unfold passphrase_run.
  cbn [PassphraseResult.words PassphraseResult.transforms
       PassphraseResult.password PassphraseResult.bits
       capitalisation lettersCount leet leetChoices insertions baseLen].
  fold joined.
  exists groups, text1, text2, tr3.
  rewrite !app_nil_r.
  repeat (split; [solve [auto]|]). reflexivity.
Qed.

(** ** Stage contracts *)

Lemma Forall2_nth_error {A B} (R : A -> B -> Prop) (l : list A) (l' : list B) :
  Forall2 R l l' ->
  forall i a, nth_error l i = Some a ->
              exists b, nth_error l' i = Some b /\ R a b.
Proof.
  induction 1 as [|a0 b0 l l' H0 _ IH]; intros [|i] a; cbn [nth_error];
    try discriminate.
  - intros [= <-]. eauto.
  - apply IH.
Qed.

Lemma cap_rel_keeps (text out : string) (i : nat) (ch : ascii) :
  Forall2 cap_rel (chars text) (chars out) ->
  nth_error (chars text) i = Some ch -> is_letter ch = false ->
  nth_error (chars out) i = Some ch.
Proof.
  intros H Hi Hl. destruct (Forall2_nth_error _ _ _ H i ch Hi) as (b & Hb & Hr).
  unfold cap_rel in Hr. rewrite Hl in Hr. now subst.
Qed.

Lemma leet_rel_keeps (text out : string) (i : nat) (ch : ascii) :
  Forall2 leet_rel (chars text) (chars out) ->
  nth_error (chars text) i = Some ch ->
  leet_lookup (toLowerCase ch) = None ->
  nth_error (chars out) i = Some ch.
Proof.
  intros H Hi Hl. destruct (Forall2_nth_error _ _ _ H i ch Hi) as (b & Hb & Hr).
  unfold leet_rel in Hr. rewrite Hl in Hr. now subst.
Qed.

(** C10: the capitalization stage and the leet stage never throw and return
    a string of the length of their input, the first leaving every
    non-alphabetic character in place, the second every character whose
    lower-cased form is not in the leet table; the insertion stage never
    throws and returns a string of length [baseLen + count] with
    [1 <= count <= 4], [count] and [baseLen] being the recorded values.
    On a source that never rejects, each stage returns (the insertion stage
    for texts of fewer than [2^31 - 4] characters). *)
Theorem stages_preserve_shape (text : string) :
  (forall s,
     (forall msg, randomizeCapitalization text s <> Throw msg) /\
     (forall r s', randomizeCapitalization text s = Ok r s' ->
        str_length (fst r) = str_length text /\
        forall i ch, nth_error (chars text) i = Some ch ->
                     is_letter ch = false ->
                     nth_error (chars (fst r)) i = Some ch) /\
     (accepting s -> exists r s', randomizeCapitalization text s = Ok r s'))
  /\ (forall s,
        (forall msg, applyLeet text s <> Throw msg) /\
        (forall r s', applyLeet text s = Ok r s' ->
           str_length (fst r) = str_length text /\
           forall i ch, nth_error (chars text) i = Some ch ->
                        leet_lookup (toLowerCase ch) = None ->
                        nth_error (chars (fst r)) i = Some ch) /\
        (accepting s -> exists r s', applyLeet text s = Ok r s'))
  /\ (forall opts s,
        (forall msg, insertExtras text opts s <> Throw msg) /\
        (forall res s', insertExtras text opts s = Ok res s' ->
           ExtrasResult.baseLen res = str_length text /\
           str_length (ExtrasResult.text res)
           = ExtrasResult.baseLen res + ExtrasResult.count res /\
           1 <= ExtrasResult.count res <= 4) /\
        (accepting s -> str_length text + 4 <= 2 ^ 31 ->
         exists res s', insertExtras text opts s = Ok res s')).
Proof.
  split; [|split].
  - intros s.
    assert (Hp := wp_randomizeCapitalization false text s
                    ltac:(intros; discriminate)).
    split; [|split].
    + intros msg. eapply wp_no_throw. exact Hp.
    + intros r s' E.
      destruct (wp_ok _ _ _ _ _ _ Hp E) as (k & tr & _ & Hall & _).
      split; [now apply Forall2_chars_length in Hall|].
      intros i ch. now apply cap_rel_keeps.
    + intros Hs.
      assert (Ht := wp_randomizeCapitalization true text s ltac:(intros _; exact Hs)).
      apply wp_returns in Ht. destruct Ht as (r & k & tr & E & _). eauto.
  - intros s.
    assert (Hp := wp_applyLeet false text s ltac:(intros; discriminate)).
    split; [|split].
    + intros msg. eapply wp_no_throw. exact Hp.
    + intros r s' E.
      destruct (wp_ok _ _ _ _ _ _ Hp E) as (k & tr & _ & Hall & _).
      split; [now apply Forall2_chars_length in Hall|].
      intros i ch. now apply leet_rel_keeps.
    + intros Hs.
      assert (Ht := wp_applyLeet true text s ltac:(intros _; exact Hs)).
      apply wp_returns in Ht. destruct Ht as (r & k & tr & E & _). eauto.
  - intros opts s.
    assert (Hp := wp_insertExtras false text opts s
                    ltac:(intros; discriminate) ltac:(intros; discriminate)).
    split; [|split].
    + intros msg. eapply wp_no_throw. exact Hp.
    + intros res s' E.
      destruct (wp_ok _ _ _ _ _ _ Hp E)
        as (k & tr & _ & c & groups & vals & ps & Hc & _ & Hcount & _ & Hbl
              & _ & _ & _ & _ & _ & Hlen & _).
      pose proof (maxInsert_range (str_length text)).
      rewrite Hbl, Hcount, Hlen. repeat split; lia.
    + intros Hs Hb.
      assert (Ht := wp_insertExtras true text opts s
                      ltac:(intros _; exact Hs) ltac:(intros _; exact Hb)).
      apply wp_returns in Ht. destruct Ht as (r & k & tr & E & _). eauto.
Qed.

Lemma stages_preserve_shape_witness :
  (exists r s', randomizeCapitalization "ab-1" (fresh [1; 0] 8) = Ok r s'
                /\ str_length (fst r) = 4
                /\ nth_error (chars (fst r)) 2 = Some "-"%char)
  /\ (exists r s', applyLeet "ab-1" (fresh [1; 0] 8) = Ok r s'
                   /\ str_length (fst r) = 4
                   /\ nth_error (chars (fst r)) 2 = Some "-"%char)
  /\ (exists res s',
        insertExtras "ab-1" extras_opts (fresh [0; 1; 3; 2] 8) = Ok res s'
        /\ str_length (ExtrasResult.text res)
           = ExtrasResult.baseLen res + ExtrasResult.count res
        /\ 1 <= ExtrasResult.count res <= 4).
Proof.
  destruct (stages_preserve_shape "ab-1") as (Hcap & Hleet & Hins).
  split; [|split].
  - destruct (Hcap (fresh [1; 0] 8)) as (_ & Hok & Hret).
    destruct Hret as (r & s' & E);
      [apply accepting_fresh; [lia | reflexivity]|].
    destruct (Hok r s' E) as [Hl Hk].
    exists r, s'. split; [exact E|]. split; [exact Hl|].
    apply Hk; reflexivity.
  - destruct (Hleet (fresh [1; 0] 8)) as (_ & Hok & Hret).
    destruct Hret as (r & s' & E);
      [apply accepting_fresh; [lia | reflexivity]|].
    destruct (Hok r s' E) as [Hl Hk].
    exists r, s'. split; [exact E|]. split; [exact Hl|].
    apply Hk; reflexivity.
  - destruct (Hins extras_opts (fresh [0; 1; 3; 2] 8)) as (_ & Hok & Hret).
    destruct Hret as (res & s' & E);
      [apply accepting_fresh; [lia | reflexivity] | vm_compute; discriminate|].
    destruct (Hok res s' E) as (Hb & Hl & Hc).
    exists res, s'. split; [exact E|]. split; [exact Hl | exact Hc].
Defined.

Lemma charCode_fromCharCode (c : Z) : charCode (fromCharCode c) = c mod 256.
Proof.
  unfold charCode, fromCharCode.
  pose proof (Z.mod_pos_bound c 256 ltac:(lia)) as Hc.
  rewrite N_ascii_embedding by lia. lia.
Qed.

Lemma digit_chars_distinct (d d' : Z) :
  0 <= d < 10 -> 0 <= d' < 10 ->
  fromCharCode (48 + d) = fromCharCode (48 + d') -> d = d'.
Proof.
  intros Hd Hd' H. apply (f_equal charCode) in H.
  rewrite !charCode_fromCharCode, !Z.mod_small in H by lia. lia.
Qed.

Lemma SYMBOLS_NoDup : NoDup SYMBOLS.
Proof.
  replace SYMBOLS with (nodup ascii_dec SYMBOLS) by (vm_compute; reflexivity).
  apply NoDup_nodup.
Qed.

(** C5: on a text of length [baseLen] the insertion stage makes these calls
    of [secureRandomInt], in this order, and nothing else decides its
    result.  One call over [maxInsert = min(4, max(1, ceil(baseLen / 6)))]
    whose value [r] gives the count [k = 1 + r], in [[1, maxInsert]].  For
    each of the [k] values: with both classes enabled a coin (a call over
    2), then a call over 27 whose value indexes [SYMBOLS] when the coin
    showed 1, or a call over 10 whose value [d] gives the digit of code
    [48 + d] when it showed 0; with one class enabled a single call within
    that class.  Then for the [i]-th value a call over [baseLen + i + 1]
    whose value is the position at which it is spliced in.  Distinct values
    of a call give distinct counts, symbols, digits and positions, so each
    choice is as uniform as [secureRandomInt] is.  The sub-record holds
    [k], the value-set size (37, 27 or 10) and [baseLen].  On a source that
    never rejects, the [j]-th of these calls returns the [j]-th raw value
    modulo its cardinality.  The stage never throws, and on a source that
    never rejects it returns. *)
Theorem insertExtras_draws (text : string) (opts : PoolCfg) :
  let baseLen := str_length text in
  let maxInsert := Z.min 4 (Z.max 1 (ceil_div baseLen 6)) in
  6 * (ceil_div baseLen 6 - 1) < baseLen <= 6 * ceil_div baseLen 6
  /\ (js_length SYMBOLS = 27 /\ NoDup SYMBOLS /\
      forall d d', 0 <= d < 10 -> 0 <= d' < 10 ->
                   fromCharCode (48 + d) = fromCharCode (48 + d') -> d = d')
  /\ (forall s msg, insertExtras text opts s <> Throw msg)
  /\ (forall s res s',
        insertExtras text opts s = Ok res s' ->
        exists (k : Z) (groups : list (list (Z * Z))) (vals : list ascii)
               (ps : list Z),
          let ds := (maxInsert, k - 1) :: List.concat groups
                    ++ combine (position_domains baseLen (Z.to_nat k)) ps in
          draws ds s s' /\
          Forall (fun nd => 0 <= snd nd < fst nd) ds /\
          1 <= k <= maxInsert /\
          ExtrasResult.count res = k /\
          ExtrasResult.choiceSize res = choiceSize_of opts /\
          ExtrasResult.baseLen res = baseLen /\
          js_length vals = k /\ js_length ps = k /\
          Forall2 (value_drawn opts) groups vals /\
          Forall2 (value_rel opts) (map (map fst) groups) vals /\
          (forall i p, nth_error ps i = Some p ->
                       0 <= p < baseLen + Z.of_nat i + 1) /\
          chars (ExtrasResult.text res) = insert_all (chars text) ps vals /\
          choices s' = choices s ++ [maxInsert]
                       ++ List.concat (map (map fst) groups)
                       ++ position_domains baseLen (Z.to_nat k) /\
          (accepting s -> baseLen + 4 <= 2 ^ 31 ->
           s' = advance s (List.length ds) (map fst ds) /\
           forall j n d, nth_error ds j = Some (n, d) -> d = raw s j mod n))
  /\ (forall s, accepting s -> baseLen + 4 <= 2 ^ 31 ->
        exists res s',
          insertExtras text opts s = Ok res s' /\
          ExtrasResult.count res = 1 + raw s 0 mod maxInsert).
Proof.
  intros baseLen maxInsert.
  split; [apply ceil_div_spec|].
  split; [split; [reflexivity|]; split;
          [exact SYMBOLS_NoDup | exact digit_chars_distinct]|].
  split; [|split].
  - intros s msg. eapply wp_no_throw.
    apply (wp_insertExtras false); intros; discriminate.
  - intros s res s' E.
    destruct (insertExtras_run _ _ _ _ _ E)
      as (k & groups & vals & ps & Hd & Hk1 & -> & Hv & Hp & Hall).
    fold baseLen in Hd. change (maxInsert_of baseLen) with maxInsert in Hd.
    exists k, groups, vals, ps. cbn zeta.
    pose proof (draws_range _ _ _ Hd) as Hr.
    pose proof (draws_choices _ _ _ Hd) as Hc.
    assert (Hlen : List.length (position_domains baseLen (Z.to_nat k))
                   = List.length ps).
    { rewrite position_domains_length. unfold js_length in Hp. lia. }
    pose proof (Forall_inv Hr) as Hr0. pose proof (Forall_inv_tail Hr) as Hr'.
    cbn [fst snd] in Hr0.
    apply Forall_app in Hr'. destruct Hr' as [Hrg Hrp].
    assert (Hgroups : Forall2 (value_rel opts) (map (map fst) groups) vals
                      /\ Forall (fun nd => fst nd <= 27)
                                (List.concat groups)).
    { clear - Hall Hrg. induction Hall as [|g v gs vs Hg _ IH]; cbn.
      - split; constructor.
      - cbn [List.concat] in Hrg. apply Forall_app in Hrg.
        destruct Hrg as [Hg1 Hg2].
        destruct (value_drawn_value_rel _ _ _ Hg Hg1) as [Hrel Hb].
        destruct (IH Hg2) as [IH1 IH2].
        split; [now constructor | apply Forall_app; auto]. }
    destruct Hgroups as [Hrel Hgb].
    assert (Hdom : forall i p, nth_error ps i = Some p ->
                               0 <= p < baseLen + Z.of_nat i + 1).
    { intros i p Hnth.
      assert (Hi : (i < Z.to_nat k)%nat).
      { assert (i < List.length ps)%nat
          by (apply nth_error_Some; rewrite Hnth; discriminate).
        unfold js_length in Hp. lia. }
      assert (Hpd : nth_error (position_domains baseLen (Z.to_nat k)) i
                    = Some (baseLen + Z.of_nat i + 1)).
      { unfold position_domains.
        rewrite nth_error_map, nth_error_seq.
        destruct (Nat.ltb_spec i (Z.to_nat k)); [reflexivity | lia]. }
      rewrite Forall_forall in Hrp.
      specialize (Hrp (baseLen + Z.of_nat i + 1, p)). cbn [fst snd] in Hrp.
      apply Hrp. eapply nth_error_combine_In; eassumption. }
    split; [exact Hd|]. split; [exact Hr|].
    split; [lia|]. cbn [ExtrasResult.count ExtrasResult.choiceSize
                        ExtrasResult.baseLen ExtrasResult.text].
    do 5 (split; [auto|]). split; [exact Hall|]. split; [exact Hrel|].
    split; [exact Hdom|]. split; [now rewrite chars_of_list|].
    split.
    + rewrite Hc. cbn [map fst app]. rewrite map_app.
      rewrite map_fst_combine by exact Hlen.
      rewrite concat_map. reflexivity.
    + intros Hs Hb. apply (draws_accepting _ _ _ Hd Hs).
      constructor; [cbn; lia|]. apply Forall_app. split.
      * eapply Forall_impl; [|exact Hgb]. cbn beta. intros nd H. lia.
      * apply (Forall_combine_fst (fun n => n <= 2 ^ 31)).
        eapply Forall_impl; [|apply position_domains_bound]. cbn beta.
        intros n H. lia.
  - intros s Hs Hb.
    assert (Ht := wp_insertExtras true text opts s
                    ltac:(intros _; exact Hs) ltac:(intros _; exact Hb)).
    apply wp_returns in Ht.
    destruct Ht as (res & k0 & tr & E & k & groups & vals & ps & _ & Hk
                      & Hcount & _).
    exists res, (advance s k0 tr). split; [exact E|].
    rewrite Hcount. now apply Hk.
Qed.

Lemma insertExtras_draws_witness :
  exists res s',
    insertExtras "ab-1" extras_opts (fresh [0; 1; 3; 2] 8) = Ok res s'
    /\ ExtrasResult.count res = 1
    /\ ExtrasResult.text res = "ab$-1"%string
    /\ choices s' = [1; 2; 27; 5]
    /\ exists k groups vals ps,
         draws ((1, k - 1) :: List.concat groups
                ++ combine (position_domains 4 (Z.to_nat k)) ps)
               (fresh [0; 1; 3; 2] 8) s'
         /\ Forall2 (value_drawn extras_opts) groups vals
         /\ chars (ExtrasResult.text res) = insert_all (chars "ab-1") ps vals.
Proof.
  destruct (insertExtras_draws "ab-1" extras_opts) as (_ & _ & _ & Hok & Hret).
  destruct (Hret (fresh [0; 1; 3; 2] 8)) as (res & s' & E & Hc).
  - apply accepting_fresh; [lia | reflexivity].
  - vm_compute. discriminate.
  - exists res, s'. split; [exact E|]. split; [exact Hc|].
    destruct (Hok _ _ _ E)
      as (k & groups & vals & ps & Hd & _ & _ & _ & _ & _ & _ & _ & Hall & _
            & _ & Htext & _).
    split; [|split].
    + vm_compute in E. injection E as <- _. reflexivity.
    + vm_compute in E. injection E as _ <-. reflexivity.
    + exists k, groups, vals, ps. auto.
Defined.

(** ** Entropy accounting *)


Lemma sum_log2_repeat_2 (n : nat) : sum_log2 (repeat 2 n) = INR n.
Proof.
  induction n as [|n IH]; [reflexivity|].
  cbn [repeat]. change (sum_log2 (2 :: repeat 2 n))
    with (Math_log2 2 + sum_log2 (repeat 2%Z n))%R.
  rewrite IH, Math_log2_2, S_INR. lra.
Qed.


Lemma bitsForPassphraseModel_eval (nW W : Z) (t : Transforms) :
  0 <= lettersCount t ->
  (forall ins, insertions t = Some ins -> 1 <= count ins /\ 0 <= baseLen t) ->
  bitsForPassphraseModel nW W t
  = Finite (IZR nW * Math_log2 (IZR W)
            + (if capitalisation t then IZR (lettersCount t) else 0)
            + (if leet t then sum_log2 (leetChoices t) else 0)
            + insertion_credit t)%R.
Proof.
  intros Hlc Hins. unfold bitsForPassphraseModel, insertion_credit.
  set (b0 := (IZR nW * Math_log2 (IZR W))%R).
  assert (E1 :
    (if capitalisation t && truthy (lettersCount t)
     then (b0 + IZR (lettersCount t) * 1)%R else b0)
    = (b0 + (if capitalisation t then IZR (lettersCount t) else 0))%R).
  { destruct (capitalisation t); cbn [andb]; [|lra].
    unfold truthy. destruct (lettersCount t =? 0) eqn:E; cbn [negb]; [|lra].
    apply Z.eqb_eq in E. rewrite E. lra. }
  rewrite E1. clear E1.
  set (b1 := (b0 + (if capitalisation t then IZR (lettersCount t) else 0))%R).
  assert (E2 :
    (if leet t && truthy (js_length (leetChoices t))
     then fold_left (fun bits c => (bits + Math_log2 (IZR c))%R)
            (leetChoices t) b1
     else b1)
    = (b1 + (if leet t then sum_log2 (leetChoices t) else 0))%R).
  { destruct (leet t); cbn [andb]; [|lra].
    unfold truthy. destruct (js_length (leetChoices t) =? 0) eqn:E;
      cbn [negb].
    - apply Z.eqb_eq in E. destruct (leetChoices t); [cbn; lra|].
      unfold js_length in E. cbn [List.length] in E. lia.
    - apply (fold_left_log2 IZR). }
  rewrite E2. clear E2.
  destruct (insertions t) as [ins|] eqn:Ei; [|f_equal; lra].
  destruct (Hins ins eq_refl) as [Hc Hb].
  unfold truthy. destruct (count ins =? 0) eqn:E;
    [apply Z.eqb_eq in E; lia|]. cbn [negb].
  rewrite log2_nCr_value by lia. cbn [number_add].
  rewrite <- binomial_C by lia. f_equal. lra.
Qed.

Lemma str_length_append (a b : string) :
  str_length (a ++ b) = str_length a + str_length b.
Proof.
  rewrite !str_length_chars, chars_append. unfold js_length.
  rewrite length_app. lia.
Qed.

Lemma max_word_length_In (l : list string) (w : string) :
  In w l -> str_length w <= max_word_length l.
Proof.
  induction l as [|x l IH]; [contradiction|].
  cbn [In max_word_length fold_right]. fold (max_word_length l).
  intros [->|H]; [lia|]. specialize (IH H). lia.
Qed.

Lemma concat_length_bound (sep : string) (m : Z) (ws : list string) :
  Forall (fun w => str_length w <= m) ws ->
  str_length (String.concat sep ws)
  <= js_length ws * (m + str_length sep).
Proof.
  assert (Hsep : 0 <= str_length sep) by (unfold str_length; lia).
  induction 1 as [|w ws Hw Hall IH].
  - cbn. unfold str_length, js_length. cbn. lia.
  - assert (Hl : js_length (w :: ws) = 1 + js_length ws)
      by (unfold js_length; cbn [List.length]; lia).
    assert (0 <= str_length w) by (unfold str_length; lia).
    assert (0 <= js_length ws) by (unfold js_length; lia).
    destruct ws as [|w' ws'].
    + cbn [String.concat]. rewrite Hl.
      change (js_length (@nil string)) with 0. lia.
    + change (String.concat sep (w :: w' :: ws'))
        with (w ++ sep ++ String.concat sep (w' :: ws'))%string.
      rewrite !str_length_append, Hl. nia.
Qed.

Lemma joined_bound_ok (wl : list string) (opts : PassphraseOpts)
  (ws : list string) :
  List.length ws = Z.to_nat (numWords opts) ->
  Forall (candidate_word wl (personal opts)) ws ->
  str_length (String.concat (separator opts) ws) <= joined_bound wl opts.
Proof.
  intros Hl Hall. unfold joined_bound.
  replace (Z.max 0 (numWords opts)) with (js_length ws)
    by (unfold js_length; lia).
  apply concat_length_bound.
  eapply Forall_impl; [|exact Hall]. cbn beta. intros w Hw.
  apply max_word_length_In. destruct Hw as [Hw| ->]; [right|left]; auto.
Qed.

(** The run of [generatePassphrase], in both readings, with the computable
    length bound. *)
Lemma generatePassphrase_run (wl : list string) (opts : PassphraseOpts) :
  1 <= js_length wl ->
  (forall s, wp false (generatePassphrase wl opts) s
               (fun res k tr => passphrase_run wl opts res tr))
  /\ (forall s, accepting s -> js_length wl <= 2 ^ 31 ->
                (enableInsertExtras opts = true ->
                 joined_bound wl opts + 4 <= 2 ^ 31) ->
                wp true (generatePassphrase wl opts) s
                   (fun res k tr => passphrase_run wl opts res tr)).
Proof.
  intros HW. split.
  - intros s. apply wp_generatePassphrase; try assumption;
      intros; discriminate.
  - intros s Hs HWb Hb. apply wp_generatePassphrase; try assumption.
    + intros _. exact HWb.
    + intros _ Hi ws Hl Hall. specialize (Hb Hi).
      pose proof (joined_bound_ok wl opts ws Hl Hall). lia.
    + intros _. exact Hs.
Qed.

Lemma word_groups_without_hint (personal : string) (wl : list string)
  (groups : list (list Z)) (ws : list string) :
  hint_usable personal = false ->
  Forall2 (word_rel personal wl) groups ws ->
  List.concat groups = repeat (js_length wl) (List.length ws).
Proof.
  intros Hh. induction 1 as [|g w groups ws Hw _ IH]; [reflexivity|].
  unfold word_rel in Hw. rewrite Hh in Hw. destruct Hw as [-> _].
  cbn. now rewrite IH.
Qed.

Lemma IZR_to_nat (z : Z) : 0 <= z -> INR (Z.to_nat z) = IZR z.
Proof. intros H. now rewrite INR_IZR_INZ, Z2Nat.id. Qed.

(** What a run of [generatePassphrase] yields for the entropy accounting. *)
Lemma passphrase_run_bits (wl : list string) (opts : PassphraseOpts)
  (res : PassphraseResult.t) (tr : list Z) :
  0 <= numWords opts ->
  passphrase_run wl opts res tr ->
  let t := PassphraseResult.transforms res in
  let W := js_length wl in
  exists tw ti,
    tr = tw
         ++ (if enableCap opts
             then repeat 2 (Z.to_nat (lettersCount t)) else [])
         ++ (if enableLeet opts then leetChoices t else [])
         ++ ti /\
    List.length (PassphraseResult.words res) = Z.to_nat (numWords opts) /\
    capitalisation t = enableCap opts /\
    leet t = enableLeet opts /\
    lettersCount t
    = (if enableCap opts
       then count_letters (String.concat (separator opts)
                             (PassphraseResult.words res))
       else 0) /\
    (hint_usable (personal opts) = false ->
     tw = repeat W (Z.to_nat (numWords opts))) /\
    (enableInsertExtras opts = false -> ti = [] /\ insertions t = None) /\
    (enableInsertExtras opts = true ->
     exists k, insertions t = Some (mkInsertions k 37) /\
               1 <= k <= 4 /\ 0 <= baseLen t) /\
    PassphraseResult.bits res
    = Finite (IZR (numWords opts) * Math_log2 (IZR W)
              + sum_log2 (if enableCap opts
                          then repeat 2%Z (Z.to_nat (lettersCount t))
                          else [])
              + sum_log2 (if enableLeet opts then leetChoices t else [])
              + insertion_credit t)%R.
Proof.
  intros HnW (groups & text1 & text2 & ti & Hl & Hws & Hcap & Hc & Hlc
              & Hleet & Hle & Hlcs & Hins & Hbits & ->) t W.
  fold t in Hc, Hlc, Hle, Hlcs, Hins, Hbits.
  set (joined := String.concat (separator opts) (PassphraseResult.words res))
    in *.
  assert (Hlc0 : 0 <= lettersCount t).
  { rewrite Hlc. destruct (enableCap opts); [apply count_letters_nonneg|lia]. }
  exists (List.concat groups), ti.
  split.
  { rewrite Hlc, Hlcs. destruct (enableCap opts), (enableLeet opts);
      reflexivity. }
  split; [exact Hl|]. split; [exact Hc|]. split; [exact Hle|].
  split; [exact Hlc|].
  split.
  { intros Hh. rewrite <- Hl.
    eapply word_groups_without_hint; eassumption. }
  split.
  { intros Hi. rewrite Hi in Hins. tauto. }
  split.
  { intros Hi. rewrite Hi in Hins.
    destruct Hins as (c & Hi' & Hb & groups' & vals & ps & Hc' & _).
    pose proof (maxInsert_range (str_length text2)).
    exists c. split; [exact Hi'|]. split; [lia|].
    rewrite Hb. unfold str_length. lia. }
  rewrite Hbits, bitsForPassphraseModel_eval.
  - rewrite Hc, Hle. f_equal.
    assert (E1 : (if enableCap opts then IZR (lettersCount t) else 0%R)
                 = sum_log2 (if enableCap opts
                             then repeat 2 (Z.to_nat (lettersCount t))
                             else [])).
    { destruct (enableCap opts); [|reflexivity].
      now rewrite sum_log2_repeat_2, IZR_to_nat. }
    assert (E2 : (if enableLeet opts then sum_log2 (leetChoices t) else 0%R)
                 = sum_log2 (if enableLeet opts then leetChoices t else [])).
    { now destruct (enableLeet opts). }
    rewrite E1, E2. reflexivity.
  - exact Hlc0.
  - intros ins Hi. destruct (enableInsertExtras opts).
    + destruct Hins as (c & Hi' & Hb & groups' & vals & ps & Hc' & _).
      rewrite Hi in Hi'. injection Hi' as ->. cbn [count].
      split; [lia|]. rewrite Hb. unfold str_length. lia.
    + destruct Hins as (_ & Hn & _). rewrite Hi in Hn. discriminate.
Qed.

Lemma generatePassphrase_ok_run (wl : list string) (opts : PassphraseOpts)
  (s : rng) (res : PassphraseResult.t) (s' : rng) :
  1 <= js_length wl ->
  generatePassphrase wl opts s = Ok res s' ->
  exists tr, choices s' = choices s ++ tr /\ passphrase_run wl opts res tr.
Proof.
  intros HW E. destruct (generatePassphrase_run wl opts HW) as [Hp _].
  destruct (wp_ok _ _ _ _ _ _ (Hp s) E) as (k & tr & -> & Hrun).
  exists tr. split; [reflexivity | exact Hrun].
Qed.

Lemma generatePassphrase_returns (wl : list string) (opts : PassphraseOpts)
  (s : rng) :
  1 <= js_length wl <= 2 ^ 31 -> accepting s ->
  (enableInsertExtras opts = true -> joined_bound wl opts + 4 <= 2 ^ 31) ->
  exists res s', generatePassphrase wl opts s = Ok res s'.
Proof.
  intros HW Hs Hb.
  destruct (generatePassphrase_run wl opts ltac:(lia)) as [_ Ht].
  specialize (Ht s Hs ltac:(lia) Hb). apply wp_returns in Ht.
  destruct Ht as (res & k & tr & E & _). eauto.
Qed.

(** C2: with leet and insertion disabled, every passphrase generation of
    [numWords] words from a word list of size [W] reports
    [numWords * log2(W)] bits when capitalization is disabled, and exactly
    [lettersCount] more when it is enabled, [lettersCount] being the
    recorded number of alphabetic characters of the joined words.  For
    [numWords = 3] and [W = 200] the model gives [3 * log2(200)], which lies
    between [22.925] and [22.935], and with capitalization and
    [lettersCount = 14] exactly [14] more. *)
Theorem passphrase_bits_words_and_capitalization :
  (forall (wl : list string) (opts : PassphraseOpts),
     1 <= js_length wl -> 0 <= numWords opts ->
     enableLeet opts = false -> enableInsertExtras opts = false ->
     (forall s msg, generatePassphrase wl opts s <> Throw msg) /\
     (forall s res s',
        generatePassphrase wl opts s = Ok res s' ->
        let t := PassphraseResult.transforms res in
        List.length (PassphraseResult.words res) = Z.to_nat (numWords opts) /\
        lettersCount t
        = (if enableCap opts
           then count_letters (String.concat (separator opts)
                                 (PassphraseResult.words res))
           else 0) /\
        PassphraseResult.bits res
        = Finite (IZR (numWords opts) * Math_log2 (IZR (js_length wl))
                  + (if enableCap opts then IZR (lettersCount t) else 0))%R) /\
     (forall s, accepting s -> js_length wl <= 2 ^ 31 ->
                exists res s', generatePassphrase wl opts s = Ok res s'))
  /\ (forall b, bitsForPassphraseModel 3 200
                  (mkTransforms false 0 false [] None b)
                = Finite (3 * Math_log2 200)%R)
  /\ (22.925 < 3 * Math_log2 200 < 22.935)%R
  /\ (forall b, bitsForPassphraseModel 3 200
                  (mkTransforms true 14 false [] None b)
                = Finite (3 * Math_log2 200 + 14)%R).
Proof.
  split; [|split; [|split]].
  - intros wl opts HW HnW Hleet Hins. split; [|split].
    + intros s msg. eapply wp_no_throw.
      apply (proj1 (generatePassphrase_run wl opts HW)).
    + intros s res s' E t.
      destruct (generatePassphrase_ok_run _ _ _ _ _ HW E) as (tr & _ & Hrun).
      destruct (passphrase_run_bits _ _ _ _ HnW Hrun)
        as (tw & ti & _ & Hl & _ & _ & Hlc & _ & Hni & _ & Hbits).
      fold t in Hlc, Hni, Hbits.
      split; [exact Hl|]. split; [exact Hlc|].
      rewrite Hbits. f_equal.
      destruct (Hni Hins) as [_ Hnone].
      unfold insertion_credit. rewrite Hnone, Hleet.
      assert (Hlc0 : 0 <= lettersCount t).
      { rewrite Hlc. destruct (enableCap opts);
          [apply count_letters_nonneg | lia]. }
      destruct (enableCap opts).
      * rewrite sum_log2_repeat_2, IZR_to_nat by assumption. cbn. lra.
      * cbn. lra.
    + intros s Hs HWb. apply generatePassphrase_returns; auto.
      rewrite Hins. discriminate.
  - intros b. rewrite bitsForPassphraseModel_eval; cbn; try lia.
    + f_equal. unfold insertion_credit. cbn. lra.
    + discriminate.
  - exact three_log2_200.
  - intros b. rewrite bitsForPassphraseModel_eval; cbn; try lia.
    + f_equal. unfold insertion_credit. cbn. lra.
    + discriminate.
Qed.

Lemma passphrase_bits_words_and_capitalization_witness :
  exists res s',
    generatePassphrase fallback_wordlist (mkOpts 3 "-" "" true false false)
      (fresh [0; 1; 2; 1; 0; 1] 8) = Ok res s'
    /\ PassphraseResult.bits res
       = Finite (3 * Math_log2 (IZR (js_length fallback_wordlist))
                 + IZR (lettersCount (PassphraseResult.transforms res)))%R.
Proof.
  destruct passphrase_bits_words_and_capitalization as [H _].
  destruct (H fallback_wordlist (mkOpts 3 "-" "" true false false))
    as (_ & Hok & Hret).
  - vm_compute. discriminate.
  - cbn. lia.
  - reflexivity.
  - reflexivity.
  - destruct (Hret (fresh [0; 1; 2; 1; 0; 1] 8)) as (res & s' & E).
    + apply accepting_fresh; [lia | reflexivity].
    + vm_compute. discriminate.
    + exists res, s'. split; [exact E|].
      destruct (Hok _ _ _ E) as (_ & _ & Hbits). exact Hbits.
Defined.









(** ** Time to crack *)

Lemma Math_log10_lt (x y : R) :
  (0 < x)%R -> (x < y)%R -> (Math_log10 x < Math_log10 y)%R.
Proof.
  intros Hx Hxy. unfold Math_log10. pose proof ln10_pos.
  apply Rmult_lt_compat_r; [now apply Rinv_0_lt_compat|].
  now apply ln_increasing.
Qed.

Lemma Math_log10_le (x y : R) :
  (0 < x)%R -> (x <= y)%R -> (Math_log10 x <= Math_log10 y)%R.
Proof.
  intros Hx [Hlt | ->]; [left; now apply Math_log10_lt | right; reflexivity].
Qed.

Lemma Rpower_10_log10 (x : R) : (0 < x)%R -> Rpower 10 (Math_log10 x) = x.
Proof.
  intros Hx. unfold Rpower, Math_log10.
  replace (ln x / ln 10 * ln 10)%R with (ln x)
    by (field; pose proof ln10_pos; lra).
  now apply exp_ln.
Qed.

Lemma Math_log10_Rpower (e : R) : Math_log10 (Rpower 10 e) = e.
Proof.
  unfold Math_log10. rewrite ln_Rpower. field. pose proof ln10_pos. lra.
Qed.

Lemma Rpower_10_Z (e : Z) : 0 <= e -> Rpower 10 (IZR e) = IZR (10 ^ e).
Proof.
  intros He. rewrite <- (Z2Nat.id e) by assumption.
  rewrite <- INR_IZR_INZ, Rpower_pow by lra. apply pow_IZR.
Qed.

Lemma Rpower_2_Z (e : Z) : 0 <= e -> Rpower 2 (IZR e) = IZR (2 ^ e).
Proof.
  intros He. rewrite <- (Z2Nat.id e) by assumption.
  rewrite <- INR_IZR_INZ, Rpower_pow by lra. apply pow_IZR.
Qed.

Lemma Rpower_10_log10_2 (b : R) : Rpower 10 (b * Math_log10 2) = Rpower 2 b.
Proof.
  unfold Rpower, Math_log10. f_equal. field. pose proof ln10_pos. lra.
Qed.

(** The number of years, never materialised by the scientific branch. *)
Lemma years_of_log10Years (bits gps : R) :
  (0 < gps)%R ->
  Rpower 10 (bits * Math_log10 2 - Math_log10 gps - Math_log10 SECS_PER_YEAR)
  = (Rpower 2 bits / gps / SECS_PER_YEAR)%R.
Proof.
  intros Hg. unfold Rminus. rewrite !Rpower_plus, !Rpower_Ropp.
  rewrite Rpower_10_log10_2, !Rpower_10_log10;
    [reflexivity | unfold SECS_PER_YEAR; lra | assumption].
Qed.

Lemma log10_2_bounds : (3 / 10 < Math_log10 2 < 31 / 100)%R.
Proof.
  assert (H1 : 10 ^ 3 < 2 ^ 10) by (vm_compute; reflexivity).
  assert (H2 : 2 ^ 100 < 10 ^ 31) by (vm_compute; reflexivity).
  apply (log_lower 10 2 3 10) in H1; try (clear; lia).
  apply (log_upper 10 2 31 100) in H2; try (clear; lia).
  unfold Math_log10. lra.
Qed.

Lemma log10_year_bounds : (7 < Math_log10 SECS_PER_YEAR < 8)%R.
Proof.
  unfold SECS_PER_YEAR. split.
  - rewrite <- (Math_log10_Rpower 7) at 1.
    apply Math_log10_lt; [apply exp_pos|].
    rewrite (Rpower_10_Z 7) by lia. apply IZR_lt. reflexivity.
  - rewrite <- (Math_log10_Rpower 8) at 1.
    apply Math_log10_lt; [lra|].
    rewrite (Rpower_10_Z 8) by lia. apply IZR_lt. reflexivity.
Qed.

Lemma Math_floor_spec (x : R) :
  (IZR (Math_floor x) <= x < IZR (Math_floor x) + 1)%R.
Proof.
  unfold Math_floor. destruct (base_Int_part x) as [H1 H2]. lra.
Qed.

Lemma Math_floor_unique (x : R) (z : Z) :
  (IZR z <= x < IZR z + 1)%R -> Math_floor x = z.
Proof.
  intros H. unfold Math_floor. symmetry. apply Int_part_spec. lra.
Qed.

Lemma mantissa_range (x : R) (e : Z) :
  (IZR e <= x < IZR e + 1)%R -> (1 <= Rpower 10 (x - IZR e) < 10)%R.
Proof.
  intros [H1 H2]. split.
  - destruct (Req_dec (x - IZR e) 0) as [->|Hne].
    + rewrite Rpower_O by lra. lra.
    + left. rewrite <- (Rpower_O 10) at 1 by lra. apply Rpower_lt; lra.
  - rewrite <- (Rpower_1 10) at 2 by lra. apply Rpower_lt; lra.
Qed.

Lemma toFixed2_mantissa (m : R) :
  (1 <= m < 10)%R -> 100 <= toFixed2 m <= 1000.
Proof.
  intros [H1 H2]. unfold toFixed2.
  destruct (base_Int_part (m * 100 + / 2)) as [Ha Hb].
  split.
  - apply Z.lt_succ_r. apply lt_IZR. rewrite succ_IZR. lra.
  - apply Z.lt_succ_r. apply lt_IZR. rewrite succ_IZR. lra.
Qed.

Lemma MAX_VALUE_large : (10000 <= MAX_VALUE)%R.
Proof. unfold MAX_VALUE. apply IZR_le. vm_compute. discriminate. Qed.

Lemma log10_double_range (gps : R) :
  (MIN_VALUE <= gps <= MAX_VALUE)%R ->
  (- 1074 < Math_log10 gps < 1024)%R.
Proof.
  intros [Hmin Hmax]. pose proof log10_2_bounds as Hl.
  assert (Hpos : (0 < MIN_VALUE)%R).
  { unfold MIN_VALUE. apply Rinv_0_lt_compat. apply IZR_lt. reflexivity. }
  split.
  - apply Rlt_le_trans with (Math_log10 MIN_VALUE);
      [|apply Math_log10_le; assumption].
    unfold MIN_VALUE. rewrite <- (Rpower_2_Z 1074) by lia.
    rewrite <- Rpower_Ropp, <- Rpower_10_log10_2, Math_log10_Rpower. lra.
  - apply Rle_lt_trans with (Math_log10 (IZR (2 ^ 1024)));
      [apply Math_log10_le; [lra|]|].
    + eapply Rle_trans; [exact Hmax|]. unfold MAX_VALUE.
      apply IZR_le. vm_compute. discriminate.
    + rewrite <- (Rpower_2_Z 1024) by lia.
      rewrite <- Rpower_10_log10_2, Math_log10_Rpower. lra.
Qed.

(** C7, as stated, fails at [bits = 0]: with a guess rate of [10^-20] per
    second [log10Years] is above [12], yet the guard [bits <= 0] answers
    ["<1 second"]. *)
Lemma formatCrackTimeFromBits_zero_bits_not_scientific :
  let gps := (/ IZR (10 ^ 20))%R in
  (0 <= 0)%R /\ (0 < gps)%R
  /\ (6 <= 0 * Math_log10 2 - Math_log10 gps - Math_log10 31557600)%R
  /\ formatCrackTimeFromBits 0 gps = mkCrackTime LessThanOneSecond (Some 0%R).
Proof.
  intros gps.
  assert (Hg : (0 < gps)%R).
  { unfold gps. apply Rinv_0_lt_compat. apply IZR_lt. reflexivity. }
  split; [lra|]. split; [exact Hg|]. split.
  - assert (E : Math_log10 gps = (- 20)%R).
    { unfold gps. rewrite <- (Rpower_10_Z 20) by lia.
      rewrite <- Rpower_Ropp. apply Math_log10_Rpower. }
    pose proof log10_year_bounds as Hy. unfold SECS_PER_YEAR in Hy.
    rewrite E. lra.
  - unfold formatCrackTimeFromBits.
    destruct (Rle_dec 0 0) as [_|Hn]; [reflexivity | lra].
Qed.

Lemma log10Years_256 :
  let L := (256 * Math_log10 2 - Math_log10 1 - Math_log10 SECS_PER_YEAR)%R in
  (69 <= L < 70)%R /\ (3.665 <= Rpower 10 (L - 69) < 3.675)%R.
Proof.
  intros L.
  assert (HY : Rpower 10 L
               = (IZR 115792089237316195423570985008687907853269984665640564039457584007913129639936
                  / 31557600)%R).
  { unfold L. rewrite years_of_log10Years by lra.
    rewrite (Rpower_2_Z 256) by lia. unfold SECS_PER_YEAR.
    replace (2 ^ 256) with
      115792089237316195423570985008687907853269984665640564039457584007913129639936
      by (vm_compute; reflexivity).
    field. }
  assert (H69 : Rpower 10 69 = IZR (10 ^ 69)) by (apply Rpower_10_Z; lia).
  assert (H70 : Rpower 10 70 = IZR (10 ^ 70)) by (apply Rpower_10_Z; lia).
  replace (10 ^ 69) with 1000000000000000000000000000000000000000000000000000000000000000000000
    in H69 by (vm_compute; reflexivity).
  replace (10 ^ 70) with 10000000000000000000000000000000000000000000000000000000000000000000000
    in H70 by (vm_compute; reflexivity).
  assert (HL : L = Math_log10 (Rpower 10 L))
    by (now rewrite Math_log10_Rpower).
  split.
  - rewrite HL. split.
    + apply Rle_trans with (Math_log10 (Rpower 10 69));
        [rewrite Math_log10_Rpower; lra|].
      apply Math_log10_le; [apply exp_pos|]. rewrite HY, H69. lra.
    + apply Rlt_le_trans with (Math_log10 (Rpower 10 70));
        [|rewrite Math_log10_Rpower; lra].
      apply Math_log10_lt; [apply exp_pos|]. rewrite HY, H70. lra.
  - unfold Rminus. rewrite Rpower_plus, Rpower_Ropp, HY, H69. lra.
Qed.

Lemma formatCrackTimeFromBits_large (bits gps : R) :
  (0 < bits)%R ->
  (6 <= bits * Math_log10 2 - Math_log10 gps - Math_log10 SECS_PER_YEAR)%R ->
  formatCrackTimeFromBits bits gps
  = let log10Years :=
      (bits * Math_log10 2 - Math_log10 gps - Math_log10 SECS_PER_YEAR)%R in
    let exponentYears := Math_floor log10Years in
    let mantissa := Math_pow 10 (log10Years - IZR exponentYears) in
    mkCrackTime (Scientific (toFixed2 mantissa) exponentYears) None.
Proof.
  intros Hb HL. pose proof log10_year_bounds as Hy.
  unfold formatCrackTimeFromBits.
  destruct (Rle_dec bits 0) as [Hle|_]; [lra|].
  destruct (Rlt_dec (bits * Math_log10 2 - Math_log10 gps) 0) as [Hlt|_];
    [lra|].
  destruct (Rlt_dec (bits * Math_log10 2 - Math_log10 gps
                     - Math_log10 SECS_PER_YEAR) 6) as [Hlt|_]; [lra|].
  reflexivity.
Qed.

(** C7 (amended): for every [bits > 0] and [guessesPerSecond > 0] with
    [log10Years = bits * log10(2) - log10(guessesPerSecond) -
    log10(31557600) >= 6], [formatCrackTimeFromBits] returns the scientific
    label with [exponent = floor(log10Years) >= 6] and
    [mantissa = 10^(log10Years - exponent)] in [[1, 10)], printed with two
    decimals (between 1.00 and 10.00), and [seconds = null];
    [mantissa * 10^exponent] is the number of years
    [2^bits / guessesPerSecond / 31557600], which is never computed.  For
    inputs in the range of finite doubles every number computed on that
    path is within that range.  For [bits = 256] and one guess per second
    the label is [3.67e69 years].  For [bits <= 0] the answer is
    ["<1 second"] whatever the guess rate. *)
Theorem formatCrackTimeFromBits_scientific :
  (forall bits gps : R,
     (0 < bits)%R -> (0 < gps)%R ->
     let log10Years :=
       (bits * Math_log10 2 - Math_log10 gps - Math_log10 31557600)%R in
     (6 <= log10Years)%R ->
     let exponent := Math_floor log10Years in
     let mantissa := Math_pow 10 (log10Years - IZR exponent) in
     formatCrackTimeFromBits bits gps
     = mkCrackTime (Scientific (toFixed2 mantissa) exponent) None
     /\ 6 <= exponent
     /\ (IZR exponent <= log10Years < IZR exponent + 1)%R
     /\ (1 <= mantissa < 10)%R
     /\ 100 <= toFixed2 mantissa <= 1000
     /\ (mantissa * Rpower 10 (IZR exponent)
         = Rpower 2 bits / gps / 31557600)%R
     /\ ((bits <= MAX_VALUE)%R -> (MIN_VALUE <= gps <= MAX_VALUE)%R ->
         in_double_range (bits * Math_log10 2) /\
         in_double_range (bits * Math_log10 2 - Math_log10 gps) /\
         in_double_range log10Years /\
         in_double_range (IZR exponent) /\
         in_double_range (log10Years - IZR exponent) /\
         in_double_range mantissa))
  /\ formatCrackTimeFromBits 256 1 = mkCrackTime (Scientific 367 69) None
  /\ (forall bits gps : R,
        (bits <= 0)%R ->
        formatCrackTimeFromBits bits gps
        = mkCrackTime LessThanOneSecond (Some 0%R)).
Proof.
  split; [|split].
  - intros bits gps Hb Hg log10Years HL exponent mantissa.
    change 31557600%R with SECS_PER_YEAR in log10Years.
    pose proof (Math_floor_spec log10Years) as Hfl. fold exponent in Hfl.
    pose proof (mantissa_range log10Years exponent Hfl) as Hm.
    fold (Math_pow 10 (log10Years - IZR exponent)) in Hm. fold mantissa in Hm.
    split; [apply formatCrackTimeFromBits_large; assumption|].
    split.
    { apply Z.lt_succ_r. apply lt_IZR. rewrite succ_IZR. lra. }
    split; [exact Hfl|]. split; [exact Hm|].
    split; [now apply toFixed2_mantissa|].
    split.
    { unfold mantissa, Math_pow. rewrite <- Rpower_plus.
      replace (log10Years - IZR exponent + IZR exponent)%R with log10Years
        by lra.
      unfold log10Years. now apply years_of_log10Years. }
    intros Hbmax Hgr.
    pose proof (log10_double_range gps Hgr) as Hlg.
    pose proof log10_2_bounds as Hl2. pose proof log10_year_bounds as Hy.
    pose proof MAX_VALUE_large as HM.
    assert (Hbl : (0 < bits * Math_log10 2 <= 31 / 100 * MAX_VALUE)%R) by nra.
    assert (H6 : (6 <= IZR exponent)%R).
    { apply IZR_le. apply Z.lt_succ_r. apply lt_IZR. rewrite succ_IZR. lra. }
    unfold in_double_range, log10Years in *.
    repeat split; apply Rabs_le; lra.
  - destruct log10Years_256 as [HL Hm].
    rewrite formatCrackTimeFromBits_large; [|lra|lra].
    cbv zeta.
    set (L := (256 * Math_log10 2 - Math_log10 1
               - Math_log10 SECS_PER_YEAR)%R) in *.
    assert (He : Math_floor L = 69) by (apply Math_floor_unique; lra).
    rewrite He. unfold Math_pow. f_equal. f_equal.
    apply toFixed2_spec. lra.
  - intros bits gps Hb. unfold formatCrackTimeFromBits.
    destruct (Rle_dec bits 0) as [_|Hn]; [reflexivity | contradiction].
Qed.

Lemma formatCrackTimeFromBits_scientific_witness :
  exists h e,
    formatCrackTimeFromBits 256 1 = mkCrackTime (Scientific h e) None
    /\ 100 <= h <= 1000 /\ 6 <= e.
Proof.
  destruct formatCrackTimeFromBits_scientific as [H _].
  destruct (H 256%R 1%R) as (E & He & _ & _ & Hh & _).
  - lra.
  - lra.
  - destruct log10Years_256 as [HL _]. unfold SECS_PER_YEAR in HL. lra.
  - eexists. eexists. split; [exact E|]. split; [exact Hh | exact He].
Defined.

(** * Further properties of the code *)

(** ** Sampler *)

Lemma js_length_pos_iff {A} (arr : list A) : arr <> [] <-> 1 <= js_length arr.
Proof.
  unfold js_length. destruct arr; cbn [List.length]; split; intros H;
    try congruence; lia.
Qed.

(** X1: [secureChoice] throws on an empty array; on a non-empty array it
    never throws, every value it returns is an element of the array and it
    logs one draw over the whole array; on a source that never rejects it
    returns the element indexed by the next raw value modulo the length. *)
Theorem secureChoice_contract {A} (undefined : A) (arr : list A) :
  (arr = [] ->
   forall s, secureChoice undefined arr s = Throw "maxExclusive must be > 0")
  /\ (arr <> [] ->
      (forall s msg, secureChoice undefined arr s <> Throw msg) /\
      (forall s v s', secureChoice undefined arr s = Ok v s' ->
         In v arr /\ choices s' = choices s ++ [js_length arr]) /\
      (js_length arr <= 2 ^ 31 ->
       forall s, accepting s ->
         secureChoice undefined arr s
         = Ok (nth (Z.to_nat (raw s 0 mod js_length arr)) arr undefined)
              (advance s 1 [js_length arr]))).
Proof.
  split.
  - intros -> s. reflexivity.
  - intros Hne. apply js_length_pos_iff in Hne.
    assert (Hp := fun s => wp_choice false undefined arr s Hne
                             ltac:(intros; discriminate)
                             ltac:(intros; discriminate)).
    split; [|split].
    + intros s msg. eapply wp_no_throw. apply Hp.
    + intros s v s' E.
      destruct (wp_ok _ _ _ _ _ _ (Hp s) E) as (k & tr & -> & Hin & -> & _).
      auto.
    + intros Hb s Hs.
      assert (Ht := wp_choice true undefined arr s Hne
                      ltac:(intros _; exact Hb) ltac:(intros _; exact Hs)).
      apply wp_returns in Ht.
      destruct Ht as (v & k & tr & E & _ & -> & Hk).
      destruct (Hk eq_refl) as [-> ->]. rewrite E. f_equal.
      unfold js_index.
      pose proof (Z.mod_pos_bound (raw s 0) (js_length arr) ltac:(lia)).
      destruct (_ <? 0) eqn:E0; [apply Z.ltb_lt in E0; lia | reflexivity].
Qed.

Lemma secureChoice_contract_witness :
  secureChoice ""%string ["a"; "b"; "c"]%string (fresh [7] 8)
  = Ok "b"%string (advance (fresh [7] 8) 1 [3])
  /\ secureChoice ""%string [] (fresh [7] 8)
     = Throw "maxExclusive must be > 0".
Proof.
  split.
  - destruct (secureChoice_contract ""%string ["a"; "b"; "c"]%string)
      as [_ H].
    destruct H as (_ & _ & Ht); [discriminate|].
    apply Ht; [vm_compute; discriminate|].
    apply accepting_fresh; [lia | reflexivity].
  - destruct (secureChoice_contract ""%string (@nil string)) as [H _].
    apply H. reflexivity.
Defined.

(** X2: for [1 <= n <= 0xFFFFFFFF] the sampler rejects exactly
    [1 + (0xFFFFFFFF mod n)] of the [2^32] raw values, never more than [n];
    so for [n <= 2^31] at least half of the raw values are accepted.  When
    [n] divides [2^32] it still rejects [n] values (the top [n]), although
    none would bias the result. *)
Theorem rejection_is_bounded (n : Z) :
  1 <= n <= maxUint ->
  uint32_range - threshold_of n = 1 + maxUint mod n
  /\ 1 <= uint32_range - threshold_of n <= n
  /\ (n <= 2 ^ 31 -> 2 ^ 31 <= threshold_of n)
  /\ (uint32_range mod n = 0 -> threshold_of n = uint32_range - n).
Proof.
  intros Hn. rewrite threshold_of_eq by lia.
  pose proof (Z.mod_pos_bound maxUint n ltac:(lia)) as Hm.
  unfold uint32_range, maxUint in *.
  split; [lia|]. split; [lia|]. split; [lia|].
  intros Hd.
  assert (E : 4294967295 mod n = n - 1).
  { apply Z.mod_divide in Hd; [|lia]. destruct Hd as [q Hq].
    assert (Hq1 : 1 <= q) by nia.
    replace 4294967295 with ((n - 1) + (q - 1) * n) by lia.
    rewrite Z.mod_add by lia. apply Z.mod_small. lia. }
  change 0xFFFFFFFF with 4294967295. lia.
Qed.

Lemma rejection_is_bounded_witness :
  uint32_range - threshold_of 6 = 4 /\ threshold_of 2 = uint32_range - 2.
Proof.
  split.
  - destruct (rejection_is_bounded 6) as (H & _);
      [unfold maxUint; lia | rewrite H; reflexivity].
  - destruct (rejection_is_bounded 2) as (_ & _ & _ & H);
      [unfold maxUint; lia | apply H; reflexivity].
Defined.

(** ** Word list and generator together *)




(** ** Capitalization *)

Lemma toLowerCase_idempotent (ch : ascii) :
  toLowerCase (toLowerCase ch) = toLowerCase ch.
Proof.
  destruct ch as [[] [] [] [] [] [] [] []]; vm_compute; reflexivity.
Qed.

Lemma toLowerCase_toUpperCase (ch : ascii) :
  toLowerCase (toUpperCase ch) = toLowerCase ch.
Proof.
  destruct ch as [[] [] [] [] [] [] [] []]; vm_compute; reflexivity.
Qed.

Lemma cap_rel_same_letter (a b : list ascii) :
  Forall2 cap_rel a b -> map toLowerCase b = map toLowerCase a.
Proof.
  induction 1 as [|ch ch' a b Hc _ IH]; [reflexivity|].
  cbn [map]. rewrite IH. f_equal.
  unfold cap_rel in Hc. destruct (is_letter ch); [|now subst].
  destruct Hc as [-> | ->];
    [apply toLowerCase_toUpperCase | apply toLowerCase_idempotent].
Qed.

Lemma chars_string_map (f : ascii -> ascii) (s : string) :
  chars (string_map f s) = map f (chars s).
Proof.
  unfold chars. induction s as [|c s IH]; cbn; [reflexivity | now rewrite IH].
Qed.

Lemma string_eq_of_chars (a b : string) : chars a = chars b -> a = b.
Proof.
  intros H. rewrite <- (string_of_list_ascii_of_string a).
  rewrite <- (string_of_list_ascii_of_string b).
  unfold chars in H. now rewrite H.
Qed.

Lemma count_letters_le (text : string) : count_letters text <= str_length text.
Proof.
  unfold count_letters. rewrite str_length_chars. unfold js_length.
  pose proof (filter_length_le is_letter (chars text)). lia.
Qed.

(** X4: whatever the source delivers, the capitalization stage changes
    nothing but the case of ASCII letters: lower-casing its output gives the
    lower-cased input; the [lettersCount] it reports is the number of ASCII
    letters of the input, between [0] and the length of the text, and it
    makes exactly that many draws, each a coin. *)
Theorem randomizeCapitalization_only_changes_case
  (text : string) (s : rng) (r : string * Z) (s' : rng) :
  randomizeCapitalization text s = Ok r s' ->
  string_map toLowerCase (fst r) = string_map toLowerCase text
  /\ snd r = count_letters text
  /\ 0 <= snd r <= str_length text
  /\ choices s' = choices s ++ repeat 2 (Z.to_nat (snd r)).
Proof.
  intros E.
  assert (Hp := wp_randomizeCapitalization false text s
                  ltac:(intros; discriminate)).
  destruct (wp_ok _ _ _ _ _ _ Hp E) as (k & tr & -> & Hall & Hn & ->).
  split.
  - apply string_eq_of_chars. rewrite !chars_string_map.
    now apply cap_rel_same_letter.
  - rewrite Hn. split; [reflexivity|].
    split; [|reflexivity].
    pose proof (count_letters_nonneg text). pose proof (count_letters_le text).
    lia.
Qed.

Lemma randomizeCapitalization_only_changes_case_witness :
  string_map toLowerCase "aB-1" = string_map toLowerCase "Ab-1"
  /\ 2 = count_letters "Ab-1".
Proof.
  destruct (randomizeCapitalization_only_changes_case "Ab-1"
              (fresh [0; 1] 8) ("aB-1"%string, 2)
              (advance (fresh [0; 1] 8) 2 [2; 2]))
    as (H1 & H2 & _).
  - vm_compute. reflexivity.
  - split; [exact H1 | exact H2].
Defined.

Lemma capitalize_with_ext (coin coin' : nat -> bool) (text : string) :
  (forall i, coin i = coin' i) ->
  forall i0, capitalize_with coin i0 text = capitalize_with coin' i0 text.
Proof.
  intros H. induction text as [|ch rest IH]; intros i0; cbn; [reflexivity|].
  destruct (is_letter ch); now rewrite IH, ?H.
Qed.

Lemma capitalize_with_shift (coin : nat -> bool) (text : string) :
  forall i0,
    capitalize_with (fun j => coin (S j)) i0 text
    = capitalize_with coin (S i0) text.
Proof.
  induction text as [|ch rest IH]; intros i0; cbn; [reflexivity|].
  destruct (is_letter ch); now rewrite IH.
Qed.

Lemma push_char_append (out : string) (ch : ascii) (rest : string) :
  (push_char out ch ++ rest)%string = (out ++ String ch rest)%string.
Proof.
  unfold push_char. induction out as [|c out IH]; cbn; [reflexivity|].
  now rewrite IH.
Qed.

Lemma append_empty_r (a : string) : (a ++ "")%string = a.
Proof. induction a as [|c a IH]; cbn; [reflexivity | now rewrite IH]. Qed.

Lemma wp_capitalization_exact (text : string) :
  forall (out : string) (lettersCount : Z) (s : rng),
    accepting s ->
    wp true (capitalization_loop text out lettersCount) s
       (fun r k tr =>
          fst r = (out ++ capitalize_with (parity_coin s) 0 text)%string /\
          k = Z.to_nat (count_letters text)).
Proof.
  induction text as [|ch rest IH]; intros out lc s Hs;
    cbn [capitalization_loop capitalize_with].
  - apply wp_ret. cbn [fst]. now rewrite append_empty_r.
  - rewrite count_letters_String.
    pose proof (count_letters_nonneg rest) as Hnn.
    destruct (is_letter ch) eqn:El.
    + eapply wp_bind;
        [apply wp_draw; [lia | intros; lia | intros _; exact Hs]|].
      intros r k tr (Hr & -> & Hk). destruct (Hk eq_refl) as [-> ->].
      eapply wp_conseq; [apply IH; now apply accepting_advance|]. cbn beta.
      intros [r' n'] k' tr' [Hf ->]. cbn [fst] in *.
      split; [|lia].
      rewrite Hf, push_char_append. unfold parity_coin at 2.
      do 2 f_equal.
      rewrite <- (capitalize_with_shift (parity_coin s)).
      apply capitalize_with_ext. intros i. unfold parity_coin.
      now rewrite raw_advance.
    + eapply wp_conseq; [apply IH; assumption|]. cbn beta.
      intros [r' n'] k' tr' [Hf ->]. cbn [fst] in *.
      split; [|lia]. now rewrite Hf, push_char_append.
Qed.

(** X5: on a source that never rejects, the capitalization stage returns
    the text in which the [i]-th ASCII letter is upper-cased when the
    [i]-th raw value is odd and lower-cased when it is even, whatever its
    case was; every letter is decided by a raw value of its own, and
    exactly one raw value is consumed per letter. *)
Theorem randomizeCapitalization_by_parity (text : string) (s : rng) :
  accepting s ->
  randomizeCapitalization text s
  = Ok (capitalize_with (parity_coin s) 0 text, count_letters text)
       (advance s (Z.to_nat (count_letters text))
          (repeat 2 (Z.to_nat (count_letters text)))).
Proof.
  intros Hs.
  assert (Ht := wp_capitalization_exact text "" 0 s Hs).
  apply wp_returns in Ht. destruct Ht as ([r n] & k & tr & E & Hf & ->).
  cbn [fst] in Hf. change (""%string ++ ?x)%string with x in Hf.
  fold (randomizeCapitalization text) in E.
  assert (Hp := wp_randomizeCapitalization false text s
                  ltac:(intros; discriminate)).
  destruct (wp_ok _ _ _ _ _ _ Hp E) as (k' & tr' & Hadv & _ & Hn & ->).
  cbn [snd] in Hn. rewrite E. subst r n.
  assert (tr = repeat 2 (Z.to_nat (count_letters text))).
  { apply (f_equal choices) in Hadv. cbn in Hadv.
    now apply app_inv_head in Hadv. }
  now subst tr.
Qed.

Lemma randomizeCapitalization_by_parity_witness :
  randomizeCapitalization "ab-Cd" (fresh [1; 0; 2; 7] 8)
  = Ok ("Ab-cD"%string, 4)
       (advance (fresh [1; 0; 2; 7] 8) 4 [2; 2; 2; 2]).
Proof.
  rewrite randomizeCapitalization_by_parity.
  - reflexivity.
  - apply accepting_fresh; [lia | reflexivity].
Defined.

(** ** Leet substitution *)

Lemma leet_alternatives_inert (low : ascii) (alternatives : list ascii) :
  leet_lookup low = Some alternatives ->
  Forall (fun a => is_letter a = false /\
                   leet_lookup (toLowerCase a) = None) alternatives.
Proof.
  unfold leet_lookup, LEET_MAP. cbn [find fst snd].
  repeat (match goal with
          | |- context [Ascii.eqb ?a ?b] => destruct (Ascii.eqb a b)
          end;
          [cbn; intros [= <-]; repeat constructor|]).
  discriminate.
Qed.

Lemma leet_keys_are_letters (ch : ascii) :
  leet_lookup (toLowerCase ch) <> None -> is_letter ch = true.
Proof.
  destruct ch as [[] [] [] [] [] [] [] []]; vm_compute; intros H;
    try reflexivity; now contradiction H.
Qed.

Lemma leet_sizes_spec (text : list ascii) :
  Forall (fun c => c = 2 \/ c = 3) (leet_sizes text)
  /\ js_length (leet_sizes text) <= js_length (filter is_letter text).
Proof.
  induction text as [|ch rest [IH1 IH2]]; [split; [constructor|reflexivity]|].
  unfold leet_sizes. cbn [flat_map filter]. fold (leet_sizes rest).
  destruct (leet_lookup (toLowerCase ch)) as [alts|] eqn:El.
  - pose proof (leet_lookup_sizes _ _ El) as Ha.
    rewrite (leet_keys_are_letters ch) by (rewrite El; discriminate).
    split.
    + constructor; [|exact IH1].
      unfold js_length in *. cbn [List.length]. lia.
    + unfold js_length in *. cbn [List.length app]. lia.
  - cbn [app]. split; [exact IH1|].
    destruct (is_letter ch); unfold js_length in *; cbn [List.length]; lia.
Qed.

Lemma leet_loop_draws (text : string) :
  forall (out : string) (choices0 : list Z) (s : rng)
         (r : string * list Z) (s' : rng),
    leet_loop text out choices0 s = Ok r s' ->
    exists picks,
      List.length picks = List.length (leet_sizes (chars text)) /\
      chars (fst r) = chars out ++ leet_with picks (chars text) /\
      draws (combine (leet_sizes (chars text)) picks) s s'.
Proof.
  induction text as [|ch rest IH]; intros out cs s r s' E;
    cbn [leet_loop] in E.
  - apply ret_ok in E. destruct E as [-> ->]. exists [].
    change (chars "") with (@nil ascii). cbn. now rewrite app_nil_r.
  - change (chars (String ch rest)) with (ch :: chars rest).
    unfold leet_sizes. cbn [flat_map leet_with].
    fold (leet_sizes (chars rest)).
    destruct (leet_lookup (toLowerCase ch)) as [alts|] eqn:El.
    + apply bind_ok in E. destruct E as (pick & s1 & E1 & E).
      unfold secureChoice in E1. apply bind_ok in E1.
      destruct E1 as (d & s2 & E1 & E2). apply ret_ok in E2.
      destruct E2 as [-> <-].
      apply IH in E. destruct E as (picks & Hl & Ho & Hd).
      exists (d :: picks). cbn [app List.length combine draws].
      split; [lia|]. split.
      * rewrite Ho, chars_push, <- app_assoc. reflexivity.
      * exists s1. auto.
    + apply IH in E. destruct E as (picks & Hl & Ho & Hd).
      exists picks. cbn [app]. split; [exact Hl|]. split; [|exact Hd].
      rewrite Ho, chars_push, <- app_assoc.
      destruct picks; reflexivity.
Qed.

(** X6: whatever the source delivers, the leet stage makes one call of
    [secureRandomInt] per substitutable character, in text order, over the
    size of that character's candidate set (the character itself followed
    by the homoglyphs of its lower-cased form: 2 or 3 entries), and records
    exactly these sizes, at most as many as the text has ASCII letters.  The
    value of the call indexes the candidate set: the output is the text with
    every substitutable character replaced by the candidate picked, every
    other character kept.  So each character is left as it was or replaced
    by a homoglyph, and a homoglyph is never a letter nor itself
    substitutable.  On a source that never rejects, the [i]-th pick is the
    [i]-th raw value modulo the size. *)
Theorem applyLeet_substitutions
  (text : string) (s : rng) (r : string * list Z) (s' : rng) :
  applyLeet text s = Ok r s' ->
  Forall2 (fun ch ch' =>
             ch' = ch \/
             exists alternatives,
               leet_lookup (toLowerCase ch) = Some alternatives /\
               In ch' alternatives /\ is_letter ch' = false /\
               leet_lookup (toLowerCase ch') = None)
          (chars text) (chars (fst r))
  /\ snd r = leet_sizes (chars text)
  /\ Forall (fun c => c = 2 \/ c = 3) (snd r)
  /\ js_length (snd r) <= count_letters text
  /\ choices s' = choices s ++ snd r
  /\ exists picks : list Z,
       List.length picks = List.length (snd r) /\
       draws (combine (snd r) picks) s s' /\
       Forall2 (fun n pick => 0 <= pick < n) (snd r) picks /\
       chars (fst r) = leet_with picks (chars text) /\
       (accepting s ->
        s' = advance s (List.length picks) (snd r) /\
        forall i pick, nth_error picks i = Some pick ->
                       exists n, nth_error (snd r) i = Some n /\
                                 pick = raw s i mod n).
Proof.
  intros E.
  assert (Hp := wp_applyLeet false text s ltac:(intros; discriminate)).
  destruct (wp_ok _ _ _ _ _ _ Hp E) as (k & tr & Hs' & Hall & Hn & ->).
  rewrite Hn. destruct (leet_sizes_spec (chars text)) as [H1 H2].
  split; [|split; [reflexivity|split; [exact H1|split; [exact H2|split]]]].
  - eapply Forall2_impl; [|exact Hall]. cbn beta. intros ch ch' Hr.
    unfold leet_rel in Hr.
    destruct (leet_lookup (toLowerCase ch)) as [alts|] eqn:El; [|now left].
    destruct Hr as [<- | Hin]; [now left|]. right.
    exists alts. split; [reflexivity|]. split; [exact Hin|].
    pose proof (leet_alternatives_inert _ _ El) as Hi.
    rewrite Forall_forall in Hi. now apply Hi.
  - now rewrite Hs'.
  - unfold applyLeet in E. apply leet_loop_draws in E.
    destruct E as (picks & Hl & Ho & Hd).
    change (chars "") with (@nil ascii) in Ho. cbn [app] in Ho.
    exists picks. split; [exact Hl|]. split; [exact Hd|].
    pose proof (draws_range _ _ _ Hd) as Hr.
    split; [|split; [exact Ho|]].
    + clear - Hl Hr. revert picks Hl Hr.
      generalize (leet_sizes (chars text)) as l.
      induction l as [|n l IH]; intros [|p picks] Hl Hr; try discriminate;
        constructor.
      * apply (Forall_inv Hr).
      * apply IH; [cbn in Hl; lia | apply (Forall_inv_tail Hr)].
    + intros Hs.
      destruct (draws_accepting _ _ _ Hd Hs) as [Hadv Hraw].
      { apply (Forall_combine_fst (fun n => n <= 2 ^ 31)).
        eapply Forall_impl; [|exact H1]. cbn beta. intros n [-> | ->]; lia. }
      rewrite length_combine, <- Hl, Nat.min_id in Hadv.
      rewrite map_fst_combine in Hadv by (symmetry; exact Hl).
      split; [exact Hadv|].
      intros i pick Hnth.
      destruct (nth_error (leet_sizes (chars text)) i) as [n|] eqn:En.
      * exists n. split; [reflexivity|].
        apply Hraw. now apply nth_error_combine_Some.
      * apply nth_error_None in En.
        assert (i < List.length picks)%nat
          by (apply nth_error_Some; rewrite Hnth; discriminate).
        lia.
Qed.

Lemma applyLeet_substitutions_witness :
  [3; 2] = leet_sizes (chars "at-x")
  /\ Forall (fun c => c = 2 \/ c = 3) [3; 2]
  /\ js_length [3; 2] <= count_letters "at-x"
  /\ exists picks : list Z,
       draws (combine [3; 2] picks) (fresh [1; 1] 8)
             (advance (fresh [1; 1] 8) 2 [3; 2])
       /\ chars "47-x" = leet_with picks (chars "at-x").
Proof.
  destruct (applyLeet_substitutions "at-x" (fresh [1; 1] 8)
              ("47-x"%string, [3; 2])
              (advance (fresh [1; 1] 8) 2 [3; 2]))
    as (_ & H0 & H1 & H2 & _ & picks & _ & Hd & _ & Ht & _).
  - vm_compute. reflexivity.
  - split; [exact H0|]. split; [exact H1|]. split; [exact H2|].
    exists picks. split; [exact Hd | exact Ht].
Defined.

(** ** Insertion *)

Lemma subsequence_refl {A} (l : list A) : subsequence l l.
Proof. induction l; constructor; assumption. Qed.

Lemma subsequence_trans {A} (l1 l2 l3 : list A) :
  subsequence l1 l2 -> subsequence l2 l3 -> subsequence l1 l3.
Proof.
  intros H12 H23. revert l1 H12.
  induction H23 as [|x l2 l3 H IH|x l2 l3 H IH]; intros l1 H12.
  - exact H12.
  - constructor. now apply IH.
  - inversion H12; subst; constructor; now apply IH.
Qed.

Lemma subsequence_app_skip {A} (l1 l2 : list A) (x : A) :
  subsequence (l1 ++ l2) (l1 ++ x :: l2).
Proof.
  induction l1 as [|a l1 IH]; cbn.
  - constructor. apply subsequence_refl.
  - now constructor.
Qed.

Lemma subsequence_splice {A} (arr : list A) (pos : Z) (x : A) :
  subsequence arr (splice arr pos x).
Proof.
  unfold splice. rewrite <- (firstn_skipn (Z.to_nat pos) arr) at 1.
  apply subsequence_app_skip.
Qed.

Lemma Permutation_splice {A} (arr : list A) (pos : Z) (x : A) :
  Permutation (splice arr pos x) (x :: arr).
Proof.
  unfold splice. symmetry.
  rewrite <- (firstn_skipn (Z.to_nat pos) arr) at 1.
  apply Permutation_middle.
Qed.

Lemma insert_all_keeps (vals : list ascii) :
  forall (ps : list Z) (arr : list ascii),
    List.length ps = List.length vals ->
    subsequence arr (insert_all arr ps vals)
    /\ Permutation (insert_all arr ps vals) (vals ++ arr).
Proof.
  unfold insert_all.
  induction vals as [|v vals IH]; intros [|p ps] arr Hl; try discriminate.
  - cbn. split; [apply subsequence_refl | reflexivity].
  - cbn [combine fold_left fst snd].
    destruct (IH ps (splice arr p v) ltac:(cbn in Hl; lia)) as [Hs Hp].
    split.
    + eapply subsequence_trans; [apply subsequence_splice | exact Hs].
    + rewrite Hp. rewrite Permutation_splice. cbn [app].
      symmetry. apply Permutation_middle.
Qed.

Lemma value_rel_class (opts : PoolCfg) (g : list Z) (v : ascii) :
  value_rel opts g v ->
  (In v SYMBOLS \/ is_digit_char v)
  /\ (symbols opts = false -> is_digit_char v)
  /\ (symbols opts = true -> digits opts = false -> In v SYMBOLS).
Proof.
  unfold value_rel. destruct (symbols opts), (digits opts); cbn [andb];
    intuition; discriminate.
Qed.

(** X7: whatever the source delivers, [insertExtras] never deletes or
    reorders a character: the original text is a subsequence of the result,
    and the result consists of exactly the original characters and the
    [count] inserted values.  Every inserted value is a digit or one of the
    27 symbols: a digit when symbols are disabled, a symbol when only
    symbols are enabled. *)
Theorem insertExtras_only_inserts
  (text : string) (opts : PoolCfg) (s : rng) (res : ExtrasResult.t)
  (s' : rng) :
  insertExtras text opts s = Ok res s' ->
  subsequence (chars text) (chars (ExtrasResult.text res))
  /\ exists vals : list ascii,
       js_length vals = ExtrasResult.count res /\
       Permutation (chars (ExtrasResult.text res)) (vals ++ chars text) /\
       Forall (fun v => In v SYMBOLS \/ is_digit_char v) vals /\
       (symbols opts = false -> Forall is_digit_char vals) /\
       (symbols opts = true -> digits opts = false ->
        Forall (fun v => In v SYMBOLS) vals).
Proof.
  intros E.
  assert (Hp := wp_insertExtras false text opts s
                  ltac:(intros; discriminate) ltac:(intros; discriminate)).
  destruct (wp_ok _ _ _ _ _ _ Hp E)
    as (k0 & tr & _ & k & groups & vals & ps & _ & _ & Hcount & _ & _
          & Hv & Hps & Hall & _ & Htext & _).
  assert (Hl : List.length ps = List.length vals)
    by (unfold js_length in *; lia).
  destruct (insert_all_keeps vals ps (chars text) Hl) as [Hsub Hperm].
  rewrite Htext. split; [exact Hsub|].
  exists vals. split; [lia|]. split; [exact Hperm|].
  assert (Hcl : Forall (fun v =>
                  (In v SYMBOLS \/ is_digit_char v)
                  /\ (symbols opts = false -> is_digit_char v)
                  /\ (symbols opts = true -> digits opts = false ->
                      In v SYMBOLS)) vals).
  { clear - Hall. induction Hall as [|g v gs vs Hg _ IH]; constructor;
      [eapply value_rel_class; eassumption | exact IH]. }
  rewrite Forall_forall in Hcl.
  split; [|split]; [| intros H1 | intros H1 H2]; apply Forall_forall;
    intros v Hin; destruct (Hcl v Hin) as (Ha & Hb & Hc); auto.
Qed.

Lemma insertExtras_only_inserts_witness :
  subsequence (chars "ab-1") (chars "ab$-1")
  /\ exists vals : list ascii,
       js_length vals = 1 /\
       Permutation (chars "ab$-1") (vals ++ chars "ab-1").
Proof.
  destruct (insertExtras_only_inserts "ab-1" extras_opts
              (fresh [0; 1; 3; 2] 8)
              (ExtrasResult.mk "ab$-1" 1 37 4)
              (advance (fresh [0; 1; 3; 2] 8) 4 [1; 2; 27; 5]))
    as (H1 & vals & H2 & H3 & _).
  - vm_compute. reflexivity.
  - split; [exact H1|]. exists vals. split; [exact H2 | exact H3].
Defined.

(** ** Personal hint *)

Lemma chars_substring_0 (n : nat) :
  forall s : string, chars (substring 0 n s) = firstn n (chars s).
Proof.
  unfold chars. induction n as [|n IH]; intros [|c s]; cbn; try reflexivity.
  now rewrite IH.
Qed.

Lemma chars_strip_spaces (s : string) :
  chars (strip_spaces s) = filter (fun ch => negb (is_space ch)) (chars s).
Proof.
  unfold chars. induction s as [|c s IH]; cbn; [reflexivity|].
  destruct (is_space c); cbn; now rewrite IH.
Qed.

Lemma is_space_toLowerCase_latin1 (ch : ascii) :
  is_space (toLowerCase_latin1 ch) = is_space ch.
Proof.
  destruct ch as [[] [] [] [] [] [] [] []]; vm_compute; reflexivity.
Qed.

Lemma toLowerCase_latin1_idempotent (ch : ascii) :
  toLowerCase_latin1 (toLowerCase_latin1 ch) = toLowerCase_latin1 ch.
Proof.
  destruct ch as [[] [] [] [] [] [] [] []]; vm_compute; reflexivity.
Qed.

(** The two lower-casings agree wherever the stages use the ASCII one: on
    the letters [randomizeCapitalization] converts, and as keys of
    [LEET_MAP]. *)
Lemma toLowerCase_latin1_letter (ch : ascii) :
  is_letter ch = true -> toLowerCase_latin1 ch = toLowerCase ch.
Proof.
  destruct ch as [[] [] [] [] [] [] [] []]; vm_compute;
    intros H; try reflexivity; discriminate H.
Qed.

Lemma leet_lookup_toLowerCase_latin1 (ch : ascii) :
  leet_lookup (toLowerCase_latin1 ch) = leet_lookup (toLowerCase ch).
Proof.
  destruct ch as [[] [] [] [] [] [] [] []]; vm_compute; reflexivity.
Qed.

Lemma chars_hint_word (personal : string) :
  chars (hint_word personal)
  = map toLowerCase_latin1
        (firstn 12 (filter (fun ch => negb (is_space ch)) (chars personal))).
Proof.
  unfold hint_word.
  now rewrite chars_string_map, chars_substring_0, chars_strip_spaces.
Qed.

Lemma filter_map_commute {A} (f : A -> bool) (g : A -> A) (l : list A) :
  (forall a, f (g a) = f a) -> filter f (map g l) = map g (filter f l).
Proof.
  intros H. induction l as [|a l IH]; cbn; [reflexivity|].
  rewrite H. destruct (f a); cbn; now rewrite IH.
Qed.

Lemma filter_idempotent_on {A} (f : A -> bool) (l : list A) :
  Forall (fun a => f a = true) l -> filter f l = l.
Proof.
  induction 1 as [|a l Ha _ IH]; cbn; [reflexivity|]. now rewrite Ha, IH.
Qed.

Lemma In_firstn {A} (n : nat) (l : list A) (x : A) :
  In x (firstn n l) -> In x l.
Proof.
  intros H. rewrite <- (firstn_skipn n l). apply in_or_app. now left.
Qed.

(** X8: for every hint of 8-bit characters, the word put in for the
    personal hint is the hint without the characters [\s] matches (the six
    ASCII ones and NO-BREAK SPACE), cut to its first 12 characters and
    lower-cased as [String.prototype.toLowerCase] does (ASCII and Latin-1
    capitals): it has at most 12 characters, none of them whitespace or
    changed by lower-casing, and normalising it again changes nothing.  The
    hint [U+00C9 U+00A0 b] becomes [U+00E9 b]; the multiplication sign
    U+00D7 and the sharp s U+00DF stay. *)
Theorem hint_word_normalised (personal : string) :
  chars (hint_word personal)
  = map toLowerCase_latin1
        (firstn 12 (filter (fun ch => negb (is_space ch)) (chars personal)))
  /\ str_length (hint_word personal) <= 12
  /\ Forall (fun ch => is_space ch = false /\ toLowerCase_latin1 ch = ch)
            (chars (hint_word personal))
  /\ hint_word (hint_word personal) = hint_word personal
  /\ hint_word (String "201" (String "160" "b")) = String "233" "b"
  /\ hint_word (String "215" (String "223" (String "009" "Q")))
     = String "215" (String "223" "q").
Proof.
  set (kept := filter (fun ch => negb (is_space ch)) (chars personal)).
  assert (Hc : chars (hint_word personal)
               = map toLowerCase_latin1 (firstn 12 kept))
    by apply chars_hint_word.
  assert (Hkept : Forall (fun ch => negb (is_space ch) = true)
                         (firstn 12 kept)).
  { apply Forall_forall. intros ch Hin. apply In_firstn in Hin.
    unfold kept in Hin. apply filter_In in Hin. tauto. }
  assert (Hns : Forall (fun ch => negb (is_space ch) = true)
                       (map toLowerCase_latin1 (firstn 12 kept))).
  { apply Forall_map. eapply Forall_impl; [|exact Hkept]. cbn beta.
    intros ch H. now rewrite is_space_toLowerCase_latin1. }
  split; [exact Hc|]. split; [|split; [|split; [|split]]].
  - rewrite str_length_chars, Hc. unfold js_length.
    rewrite length_map. pose proof (firstn_le_length 12 kept). lia.
  - rewrite Hc. apply Forall_forall. intros ch Hin.
    split.
    + rewrite Forall_forall in Hns. specialize (Hns ch Hin).
      now destruct (is_space ch).
    + apply in_map_iff in Hin. destruct Hin as (c & <- & _).
      apply toLowerCase_latin1_idempotent.
  - apply string_eq_of_chars. rewrite chars_hint_word, Hc.
    rewrite (filter_idempotent_on _ _ Hns).
    rewrite firstn_all2
      by (rewrite length_map; apply firstn_le_length).
    rewrite map_map. apply map_ext. intros ch.
    apply toLowerCase_latin1_idempotent.
  - vm_compute. reflexivity.
  - vm_compute. reflexivity.
Qed.

(** ** Shape of a generated passphrase *)

Lemma word_rel_origin (personal : string) (wl : list string)
  (groups : list (list Z)) (ws : list string) :
  Forall2 (word_rel personal wl) groups ws ->
  Forall (fun w => In w wl \/
                   (hint_usable personal = true /\ w = hint_word personal))
         ws.
Proof.
  induction 1 as [|g w groups ws Hw _ IH]; constructor; [|exact IH].
  unfold word_rel in Hw.
  destruct (hint_usable personal); intuition.
Qed.

(** X9: whatever the source delivers, a generated passphrase is made of
    exactly [numWords] words, each taken from the word list or (only when
    the hint is usable) the normalised hint; its length is the length of the
    words joined by the separator plus the recorded number of insertions,
    and [baseLen] is the length of the joined words.  Some text of the
    length of the joined words is a subsequence of the password; with
    capitalization and leet off that text is the joined words themselves.
    With leet and insertion off the password is the joined words up to the
    case of ASCII letters, and with all three transforms off it is exactly
    the joined words. *)
Theorem generatePassphrase_shape
  (wl : list string) (opts : PassphraseOpts) (s : rng)
  (res : PassphraseResult.t) (s' : rng) :
  1 <= js_length wl ->
  generatePassphrase wl opts s = Ok res s' ->
  let t := PassphraseResult.transforms res in
  let password := PassphraseResult.password res in
  let joined :=
    String.concat (separator opts) (PassphraseResult.words res) in
  List.length (PassphraseResult.words res) = Z.to_nat (numWords opts)
  /\ Forall (fun w => In w wl \/
                      (hint_usable (personal opts) = true /\
                       w = hint_word (personal opts)))
            (PassphraseResult.words res)
  /\ str_length password
     = str_length joined
       + match insertions t with Some ins => count ins | None => 0 end
  /\ baseLen t = str_length joined
  /\ (exists base : string,
        str_length base = str_length joined /\
        subsequence (chars base) (chars password) /\
        (enableCap opts = false -> enableLeet opts = false -> base = joined))
  /\ (enableLeet opts = false -> enableInsertExtras opts = false ->
      string_map toLowerCase password = string_map toLowerCase joined)
  /\ (enableCap opts = false -> enableLeet opts = false ->
      enableInsertExtras opts = false -> password = joined).
Proof.
  intros HW E t password joined.
  destruct (generatePassphrase_ok_run _ _ _ _ _ HW E) as (tr & _ & Hrun).
  destruct Hrun as (groups & text1 & text2 & ti & Hl & Hws & Hcap & _ & _
                    & Hleet & _ & _ & Hins & _).
  fold joined in Hcap, Hins. fold t in Hins. fold password in Hins.
  assert (Hlen1 : str_length text1 = str_length joined).
  { destruct (enableCap opts); [|now subst].
    now apply Forall2_chars_length in Hcap. }
  assert (Hlen2 : str_length text2 = str_length joined).
  { destruct (enableLeet opts); [|now subst].
    apply Forall2_chars_length in Hleet. lia. }
  assert (Hbase : enableCap opts = false -> enableLeet opts = false ->
                  text2 = joined).
  { intros Hc Hle. rewrite Hc in Hcap. rewrite Hle in Hleet. congruence. }
  split; [exact Hl|]. split; [eapply word_rel_origin; eassumption|].
  destruct (enableInsertExtras opts) eqn:Ei.
  - destruct Hins as (c & Hi & Hb & groups' & vals & ps & _ & Hv & Hp & _
                      & _ & Htext & Hfinal & _).
    rewrite Hi. cbn [count].
    split; [lia|]. split; [lia|]. split.
    + exists text2. split; [exact Hlen2|]. split; [|exact Hbase].
      rewrite Htext.
      apply (insert_all_keeps vals ps (chars text2)).
      unfold js_length in *. lia.
    + split; intros; discriminate.
  - destruct Hins as (Hp & Hi & Hb & _). rewrite Hi.
    split; [rewrite Hp; lia|]. split; [exact Hb|]. split.
    + exists text2. split; [exact Hlen2|].
      split; [rewrite Hp; apply subsequence_refl | exact Hbase].
    + split.
      * intros Hle _. rewrite Hle in Hleet. rewrite Hp, Hleet.
        destruct (enableCap opts); [|now subst].
        apply string_eq_of_chars. rewrite !chars_string_map.
        now apply cap_rel_same_letter.
      * intros Hc Hle _. rewrite Hp. now apply Hbase.
Qed.

Lemma generatePassphrase_shape_witness :
  exists res s',
    generatePassphrase fallback_wordlist (mkOpts 2 "-" "" false false false)
      (fresh [3; 4] 8) = Ok res s'
    /\ List.length (PassphraseResult.words res) = 2%nat
    /\ PassphraseResult.password res
       = String.concat "-" (PassphraseResult.words res).
Proof.
  assert (HW : 1 <= js_length fallback_wordlist) by (vm_compute; discriminate).
  destruct (generatePassphrase_returns fallback_wordlist
              (mkOpts 2 "-" "" false false false) (fresh [3; 4] 8))
    as (res & s' & E).
  - vm_compute. split; discriminate.
  - apply accepting_fresh; [lia | reflexivity].
  - intros Hi. discriminate Hi.
  - exists res, s'. split; [exact E|].
    destruct (generatePassphrase_shape _ _ _ _ _ HW E)
      as (Hl & _ & _ & _ & _ & _ & Hp).
    split; [exact Hl|]. apply Hp; reflexivity.
Defined.

(** ** More on the entropy mathematics *)

Lemma Math_log2_le (x y : R) :
  (0 < x)%R -> (x <= y)%R -> (Math_log2 x <= Math_log2 y)%R.
Proof.
  intros Hx [Hlt | ->]; [|lra]. unfold Math_log2. pose proof ln2_pos.
  apply Rmult_le_compat_r; [left; now apply Rinv_0_lt_compat|].
  left. now apply ln_increasing.
Qed.

Lemma Math_log2_nonneg (x : R) : (1 <= x)%R -> (0 <= Math_log2 x)%R.
Proof.
  intros H. rewrite <- Math_log2_1. apply Math_log2_le; lra.
Qed.

Lemma binomial_pos (n : nat) : forall k, (k <= n)%nat -> (1 <= binomial n k)%nat.
Proof.
  induction n as [|n IH]; intros [|k] Hk; cbn [binomial]; try lia.
  specialize (IH k ltac:(lia)). lia.
Qed.

Lemma binomial_1 (n : nat) : binomial n 1 = n.
Proof.
  induction n as [|n IH]; [reflexivity|].
  cbn [binomial]. rewrite IH. destruct n; reflexivity.
Qed.

Lemma log2_binomial_nonneg (n k : nat) :
  (k <= n)%nat -> (0 <= Math_log2 (INR (binomial n k)))%R.
Proof.
  intros H. apply Math_log2_nonneg.
  change 1%R with (INR 1). apply le_INR. now apply binomial_pos.
Qed.

Lemma log2_nCr_binomial_value (n k : Z) :
  0 <= k <= n ->
  log2_nCr n k
  = Finite (Math_log2 (INR (binomial (Z.to_nat n) (Z.to_nat k)))).
Proof.
  intros H. rewrite log2_nCr_value by assumption.
  now rewrite binomial_C by lia.
Qed.

(** X10: for [0 <= k <= n], [log2_nCr(n, k)] is finite and non-negative and
    equals [log2_nCr(n, n - k)]; it is [0] for [k = 0] and for [k = n], and
    [log2(n)] for [k = 1]. *)
Theorem log2_nCr_symmetric_nonneg :
  (forall n k : Z,
     0 <= k <= n ->
     log2_nCr n k = log2_nCr n (n - k)
     /\ exists x : R, log2_nCr n k = Finite x /\ (0 <= x)%R)
  /\ (forall n : Z, 0 <= n ->
        log2_nCr n 0 = Finite 0%R /\ log2_nCr n n = Finite 0%R)
  /\ (forall n : Z, 1 <= n -> log2_nCr n 1 = Finite (Math_log2 (IZR n))).
Proof.
  split; [|split].
  - intros n k H. split.
    + rewrite !log2_nCr_value by lia.
      rewrite (pascal_step1 (Z.to_nat n) (Z.to_nat k)) by lia.
      do 3 f_equal. lia.
    + eexists. split; [apply log2_nCr_binomial_value; assumption|].
      apply log2_binomial_nonneg. lia.
  - intros n Hn. rewrite !log2_nCr_value by lia.
    change (Z.to_nat 0) with 0%nat. rewrite C_n_0, C_n_n, Math_log2_1. auto.
  - intros n Hn. rewrite log2_nCr_binomial_value by lia.
    change (Z.to_nat 1) with 1%nat.
    now rewrite binomial_1, INR_IZR_INZ, Z2Nat.id by lia.
Qed.

Lemma log2_nCr_symmetric_nonneg_witness :
  log2_nCr 12 2 = log2_nCr 12 10 /\ log2_nCr 12 1 = Finite (Math_log2 12).
Proof.
  destruct log2_nCr_symmetric_nonneg as (H1 & _ & H3). split.
  - destruct (H1 12 2 ltac:(lia)) as [H _]. exact H.
  - apply H3. lia.
Defined.

Lemma charPoolSize_monotone (a b : PoolCfg) :
  (lower a = true -> lower b = true) ->
  (upper a = true -> upper b = true) ->
  (digits a = true -> digits b = true) ->
  (symbols a = true -> symbols b = true) ->
  charPoolSize a <= charPoolSize b.
Proof.
  destruct a as [[] [] [] []], b as [[] [] [] []]; cbn; intros H1 H2 H3 H4;
    try (vm_compute; discriminate);
    try (specialize (H1 eq_refl); discriminate);
    try (specialize (H2 eq_refl); discriminate);
    try (specialize (H3 eq_refl); discriminate);
    try (specialize (H4 eq_refl); discriminate).
Qed.

Lemma bitsForCharacterMode_le (l1 l2 p1 p2 : Z) :
  0 <= l1 <= l2 -> p1 <= p2 ->
  (bitsForCharacterMode l1 p1 <= bitsForCharacterMode l2 p2)%R.
Proof.
  intros Hl Hp. unfold bitsForCharacterMode.
  assert (H1 : (0 <= IZR l1 <= IZR l2)%R) by (split; apply IZR_le; lia).
  destruct (p1 <=? 0) eqn:E1, (p2 <=? 0) eqn:E2;
    try apply Z.leb_le in E1; try apply Z.leb_le in E2;
    try apply Z.leb_gt in E1; try apply Z.leb_gt in E2; try lia.
  - lra.
  - assert (0 <= Math_log2 (IZR p2))%R
      by (apply Math_log2_nonneg; apply IZR_le; lia).
    nra.
  - assert (0 <= Math_log2 (IZR p1))%R
      by (apply Math_log2_nonneg; apply IZR_le; lia).
    assert (Math_log2 (IZR p1) <= Math_log2 (IZR p2))%R
      by (apply Math_log2_le; [apply IZR_lt; lia | apply IZR_le; lia]).
    nra.
Qed.

(** X11: the character-mode entropy never decreases when the password gets
    longer or when further character classes are enabled; it is [0] for an
    empty pool and for length [0], and every additional character adds
    [log2(poolSize)] bits. *)
Theorem bitsForCharacterMode_monotone :
  (forall (l1 l2 : Z) (a b : PoolCfg),
     0 <= l1 <= l2 ->
     (lower a = true -> lower b = true) ->
     (upper a = true -> upper b = true) ->
     (digits a = true -> digits b = true) ->
     (symbols a = true -> symbols b = true) ->
     (0 <= bitsForCharacterMode l1 (charPoolSize a)
      <= bitsForCharacterMode l2 (charPoolSize b))%R)
  /\ (forall (l : Z) (a : PoolCfg),
        bitsForCharacterMode 0 (charPoolSize a) = 0%R /\
        bitsForCharacterMode l (charPoolSize (mkPool false false false false))
        = 0%R /\
        (0 < charPoolSize a ->
         bitsForCharacterMode (l + 1) (charPoolSize a)
         = (bitsForCharacterMode l (charPoolSize a)
            + Math_log2 (IZR (charPoolSize a)))%R)).
Proof.
  split.
  - intros l1 l2 a b Hl H1 H2 H3 H4. split.
    + replace 0%R with (bitsForCharacterMode 0 (charPoolSize a)).
      * apply bitsForCharacterMode_le; lia.
      * unfold bitsForCharacterMode. destruct (_ <=? 0); lra.
    + apply bitsForCharacterMode_le; [lia|].
      now apply charPoolSize_monotone.
  - intros l a. split; [|split].
    + unfold bitsForCharacterMode. destruct (_ <=? 0); lra.
    + reflexivity.
    + intros Hp. rewrite !bitsForCharacterMode_closed_form by assumption.
      rewrite plus_IZR. lra.
Qed.

Lemma bitsForCharacterMode_monotone_witness :
  (0 <= bitsForCharacterMode 8 (charPoolSize (mkPool true false false false))
   <= bitsForCharacterMode 16 (charPoolSize (mkPool true false true false)))%R.
Proof.
  destruct bitsForCharacterMode_monotone as [H _].
  apply H; cbn; intros; try lia; try reflexivity; discriminate.
Defined.

(** ** Estimate before generation *)

(** X12: in character mode with at least one class enabled, the bit count
    shown before generation is the bit count every generation then reports,
    and so is the crack-time label derived from it; with no class enabled
    the estimate shows [0] bits and ["<1 second"]. *)
Theorem preGenerationEstimate_character_agrees :
  (forall (W length : Z) (pool : PoolCfg) (guessRate : R)
          (s : rng) (res : CharacterResult.t) (s' : rng),
     lower pool || upper pool || digits pool || symbols pool = true ->
     generateCharacterPassword length pool s = Ok res s' ->
     exists b : R,
       CharacterResult.bits res = Some b /\
       preGenerationEstimate W (CharacterOptions length pool guessRate)
       = mkEstimate (Finite b)
           (label (formatCrackTimeFromBits b guessRate)))
  /\ (forall (W length : Z) (guessRate : R),
        preGenerationEstimate W
          (CharacterOptions length (mkPool false false false false) guessRate)
        = mkEstimate (Finite 0%R) LessThanOneSecond).
Proof.
  split.
  - intros W length pool g s res s' Hpool E.
    pose proof (charPoolSize_range pool Hpool) as Hsz.
    pose proof (build_pool_size pool) as Hb.
    rewrite generateCharacterPassword_nonempty in E by lia.
    unfold bind in E.
    destruct (character_loop _ _ _ s) as [pwd s1| |]; try discriminate.
    injection E as <- _. cbn [CharacterResult.bits].
    eexists. split; [reflexivity|].
    cbn [preGenerationEstimate]. now rewrite Hb.
  - intros W length g. cbn [preGenerationEstimate].
    change (charPoolSize (mkPool false false false false)) with 0.
    unfold bitsForCharacterMode, formatCrackTimeFromBits. cbn [Z.leb Z.compare].
    destruct (Rle_dec 0 0) as [_|Hn]; [reflexivity | lra].
Qed.

Lemma preGenerationEstimate_character_agrees_witness :
  exists res s' b,
    generateCharacterPassword 4 (mkPool true false true false)
      (fresh [0; 35; 36; 71] 8) = Ok res s'
    /\ CharacterResult.bits res = Some b
    /\ preBits (preGenerationEstimate 186
                  (CharacterOptions 4 (mkPool true false true false) 1))
       = Finite b.
Proof.
  destruct preGenerationEstimate_character_agrees as [H _].
  assert (Ht := wp_character_loop_accepting 4 (build_pool (mkPool true false true false))
                  ltac:(vm_compute; split; discriminate) ""
                  (fresh [0; 35; 36; 71] 8)
                  ltac:(apply accepting_fresh; [lia | reflexivity])).
  apply wp_returns in Ht. destruct Ht as (pwd & k & tr & E & _).
  assert (Eg : generateCharacterPassword 4 (mkPool true false true false)
                 (fresh [0; 35; 36; 71] 8)
               = Ok (CharacterResult.mk pwd
                       (Some (bitsForCharacterMode 4 36)) (Some (36, 4)))
                    (advance (fresh [0; 35; 36; 71] 8) k tr)).
  { rewrite generateCharacterPassword_nonempty by (vm_compute; reflexivity).
    unfold bind. change (Z.to_nat 4) with 4%nat. rewrite E. reflexivity. }
  destruct (H 186 4 (mkPool true false true false) 1%R _ _ _ eq_refl Eg)
    as (b & Hb & He).
  eexists. eexists. exists b. split; [exact Eg|]. split; [exact Hb|].
  now rewrite He.
Defined.

Lemma estimate_k_range (numWords : Z) :
  1 <= Z.min 3 (Z.max 1 (ceil_div numWords 2)) <= 3.
Proof. lia. Qed.

Lemma ceil_div_2_nonneg (a : Z) : 0 <= a -> 0 <= ceil_div a 2.
Proof.
  intros H. unfold ceil_div.
  pose proof (Z.div_mod (- a) 2 ltac:(lia)).
  pose proof (Z.mod_pos_bound (- a) 2 ltac:(lia)). lia.
Qed.

(** X13: for a word list of at least one word and [numWords >= 0] the
    passphrase estimate is finite: it is [numWords * log2(W)], plus
    [5 * numWords] with capitalization, plus [3 * numWords * log2(1.5)] with
    leet, plus [k * log2(37) + log2 C(5 * numWords + k, k)] with insertion,
    where [k = min(3, max(1, ceil(numWords / 2)))] is 1, 2 or 3.  It is
    never below [numWords * log2(W)], and with all transforms off it is the
    bit count every generation reports. *)
Theorem preGenerationEstimate_passphrase_value
  (wl : list string) (opts : PassphraseOpts) (guessRate : R) :
  1 <= js_length wl -> 0 <= numWords opts ->
  let n := numWords opts in
  let W := js_length wl in
  let k := Z.min 3 (Z.max 1 (ceil_div n 2)) in
  let e :=
    (IZR n * Math_log2 (IZR W)
     + (if enableCap opts then 5 * IZR n else 0)
     + (if enableLeet opts then IZR n * 3 * Math_log2 1.5 else 0)
     + (if enableInsertExtras opts
        then IZR k * Math_log2 37
             + Math_log2 (INR (binomial (Z.to_nat (n * 5 + k)) (Z.to_nat k)))
        else 0))%R in
  preBits (preGenerationEstimate W (PassphraseOptions opts guessRate))
  = Finite e
  /\ 1 <= k <= 3
  /\ (IZR n * Math_log2 (IZR W) <= e)%R
  /\ (enableCap opts = false -> enableLeet opts = false ->
      enableInsertExtras opts = false ->
      forall s res s',
        generatePassphrase wl opts s = Ok res s' ->
        PassphraseResult.bits res = Finite e).
Proof.
  intros HW Hn n W k e.
  assert (Hk : 1 <= k <= 3) by apply estimate_k_range.
  assert (HnR : (0 <= IZR n)%R) by (apply IZR_le; exact Hn).
  assert (H15 : (0 <= Math_log2 1.5)%R) by (apply Math_log2_nonneg; lra).
  assert (H37 : (0 <= Math_log2 37)%R) by (apply Math_log2_nonneg; lra).
  assert (HkR : (1 <= IZR k)%R) by (apply IZR_le; lia).
  assert (Hbin : (0 <= Math_log2
                         (INR (binomial (Z.to_nat (n * 5 + k)) (Z.to_nat k))))%R)
    by (apply log2_binomial_nonneg; lia).
  split; [|split; [exact Hk|split]].
  - cbn [preGenerationEstimate preBits]. fold n W k.
    rewrite SYMBOLS_length. change (10 + 27) with 37.
    rewrite (log2_nCr_binomial_value (n * 5 + k) k) by lia.
    unfold e.
    destruct (enableCap opts), (enableLeet opts), (enableInsertExtras opts);
      cbn [number_add]; f_equal; lra.
  - unfold e.
    destruct (enableCap opts), (enableLeet opts), (enableInsertExtras opts);
      nra.
  - intros Hc Hl Hi s res s' E.
    destruct (generatePassphrase_ok_run _ _ _ _ _ HW E) as (tr & _ & Hrun).
    destruct (passphrase_run_bits _ _ _ _ Hn Hrun)
      as (tw & ti & _ & _ & _ & _ & _ & _ & Hni & _ & Hbits).
    rewrite Hbits. unfold e, insertion_credit.
    destruct (Hni Hi) as [_ ->]. rewrite Hc, Hl, Hi. f_equal; cbn; lra.
Qed.

Lemma preGenerationEstimate_passphrase_value_witness :
  preBits (preGenerationEstimate (js_length fallback_wordlist)
             (PassphraseOptions (mkOpts 4 "-" "" true false false) 1))
  = Finite (4 * Math_log2 186 + 5 * 4 + 0 + 0)%R.
Proof.
  destruct (preGenerationEstimate_passphrase_value fallback_wordlist
              (mkOpts 4 "-" "" true false false) 1%R) as [H _].
  - vm_compute. discriminate.
  - cbn. lia.
  - exact H.
Defined.

Lemma sum_log2_nonneg (l : list Z) :
  Forall (fun c => 1 <= c) l -> (0 <= sum_log2 l)%R.
Proof.
  induction 1 as [|c l Hc _ IH]; [cbn; lra|].
  change (sum_log2 (c :: l)) with (Math_log2 (IZR c) + sum_log2 l)%R.
  assert (0 <= Math_log2 (IZR c))%R
    by (apply Math_log2_nonneg; apply IZR_le; lia).
  lra.
Qed.

Lemma sum_log2_le_length (l : list Z) :
  Forall (fun c => c = 2 \/ c = 3) l ->
  (INR (List.length l) <= sum_log2 l <= INR (List.length l) * Math_log2 3)%R.
Proof.
  pose proof log2_3_bounds as H3.
  induction 1 as [|c l Hc _ IH]; [cbn; lra|].
  change (sum_log2 (c :: l)) with (Math_log2 (IZR c) + sum_log2 l)%R.
  cbn [List.length]. rewrite S_INR.
  destruct Hc as [-> | ->]; [rewrite Math_log2_2|]; lra.
Qed.

(** X14: whatever the source delivers, the bit count reported for a
    generated passphrase is finite (the [-Infinity] of [log2_nCr] is never
    reached) and at least [numWords * log2(W)]: no transform lowers it.
    Capitalization adds exactly one bit per ASCII letter of the joined
    words, and leet between 1 and [log2(3)] bits per substitutable
    character. *)
Theorem generatePassphrase_bits_bounds
  (wl : list string) (opts : PassphraseOpts) (s : rng)
  (res : PassphraseResult.t) (s' : rng) :
  1 <= js_length wl -> 0 <= numWords opts ->
  generatePassphrase wl opts s = Ok res s' ->
  let t := PassphraseResult.transforms res in
  let base := (IZR (numWords opts) * Math_log2 (IZR (js_length wl)))%R in
  exists capBits leetBits insertBits : R,
    PassphraseResult.bits res
    = Finite (base + capBits + leetBits + insertBits)%R
    /\ capBits = (if enableCap opts then IZR (lettersCount t) else 0%R)
    /\ (0 <= capBits)%R
    /\ (if enableLeet opts
        then (IZR (js_length (leetChoices t)) <= leetBits
              <= IZR (js_length (leetChoices t)) * Math_log2 3)%R
        else leetBits = 0%R)
    /\ (0 <= insertBits)%R
    /\ (enableInsertExtras opts = false -> insertBits = 0%R).
Proof.
  intros HW Hn E t base.
  destruct (generatePassphrase_ok_run _ _ _ _ _ HW E) as (tr & _ & Hrun).
  pose proof (passphrase_run_bits _ _ _ _ Hn Hrun) as Hb.
  destruct Hrun as (groups & text1 & text2 & ti & _ & _ & _ & _ & Hlc
                    & _ & _ & Hlcs & _).
  destruct Hb as (tw & ti' & _ & _ & _ & _ & _ & _ & Hni & Hi & Hbits).
  fold t in Hlc, Hlcs, Hni, Hi, Hbits.
  assert (Hlc0 : 0 <= lettersCount t).
  { rewrite Hlc. destruct (enableCap opts);
      [apply count_letters_nonneg | lia]. }
  exists (if enableCap opts then IZR (lettersCount t) else 0%R),
         (if enableLeet opts then sum_log2 (leetChoices t) else 0%R),
         (insertion_credit t).
  split.
  { rewrite Hbits. f_equal. fold base.
    destruct (enableCap opts), (enableLeet opts);
      rewrite ?sum_log2_repeat_2, ?IZR_to_nat by assumption; cbn; lra. }
  split; [reflexivity|]. split.
  { destruct (enableCap opts); [apply IZR_le; lia | lra]. }
  split.
  { destruct (enableLeet opts); [|reflexivity].
    rewrite Hlcs. destruct (leet_sizes_spec (chars text1)) as [Hs _].
    pose proof (sum_log2_le_length _ Hs) as Hb.
    unfold js_length. rewrite <- INR_IZR_INZ. exact Hb. }
  unfold insertion_credit.
  destruct (enableInsertExtras opts) eqn:Ei.
  - destruct (Hi eq_refl) as (k & -> & Hk & Hbl). cbn [count choiceSize].
    split; [|discriminate].
    assert (0 <= Math_log2 37)%R by (apply Math_log2_nonneg; lra).
    assert (1 <= IZR k)%R by (apply IZR_le; lia).
    assert (0 <= Math_log2
                   (INR (binomial (Z.to_nat (baseLen t + k)) (Z.to_nat k))))%R
      by (apply log2_binomial_nonneg; lia).
    nra.
  - destruct (Hni eq_refl) as [_ ->]. split; [lra | reflexivity].
Qed.

Lemma generatePassphrase_bits_bounds_witness :
  exists res s' capBits leetBits insertBits,
    generatePassphrase fallback_wordlist (mkOpts 2 "-" "" true true false)
      (fresh [0; 1; 1; 0; 1; 0; 1; 0; 1; 0; 1] 8) = Ok res s'
    /\ PassphraseResult.bits res
       = Finite (2 * Math_log2 186 + capBits + leetBits + insertBits)%R
    /\ (0 <= capBits)%R /\ (0 <= insertBits)%R.
Proof.
  assert (HW : 1 <= js_length fallback_wordlist) by (vm_compute; discriminate).
  destruct (generatePassphrase_returns fallback_wordlist
              (mkOpts 2 "-" "" true true false)
              (fresh [0; 1; 1; 0; 1; 0; 1; 0; 1; 0; 1] 8))
    as (res & s' & E).
  - vm_compute. split; discriminate.
  - apply accepting_fresh; [lia | reflexivity].
  - intros Hi. discriminate Hi.
  - destruct (generatePassphrase_bits_bounds fallback_wordlist
                (mkOpts 2 "-" "" true true false) _ _ _ HW
                ltac:(cbn; lia) E)
      as (c & l & i & Hb & _ & Hc & _ & Hi & _).
    exists res, s', c, l, i. split; [exact E|]. split; [exact Hb|].
    split; [exact Hc | exact Hi].
Defined.

(** ** Units of the crack-time label *)

Lemma Rpower_10_lt_iff (a b : R) : (a < b)%R <-> (Rpower 10 a < Rpower 10 b)%R.
Proof.
  split.
  - intros H. apply Rpower_lt; lra.
  - intros H. rewrite <- (Math_log10_Rpower a), <- (Math_log10_Rpower b).
    apply Math_log10_lt; [apply exp_pos | exact H].
Qed.

Lemma seconds_of_log10Seconds (bits gps : R) :
  (0 < gps)%R ->
  Rpower 10 (bits * Math_log10 2 - Math_log10 gps) = (Rpower 2 bits / gps)%R.
Proof.
  intros Hg. unfold Rminus. rewrite Rpower_plus, Rpower_Ropp.
  now rewrite Rpower_10_log10_2, Rpower_10_log10.
Qed.

(** The six cases of [formatCrackTimeFromBits] for a positive bit count, by
    the number of seconds [S = 2^bits / guessesPerSec]. *)
Lemma formatCrackTimeFromBits_cases (bits gps : R) :
  (0 < bits)%R -> (0 < gps)%R ->
  let S := (Rpower 2 bits / gps)%R in
  let Y := (S / 31557600)%R in
  let r := formatCrackTimeFromBits bits gps in
  (0 < S)%R /\
  (((S < 1)%R /\ r = mkCrackTime LessThanOneSecond (Some S))
   \/ ((1 <= S < 3600)%R /\
       r = mkCrackTime (Numeric (toFixed2 (S / 60)) Minutes) (Some S))
   \/ ((3600 <= S < 86400)%R /\
       r = mkCrackTime (Numeric (toFixed2 (S / 3600)) Hours) (Some S))
   \/ ((86400 <= S)%R /\ (Y < 60)%R /\
       r = mkCrackTime (Numeric (toFixed2 (S / 86400)) Days) (Some S))
   \/ ((60 <= Y < 1000000)%R /\
       r = mkCrackTime (Numeric (toFixed2 Y) Years) (Some S))
   \/ ((1000000 <= Y)%R /\
       exists h e, r = mkCrackTime (Scientific h e) None)).
Proof.
  intros Hb Hg S Y r.
  assert (HS : Rpower 10 (bits * Math_log10 2 - Math_log10 gps) = S)
    by now apply seconds_of_log10Seconds.
  assert (HY : Rpower 10 (bits * Math_log10 2 - Math_log10 gps
                          - Math_log10 SECS_PER_YEAR) = Y)
    by (rewrite years_of_log10Years by assumption; reflexivity).
  assert (HSpos : (0 < S)%R) by (rewrite <- HS; apply exp_pos).
  assert (H0 : Rpower 10 0 = 1%R) by (apply Rpower_O; lra).
  assert (H6 : Rpower 10 6 = 1000000%R)
    by (rewrite (Rpower_10_Z 6) by lia; reflexivity).
  split; [exact HSpos|].
  subst r. unfold formatCrackTimeFromBits, Math_pow.
  destruct (Rle_dec bits 0) as [Hle|_]; [lra|].
  destruct (Rlt_dec (bits * Math_log10 2 - Math_log10 gps) 0) as [HA|HA].
  { left. apply Rpower_10_lt_iff in HA. rewrite HS, H0 in HA.
    rewrite HS. auto. }
  assert (HS1 : (1 <= S)%R).
  { apply Rnot_lt_le. intros H. apply HA. apply Rpower_10_lt_iff.
    now rewrite HS, H0. }
  right.
  destruct (Rlt_dec (bits * Math_log10 2 - Math_log10 gps
                     - Math_log10 SECS_PER_YEAR) 6) as [HL|HL].
  - apply Rpower_10_lt_iff in HL. rewrite HY, H6 in HL.
    rewrite HY, HS. unfold Y in *.
    destruct (Rlt_dec (S / 31557600) 60) as [Hy|Hy].
    + destruct (Rlt_dec (S / 86400) 1) as [Hd|Hd].
      * destruct (Rlt_dec (S / 3600) 1) as [Hh|Hh].
        -- left. split; [lra | reflexivity].
        -- right. left. split; [lra | reflexivity].
      * right. right. left. split; [lra|]. split; [lra | reflexivity].
    + right. right. right. left. split; [lra | reflexivity].
  - right. right. right. right. split; [|eauto].
    apply Rnot_lt_le. intros H. apply HL. apply Rpower_10_lt_iff.
    now rewrite HY, H6.
Qed.

(** X15: for a positive bit count the unit of the label is decided by the
    number of seconds [S = 2^bits / guessesPerSec], the time to try the
    whole space: ["<1 second"] below 1, minutes below 3600 (so between 1 and
    60 seconds the label is a fraction of a minute), hours below 86400,
    days from 86400 seconds up to 60 years of 31557600 seconds, years from
    60 years up to a million, scientific notation from a million years on;
    [seconds] is [S] in every case but the last, where it is [null]. *)
Theorem formatCrackTimeFromBits_units (bits gps : R) :
  (0 < bits)%R -> (0 < gps)%R ->
  let S := (Rpower 2 bits / gps)%R in
  let Y := (S / 31557600)%R in
  let r := formatCrackTimeFromBits bits gps in
  ((S < 1)%R -> r = mkCrackTime LessThanOneSecond (Some S))
  /\ ((1 <= S < 3600)%R ->
      r = mkCrackTime (Numeric (toFixed2 (S / 60)) Minutes) (Some S))
  /\ ((3600 <= S < 86400)%R ->
      r = mkCrackTime (Numeric (toFixed2 (S / 3600)) Hours) (Some S))
  /\ ((86400 <= S)%R -> (Y < 60)%R ->
      r = mkCrackTime (Numeric (toFixed2 (S / 86400)) Days) (Some S))
  /\ ((60 <= Y < 1000000)%R ->
      r = mkCrackTime (Numeric (toFixed2 Y) Years) (Some S))
  /\ ((1000000 <= Y)%R ->
      exists h e, r = mkCrackTime (Scientific h e) None).
Proof.
  intros Hb Hg S Y r.
  destruct (formatCrackTimeFromBits_cases bits gps Hb Hg) as [HS Hc].
  fold S Y r in HS, Hc. unfold Y in *.
  repeat split; intros;
    destruct Hc as [[? ?]|[[? ?]|[[? ?]|[(? & ? & ?)|[[? ?]|[? ?]]]]]];
    try assumption; lra.
Qed.

Lemma formatCrackTimeFromBits_units_witness :
  formatCrackTimeFromBits 5 1
  = mkCrackTime (Numeric (toFixed2 (Rpower 2 5 / 1 / 60)) Minutes)
                (Some (Rpower 2 5 / 1)%R).
Proof.
  destruct (formatCrackTimeFromBits_units 5 1) as (_ & H & _); try lra.
  apply H. rewrite (Rpower_2_Z 5) by lia.
  change (2 ^ 5) with 32. lra.
Defined.

Lemma formatCrackTimeFromBits_nonpositive (bits gps : R) :
  (bits <= 0)%R ->
  formatCrackTimeFromBits bits gps = mkCrackTime LessThanOneSecond (Some 0%R).
Proof.
  intros Hb. unfold formatCrackTimeFromBits.
  destruct (Rle_dec bits 0) as [_|Hn]; [reflexivity | contradiction].
Qed.

(** X16: for a fixed positive guess rate, a larger bit count never gives a
    smaller number of seconds nor a finer unit: the label escalates from
    ["<1 second"] through minutes, hours, days and years to scientific
    notation and never steps back. *)
Theorem formatCrackTimeFromBits_monotone (gps b1 b2 : R) :
  (0 < gps)%R -> (b1 <= b2)%R ->
  let r1 := formatCrackTimeFromBits b1 gps in
  let r2 := formatCrackTimeFromBits b2 gps in
  (label_rank (label r1) <= label_rank (label r2))%nat
  /\ (forall s1 s2, seconds r1 = Some s1 -> seconds r2 = Some s2 ->
                    (0 <= s1 <= s2)%R).
Proof.
  intros Hg Hb r1 r2.
  destruct (Rle_dec b1 0) as [H1|H1].
  - subst r1. rewrite (formatCrackTimeFromBits_nonpositive b1 gps H1).
    cbn [label seconds label_rank]. split; [lia|].
    intros s1 s2 [= <-] E2. split; [lra|].
    destruct (Rle_dec b2 0) as [H2|H2].
    + subst r2. rewrite (formatCrackTimeFromBits_nonpositive b2 gps H2) in E2.
      injection E2 as <-. lra.
    + destruct (formatCrackTimeFromBits_cases b2 gps ltac:(lra) Hg)
        as [HS Hc].
      fold r2 in Hc.
      destruct Hc as [[? E]|[[? E]|[[? E]|[(? & ? & E)|[[? E]|[? (h & e & E)]]]]]];
        rewrite E in E2; cbn [seconds] in E2; try discriminate;
        injection E2 as <-; lra.
  - assert (Hb1 : (0 < b1)%R) by lra. assert (Hb2 : (0 < b2)%R) by lra.
    destruct (formatCrackTimeFromBits_cases b1 gps Hb1 Hg) as [HS1 Hc1].
    destruct (formatCrackTimeFromBits_cases b2 gps Hb2 Hg) as [HS2 Hc2].
    fold r1 in Hc1. fold r2 in Hc2.
    assert (HS : (Rpower 2 b1 / gps <= Rpower 2 b2 / gps)%R).
    { apply Rmult_le_compat_r; [left; now apply Rinv_0_lt_compat|].
      apply Rle_Rpower; lra. }
    set (S1 := (Rpower 2 b1 / gps)%R) in *.
    set (S2 := (Rpower 2 b2 / gps)%R) in *.
    destruct Hc1 as [[? E1]|[[? E1]|[[? E1]|[(? & ? & E1)|[[? E1]|[? (h1 & e1 & E1)]]]]]];
    destruct Hc2 as [[? E2]|[[? E2]|[[? E2]|[(? & ? & E2)|[[? E2]|[? (h2 & e2 & E2)]]]]]];
      rewrite E1, E2; cbn [label seconds label_rank];
      (split;
       [ try lia; exfalso; lra
       | intros s1 s2 Hs1 Hs2; try discriminate;
         injection Hs1 as <-; injection Hs2 as <-; lra ]).
Qed.

Lemma formatCrackTimeFromBits_monotone_witness :
  (label_rank (label (formatCrackTimeFromBits 5 1))
   <= label_rank (label (formatCrackTimeFromBits 256 1)))%nat.
Proof.
  destruct (formatCrackTimeFromBits_monotone 1 5 256) as [H _]; try lra.
  exact H.
Defined.

(** ** History list *)

Lemma removelast_length {A} (l : list A) :
  List.length (removelast l) = pred (List.length l).
Proof.
  induction l as [|a l IH]; [reflexivity|].
  destruct l as [|b l]; [reflexivity|].
  change (removelast (a :: b :: l)) with (a :: removelast (b :: l)).
  cbn [List.length] in *. now rewrite IH.
Qed.

Lemma history_add_length {A} (li : A) (h : list A) :
  (List.length h <= 6)%nat ->
  List.length (history_add li h) = Nat.min 6 (S (List.length h))
  /\ history_add li h = li :: firstn 5 h.
Proof.
  intros Hh. unfold history_add, js_length.
  destruct (6 <=? Z.of_nat (List.length h)) eqn:E.
  - apply Z.leb_le in E. assert (Hl : List.length h = 6%nat) by lia.
    rewrite removelast_firstn_len, Hl. cbn [pred List.length].
    rewrite length_firstn, Hl. auto.
  - apply Z.leb_gt in E. cbn [List.length].
    rewrite firstn_all2 by lia. split; [lia | reflexivity].
Qed.

Lemma firstn_app_cons_truncated {A} (a : A) (h : list A) (m : nat)
  (X : list A) :
  forall n, (n <= S m)%nat ->
            firstn n (X ++ a :: firstn m h) = firstn n (X ++ a :: h).
Proof.
  induction X as [|x X IH]; intros [|n] Hn; cbn [app firstn];
    try reflexivity.
  - f_equal. rewrite firstn_firstn. f_equal. lia.
  - f_equal. apply IH. lia.
Qed.

(** X17: the history kept by [postGenerationDisplay] never grows beyond 6
    entries once it has 6 or fewer: adding an entry to such a list puts it
    first, keeps the 5 most recent earlier entries in their order and drops
    the oldest; after any sequence of displays from the empty list the
    history holds the last 6 entries, newest first.  A list that already
    holds more than 6 entries keeps its length. *)
Theorem history_keeps_last_six {A} :
  (forall (li : A) (h : list A),
     (List.length h <= 6)%nat ->
     history_add li h = li :: firstn 5 h /\
     (List.length (history_add li h) <= 6)%nat)
  /\ (forall lis : list A,
        history_after lis = firstn 6 (rev lis))
  /\ (forall (li : A) (h : list A),
        (6 < List.length h)%nat ->
        List.length (history_add li h) = List.length h).
Proof.
  split; [|split].
  - intros li h Hh. destruct (history_add_length li h Hh) as [Hl He].
    split; [exact He | lia].
  - intros lis. unfold history_after.
    assert (Hgen : forall (h : list A),
              (List.length h <= 6)%nat ->
              fold_left (fun h li => history_add li h) lis h
              = firstn 6 (rev lis ++ h)).
    { induction lis as [|li lis IH]; intros h Hh.
      - cbn [fold_left rev app]. symmetry. apply firstn_all2. exact Hh.
      - cbn [fold_left rev].
        destruct (history_add_length li h Hh) as [Hl He].
        rewrite IH by lia. rewrite He, <- app_assoc. cbn [app].
        apply firstn_app_cons_truncated. lia. }
    rewrite (Hgen [] ltac:(cbn; lia)). now rewrite app_nil_r.
  - intros li h Hh. unfold history_add, js_length.
    destruct (6 <=? Z.of_nat (List.length h)) eqn:E;
      [|apply Z.leb_gt in E; lia].
    cbn [List.length]. rewrite removelast_length. lia.
Qed.

Lemma history_keeps_last_six_witness :
  history_add 7 [6; 5; 4; 3; 2; 1] = [7; 6; 5; 4; 3; 2]
  /\ (List.length (history_add 7 [6; 5; 4; 3; 2; 1]) <= 6)%nat.
Proof.
  destruct (@history_keeps_last_six Z) as (H & _).
  destruct (H 7 [6; 5; 4; 3; 2; 1] ltac:(cbn; lia)) as [He Hl].
  split; [exact He | exact Hl].
Defined.

(** ** Every password over the pool can be generated *)

Lemma map_nth_seq {A} (l : list A) (d : A) :
  map (fun i => nth i l d) (seq 0 (List.length l)) = l.
Proof.
  induction l as [|a l IH]; [reflexivity|].
  cbn [List.length seq map nth]. f_equal.
  rewrite <- seq_shift, map_map. exact IH.
Qed.

Lemma accepting_fresh_Forall (l : list Z) (p : nat) :
  (0 < p)%nat -> Forall (fun r => 0 <= r < 2 ^ 31) l -> accepting (fresh l p).
Proof.
  intros Hp Hl. apply accepting_fresh; [exact Hp|].
  apply forallb_forall. rewrite Forall_forall in Hl. intros r Hin.
  specialize (Hl r Hin). apply andb_true_intro.
  split; [apply Z.leb_le | apply Z.ltb_lt]; lia.
Qed.

Lemma raw_fresh (l : list Z) (p i : nat) :
  Forall (fun r => 0 <= r < 2 ^ 31) l ->
  (i < List.length l)%nat -> raw (fresh l p) i = nth i l 0.
Proof.
  intros Hl Hi. unfold raw, fresh, source_of. cbn [stream pos].
  rewrite Nat.add_0_l. rewrite Forall_forall in Hl.
  specialize (Hl (nth i l 0) (nth_In l 0 Hi)).
  apply Z.mod_small. unfold uint32_range. lia.
Qed.

Lemma indices_of_target (pool target : list ascii) :
  Forall (fun ch => In ch pool) target ->
  exists l : list Z,
    List.length l = List.length target /\
    Forall (fun r => 0 <= r < js_length pool) l /\
    map (fun r => js_index undefined_char pool r) l = target.
Proof.
  induction 1 as [|ch target Hin _ (l & Hl & Hr & Hm)].
  - exists []. repeat split; constructor.
  - destruct (In_nth pool ch undefined_char Hin) as (i & Hi & Hnth).
    exists (Z.of_nat i :: l). cbn [List.length map]. split; [lia|].
    split; [constructor; [unfold js_length; lia | exact Hr]|].
    rewrite Hm. f_equal. unfold js_index.
    destruct (Z.of_nat i <? 0) eqn:E; [apply Z.ltb_lt in E; lia|].
    now rewrite Nat2Z.id.
Qed.

(** X18: every string over the enabled alphabet can come out of
    character-mode generation: for every target of [length] characters of
    the pool there is a source, rejecting nothing, on which
    [generateCharacterPassword] returns exactly that target. *)
Theorem every_pool_string_is_generated
  (length : Z) (cfg : PoolCfg) (target : string) :
  lower cfg || upper cfg || digits cfg || symbols cfg = true ->
  str_length target = length ->
  Forall (fun ch => In ch (build_pool cfg)) (chars target) ->
  exists (l : list Z) (res : CharacterResult.t) (s' : rng),
    accepting (fresh l 1)
    /\ generateCharacterPassword length cfg (fresh l 1) = Ok res s'
    /\ CharacterResult.password res = target.
Proof.
  intros Hcfg Hlen Hall.
  pose proof (charPoolSize_range cfg Hcfg) as Hsz.
  pose proof (build_pool_size cfg) as Hb.
  set (pool := build_pool cfg) in *.
  destruct (indices_of_target pool (chars target) Hall)
    as (l & Hl & Hr & Hm).
  assert (Hsmall : Forall (fun r => 0 <= r < 2 ^ 31) l).
  { eapply Forall_impl; [|exact Hr]. cbn beta. intros r H. lia. }
  assert (Hacc : accepting (fresh l 1)) by (apply accepting_fresh_Forall; auto).
  assert (HN : Z.to_nat length = List.length l).
  { rewrite Hl, <- Hlen, str_length_chars. unfold js_length. lia. }
  assert (Ht := wp_character_loop_accepting (Z.to_nat length) pool
                  ltac:(lia) "" (fresh l 1) Hacc).
  apply wp_returns in Ht. destruct Ht as (pwd & k & tr & E & Hc & _).
  exists l. eexists. eexists. split; [exact Hacc|]. split.
  - rewrite generateCharacterPassword_nonempty by (fold pool; lia).
    fold pool. unfold bind. rewrite E. reflexivity.
  - cbn [CharacterResult.password]. apply string_eq_of_chars.
    rewrite Hc. change (chars "") with (@nil ascii). cbn [app].
    rewrite <- Hm, HN.
    rewrite <- (map_nth_seq l 0) at 2. rewrite map_map.
    apply map_ext_in. intros i Hi. apply in_seq in Hi.
    rewrite raw_fresh by (auto; lia).
    f_equal. apply Z.mod_small.
    rewrite Forall_forall in Hr. apply Hr. apply nth_In. lia.
Qed.

Lemma every_pool_string_is_generated_witness :
  exists (l : list Z) (res : CharacterResult.t) (s' : rng),
    generateCharacterPassword 3 (mkPool true false true false) (fresh l 1)
    = Ok res s'
    /\ CharacterResult.password res = "z9a"%string.
Proof.
  destruct (every_pool_string_is_generated 3 (mkPool true false true false)
              "z9a") as (l & res & s' & _ & E & Hp).
  - reflexivity.
  - reflexivity.
  - repeat constructor; vm_compute; tauto.
  - exists l, res, s'. split; [exact E | exact Hp].
Defined.
